(** * Session catalogs, revisions, constraints, responses and payloads

  A shallow embedding of the session-state engine of the repository and
  the properties its specification states about it.  Every Go function
  that is modelled is named after the function it embeds and carries a
  pointer to its source file.

  Conventions.
  - A Go [map[string]T] is a [gmap string T]; indexing a missing key
    gives the zero value of [T], which the model writes out ([index]).
  - Fixed-width unsigned integers are [N] with the wrap-around written
    out at the operation ([uint32_incr], [uint_incr], [uint_decr], and
    [ref.Rev + 1] at the width [rev_bits] of a revision number).
  - Mutexes are not modelled: every method holds its lock from entry to
    exit, so a method is one atomic step on the state.
  - A method that mutates its receiver takes the state and returns the
    new state next to its Go results. *)

From stdpp Require Import gmap strings list fin_maps sorting.

Open Scope N_scope.

(** ** Identifiers (package ident) *)

Module ident.

(** Modelled from the spec: the declarations of the identifier types are
    not under src/.  A PeerID is a clock and a random component, a
    SessionID a peer and a sequence number, a Ref a session at a
    revision, a MessageID a ref and a sequence number.  A revision
    number is "an unsigned integer"; the spec gives it no width, so the
    width is a parameter, [rev_bits], of the code that adds to a revision
    number. *)
Record PeerID := { Clock : N; Rand : N }.
Record SessionID := { Peer : PeerID; Seq : N }.
Definition Revision := N.
Record Ref := { ID : SessionID; Rev : Revision }.
Record MessageID := { MsgRef : Ref; MsgSeq : N }.

#[global] Instance PeerID_eq_dec : EqDecision PeerID.
Proof. solve_decision. Defined.
#[global] Instance SessionID_eq_dec : EqDecision SessionID.
Proof. solve_decision. Defined.
#[global] Instance Ref_eq_dec : EqDecision Ref.
Proof. solve_decision. Defined.
#[global] Instance MessageID_eq_dec : EqDecision MessageID.
Proof. solve_decision. Defined.

(** [id.At(rev)], as the test of SessionID.At fixes it. *)
Definition At (id : SessionID) (rev : Revision) : Ref :=
  {| ID := id; Rev := rev |}.

(** [ref.Message(seq)]. *)
Definition Message (r : Ref) (seq : N) : MessageID :=
  {| MsgRef := r; MsgSeq := seq |}.

(** [c.ref.Rev = nextRev]: assignment to one field of a ref. *)
Definition with_Rev (r : Ref) (rev : Revision) : Ref :=
  {| ID := ID r; Rev := rev |}.

End ident.

(** ** Attributes and errors (package rinq) *)

Module rinq.

Record Attr := { Key : string; Value : string; IsFrozen : bool }.

#[global] Instance Attr_eq_dec : EqDecision Attr.
Proof. solve_decision. Defined.

(** Modelled from the spec: [Set(k,v)] is the attribute with frozen =
    false, [Freeze(k,v)] the one with frozen = true. *)
Definition Set_ (k v : string) : Attr :=
  {| Key := k; Value := v; IsFrozen := false |}.
Definition Freeze (k v : string) : Attr :=
  {| Key := k; Value := v; IsFrozen := true |}.

(** The zero value [rinq.Attr{}]. *)
Definition Attr_zero : Attr :=
  {| Key := ""; Value := ""; IsFrozen := false |}.

(** The error values the modelled code builds.  [errorString] is the
    result of [errors.New]; [ioError] stands for whatever error an
    [io.Writer] reports.  A composite literal that names only [Ref]
    leaves [Keys] at its zero value, the nil slice. *)
Inductive error :=
| NotFoundError (ID : ident.SessionID)
| StaleUpdateError (Ref : ident.Ref)
| FrozenAttributesError (Ref : ident.Ref) (Keys : list string)
| errorString (s : string)
| ioError (s : string).

#[global] Instance error_eq_dec : EqDecision error.
Proof. solve_decision. Defined.

(** [map[string]string], as the tests of MatchConstraint build it. *)
Abbreviation Constraint := (gmap string string).

End rinq.

(** ** Attributes with meta data (package attrmeta) *)

Module attrmeta.

(** An attribute with the revisions at which it was created and last
    updated; [rinq.Attr] is embedded. *)
Record Attr := { attr : rinq.Attr; CreatedAt : ident.Revision; UpdatedAt : ident.Revision }.

#[global] Instance Attr_eq_dec : EqDecision Attr.
Proof. solve_decision. Defined.

Definition Key (e : Attr) : string := rinq.Key (attr e).
Definition Value (e : Attr) : string := rinq.Value (attr e).
Definition IsFrozen (e : Attr) : bool := rinq.IsFrozen (attr e).

Definition Attr_zero : Attr :=
  {| attr := rinq.Attr_zero; CreatedAt := 0; UpdatedAt := 0 |}.

(** namespace.go: [type Namespace map[string]Attr]. *)
Abbreviation Namespace := (gmap string Attr).

(** table.go: [type Table map[string]Attr]. *)
Abbreviation Table := (gmap string Attr).

(** [v, ok := m[k]]: the zero value and false for a missing key. *)
Definition index (m : gmap string Attr) (k : string) : Attr * bool :=
  match m !! k with
  | Some e => (e, true)
  | None => (Attr_zero, false)
  end.

(** namespace.go, [Namespace.Clone]; table.go, [Table.Clone]: a fresh map
    with the same entries.  Maps are values here, so the copy is the map. *)
Definition Clone (m : gmap string Attr) : gmap string Attr :=
  map_fold (λ k v r, <[k := v]> r) ∅ m.

(** table.go, [Table.MatchConstraint].  The loop ranges over the
    constraint and returns false at the first pair that differs. *)
Fixpoint match_pairs (t : Table) (pairs : list (string * string)) : bool :=
  match pairs with
  | [] => true
  | (key, value) :: rest =>
      if decide ((index t key).1.(attr).(rinq.Value) ≠ value) then false
      else match_pairs t rest
  end.

Definition MatchConstraint (t : Table) (constraint : rinq.Constraint) : bool :=
  match_pairs t (map_to_list constraint).

(** Modelled from the spec: the table of the catalog, "mapping from
    namespace name to Namespace", its [CloneAndMerge] ("install the cloned
    namespace into the table") and the diff ("Append to diff", "only if
    the diff is non-empty") are declared outside src/. *)
Abbreviation NamespaceTable := (gmap string (gmap string Attr)).

(** [t[ns]] on a table of namespaces: the nil namespace when missing. *)
Definition namespace_of (t : NamespaceTable) (ns : string) : Namespace :=
  default ∅ (t !! ns).

Definition CloneAndMerge (t : NamespaceTable) (ns : string) (attrs : Namespace)
  : NamespaceTable :=
  <[ns := attrs]> t.

Record Diff := { DiffNamespace : string; DiffRevision : ident.Revision; Attrs : list Attr }.

Definition NewDiff (ns : string) (rev : ident.Revision) (capacity : nat) : Diff :=
  {| DiffNamespace := ns; DiffRevision := rev; Attrs := [] |}.

Definition Append (d : Diff) (e : Attr) : Diff :=
  {| DiffNamespace := DiffNamespace d; DiffRevision := DiffRevision d;
     Attrs := Attrs d ++ [e] |}.

Definition IsEmpty (d : Diff) : bool :=
  match Attrs d with [] => true | _ => false end.

(** The value a table holds for a key, "" for a missing key. *)
Definition value_at (t : Table) (k : string) : string := Value (index t k).1.

(** *** The text of a namespace (namespace.go)

    A [*bytes.Buffer] that is only written to is the text written so far. *)

Section render.

(** The method [Attr.WriteTo] is declared outside src/: it writes to the
    buffer a text for the attribute.  That text is a parameter. *)
Variable Attr_text : Attr → string.

(** The loop of [writeTo], with the buffer and the result [notEmpty]. *)
Fixpoint writeTo_entries (entries : list Attr) (buf : string) (notEmpty : bool)
  : string * bool :=
  match entries with
  | [] => (buf, notEmpty)
  | a :: rest =>
      if negb (IsFrozen a) && bool_decide (Value a = "") then
        writeTo_entries rest buf notEmpty
      else
        let '(buf1, notEmpty1) :=
          if notEmpty then (buf +:+ ", ", notEmpty) else (buf, true) in
        writeTo_entries rest (buf1 +:+ Attr_text a) notEmpty1
  end.

(** [for _, attr := range ns], in the order of [map_to_list]. *)
Definition writeTo (ns : Namespace) (buf : string) : string * bool :=
  writeTo_entries (map_to_list ns).*2 buf false.

Definition WriteTo (ns : Namespace) (buf : string) : string * bool :=
  let '(buf1, notEmpty) := writeTo ns (buf +:+ "{") in
  (buf1 +:+ "}", notEmpty).

Definition WriteWithNameTo (ns : Namespace) (buf : string) (name : string)
  : string * bool :=
  let '(buf1, notEmpty) := writeTo ns (((buf +:+ name) +:+ "::") +:+ "{") in
  (buf1 +:+ "}", notEmpty).

End render.

(** An attribute that [writeTo] does not skip: frozen, or with a value. *)
Definition shown (a : Attr) : Prop := IsFrozen a = true ∨ Value a ≠ "".

#[global] Instance shown_dec a : Decision (shown a).
Proof. unfold shown. apply _. Defined.

(** The attributes of a namespace that are shown, in the order of the range. *)
Definition shown_entries (ns : Namespace) : list Attr :=
  filter shown (map_to_list ns).*2.

(** The texts [l] joined by ", ", after a separator when something was
    written before them. *)
Definition joined_after (notEmpty : bool) (l : list string) : string :=
  match l with
  | [] => ""
  | _ => (if notEmpty then ", " else "") +:+ String.concat ", " l
  end.

End attrmeta.


(** ** The catalog of a local session (src/unnamed/part_002) *)

Module localsession.

(** The [revision] struct that the catalog hands out: the ref it is bound
    to and the table it was built with.  Its other two fields, the pointer
    back to the catalog and the logger, are always the catalog itself and
    its logger. *)
Record revision := { rev_ref : ident.Ref; rev_attrs : attrmeta.NamespaceTable }.

(** The [catalog] struct.  [done] is true once the done channel is closed;
    [seq] is a uint32.  The logger is only handed on to revisions. *)
Record catalog := {
  ref : ident.Ref;
  attrs : attrmeta.NamespaceTable;
  seq : N;
  done : bool
}.

(** [c.seq++] on a uint32. *)
Definition uint32_incr (n : N) : N := (n + 1) mod 2 ^ 32.

(** [NewCatalog]: ref at revision 0, nil table, zero seq, open channel. *)
Definition NewCatalog (id : ident.SessionID) : catalog :=
  {| ref := ident.At id 0; attrs := ∅; seq := 0; done := false |}.

Definition Ref (c : catalog) : ident.Ref := ref c.

(** [NextMessageID]: increments seq, then builds the ID from the current
    ref and the new seq. *)
Definition NextMessageID (c : catalog)
  : catalog * (ident.MessageID * attrmeta.NamespaceTable) :=
  let c' := {| ref := ref c; attrs := attrs c; seq := uint32_incr (seq c); done := done c |} in
  (c', (ident.Message (ref c') (seq c'), attrs c')).

Definition Head (c : catalog) : revision :=
  {| rev_ref := ref c; rev_attrs := attrs c |}.

(** [At]: refuses a revision number above the current one, otherwise
    builds a revision at [rev] around the current table. *)
Definition At (c : catalog) (rev : ident.Revision)
  : option revision * option rinq.error :=
  if decide (ident.Rev (ref c) < rev) then
    (None, Some (rinq.errorString "revision is from the future"))
  else
    (Some {| rev_ref := ident.At (ident.ID (ref c)) rev; rev_attrs := attrs c |}, None).

(** Modelled from the spec: the methods of the [revision] struct are not
    under src/.  "Get(ctx, ns, key) → Attribute | NotFound — returns the
    current value": a read through a revision returns the attribute that
    the table of the revision holds for the key in the namespace, and for a
    missing key the attribute with the empty value ("an absent key has
    implicit value").  The spec does not say when a local revision answers
    NotFound; that case is left out. *)
Definition Get (rv : revision) (ns key : string) : rinq.Attr :=
  match attrmeta.namespace_of (rev_attrs rv) ns !! key with
  | Some e => attrmeta.attr e
  | None => {| rinq.Key := key; rinq.Value := ""; rinq.IsFrozen := false |}
  end.

Definition Attrs (c : catalog) : ident.Ref * attrmeta.NamespaceTable :=
  (ref c, attrs c).

Definition AttrsIn (c : catalog) (ns : string) : ident.Ref * attrmeta.Namespace :=
  (ref c, attrmeta.namespace_of (attrs c) ns).

(** The body of the loop of [TryUpdate] over the proposed attributes.
    [inl] is the early return with an error. *)
Fixpoint update_attrs (r : ident.Ref) (nextRev : ident.Revision)
    (proposed : list rinq.Attr) (nextAttrs : attrmeta.Namespace) (diff : attrmeta.Diff)
  : rinq.error + (attrmeta.Namespace * attrmeta.Diff) :=
  match proposed with
  | [] => inr (nextAttrs, diff)
  | a :: rest =>
      let '(entry, exists_) := attrmeta.index nextAttrs (rinq.Key a) in
      if decide (rinq.Value a = attrmeta.Value entry ∧ rinq.IsFrozen a = attrmeta.IsFrozen entry)
      then update_attrs r nextRev rest nextAttrs diff
      else if attrmeta.IsFrozen entry
      then inl (rinq.FrozenAttributesError r [])
      else
        let entry' :=
          {| attrmeta.attr := a;
             attrmeta.CreatedAt := if exists_ then attrmeta.CreatedAt entry else nextRev;
             attrmeta.UpdatedAt := nextRev |} in
        update_attrs r nextRev rest (<[rinq.Key a := entry']> nextAttrs)
          (attrmeta.Append diff entry')
  end.

(** The three results of [TryUpdate] and [TryClear], nil as [None]. *)
Definition update_result : Type :=
  option revision * option attrmeta.Diff * option rinq.error.

(** The commit at the end of [TryUpdate] and of [TryClear]. *)
Definition commit (c : catalog) (ns : string) (nextRev : ident.Revision)
    (nextAttrs : attrmeta.Namespace) (diff : attrmeta.Diff) : catalog * update_result :=
  let r' := ident.with_Rev (ref c) nextRev in
  let attrs' :=
    if negb (attrmeta.IsEmpty diff) then attrmeta.CloneAndMerge (attrs c) ns nextAttrs
    else attrs c in
  ({| ref := r'; attrs := attrs'; seq := 0; done := done c |},
   (Some {| rev_ref := r'; rev_attrs := attrs' |}, Some diff, None)).

Section width.

(** The width of [ident.Revision] in bits: [ref.Rev + 1] is an addition
    of unsigned integers of that width and wraps. *)
Variable rev_bits : N.

Definition TryUpdate (c : catalog) (r : ident.Ref) (ns : string) (proposed : list rinq.Attr)
  : catalog * update_result :=
  if done c then (c, (None, None, Some (rinq.NotFoundError (ident.ID (ref c)))))
  else if decide (r ≠ ref c) then (c, (None, None, Some (rinq.StaleUpdateError r)))
  else
    let nextRev := (ident.Rev r + 1) mod 2 ^ rev_bits in
    let nextAttrs := attrmeta.Clone (attrmeta.namespace_of (attrs c) ns) in
    let diff := attrmeta.NewDiff ns nextRev (length proposed) in
    match update_attrs r nextRev proposed nextAttrs diff with
    | inl e => (c, (None, None, Some e))
    | inr (nextAttrs', diff') => commit c ns nextRev nextAttrs' diff'
    end.

(** The body of the loop of [TryClear] over the entries of the namespace. *)
Fixpoint clear_attrs (r : ident.Ref) (nextRev : ident.Revision)
    (entries : list attrmeta.Attr) (nextAttrs : attrmeta.Namespace) (diff : attrmeta.Diff)
  : rinq.error + (attrmeta.Namespace * attrmeta.Diff) :=
  match entries with
  | [] => inr (nextAttrs, diff)
  | entry :: rest =>
      if decide (attrmeta.Value entry ≠ "") then
        if attrmeta.IsFrozen entry then inl (rinq.FrozenAttributesError r [])
        else
          let entry' :=
            {| attrmeta.attr :=
                 {| rinq.Key := attrmeta.Key entry; rinq.Value := "";
                    rinq.IsFrozen := attrmeta.IsFrozen entry |};
               attrmeta.CreatedAt := attrmeta.CreatedAt entry;
               attrmeta.UpdatedAt := nextRev |} in
          clear_attrs r nextRev rest (<[attrmeta.Key entry' := entry']> nextAttrs)
            (attrmeta.Append diff entry')
      else clear_attrs r nextRev rest (<[attrmeta.Key entry := entry]> nextAttrs) diff
  end.

(** [for _, entry := range attrs]: Go leaves the order of a map range
    unspecified; the model ranges in the order of [map_to_list].  The
    result does not depend on the order, see [clear_attrs_Permutation]. *)
Definition range_values (m : attrmeta.Namespace) : list attrmeta.Attr :=
  (map_to_list m).*2.

Definition TryClear (c : catalog) (r : ident.Ref) (ns : string)
  : catalog * update_result :=
  if done c then (c, (None, None, Some (rinq.NotFoundError (ident.ID (ref c)))))
  else if decide (r ≠ ref c) then (c, (None, None, Some (rinq.StaleUpdateError r)))
  else
    let entries := attrmeta.namespace_of (attrs c) ns in
    let nextRev := (ident.Rev r + 1) mod 2 ^ rev_bits in
    let nextAttrs : attrmeta.Namespace := ∅ in
    let diff := attrmeta.NewDiff ns nextRev (size nextAttrs) in
    match clear_attrs r nextRev (range_values entries) nextAttrs diff with
    | inl e => (c, (None, None, Some e))
    | inr (nextAttrs', diff') => commit c ns nextRev nextAttrs' diff'
    end.

End width.

Definition TryDestroy (c : catalog) (r : ident.Ref) : catalog * option rinq.error :=
  if decide (r ≠ ref c) then (c, Some (rinq.StaleUpdateError r))
  else ({| ref := ref c; attrs := attrs c; seq := seq c; done := true |}, None).

Definition Close (c : catalog) : catalog :=
  {| ref := ref c; attrs := attrs c; seq := seq c; done := true |}.

(** *** Histories of calls on one catalog *)

Inductive call :=
| CallNextMessageID
| CallTryUpdate (r : ident.Ref) (ns : string) (proposed : list rinq.Attr)
| CallTryClear (r : ident.Ref) (ns : string)
| CallTryDestroy (r : ident.Ref)
| CallClose.

Inductive reply :=
| ReplyMessageID (id : ident.MessageID) (t : attrmeta.NamespaceTable)
| ReplyUpdate (res : update_result)
| ReplyDestroy (e : option rinq.error)
| ReplyClose.

Definition exec (rev_bits : N) (c : catalog) (k : call) : catalog * reply :=
  match k with
  | CallNextMessageID => let '(c', (id, t)) := NextMessageID c in (c', ReplyMessageID id t)
  | CallTryUpdate r ns proposed =>
      let '(c', res) := TryUpdate rev_bits c r ns proposed in (c', ReplyUpdate res)
  | CallTryClear r ns => let '(c', res) := TryClear rev_bits c r ns in (c', ReplyUpdate res)
  | CallTryDestroy r => let '(c', e) := TryDestroy c r in (c', ReplyDestroy e)
  | CallClose => (Close c, ReplyClose)
  end.

(** The catalog after a history of calls, and the replies it gave. *)
Fixpoint run (rev_bits : N) (c : catalog) (calls : list call) : catalog * list reply :=
  match calls with
  | [] => (c, [])
  | k :: rest =>
      let '(c1, rep) := exec rev_bits c k in
      let '(c2, reps) := run rev_bits c1 rest in
      (c2, rep :: reps)
  end.

(** An update or clear succeeded when it returned a nil error. *)
Definition succeeded (rep : reply) : bool :=
  match rep with
  | ReplyUpdate (_, _, None) => true
  | _ => false
  end.

(** The errors the spec names as failures of an update or clear. *)
Definition is_update_failure (e : rinq.error) : bool :=
  match e with
  | rinq.StaleUpdateError _ | rinq.NotFoundError _ | rinq.FrozenAttributesError _ _ => true
  | _ => false
  end.

(** The message IDs a history returned, in the order of the calls. *)
Definition message_ids (reps : list reply) : list ident.MessageID :=
  omap (λ rep, match rep with ReplyMessageID id _ => Some id | _ => None end) reps.

(** No call of [NextMessageID] in the history finds seq at the largest
    uint32. *)
Fixpoint seq_never_wraps (rev_bits : N) (c : catalog) (calls : list call) : bool :=
  match calls with
  | [] => true
  | k :: rest =>
      match k with
      | CallNextMessageID => bool_decide (seq c + 1 < 2 ^ 32)
      | _ => true
      end && seq_never_wraps rev_bits (exec rev_bits c k).1 rest
  end.

(** Lexicographic order on the (Rev, Seq) pair of a message ID. *)
Definition msg_lt (a b : ident.MessageID) : Prop :=
  ident.Rev (ident.MsgRef a) < ident.Rev (ident.MsgRef b)
  ∨ (ident.Rev (ident.MsgRef a) = ident.Rev (ident.MsgRef b)
     ∧ ident.MsgSeq a < ident.MsgSeq b).

(** What a read of key [k] in namespace [ns] sees: the (Value, IsFrozen)
    pair of the entry, the zero value for a missing one. *)
Definition observe (c : catalog) (ns k : string) : string * bool :=
  let e := (attrmeta.index (attrmeta.namespace_of (attrs c) ns) k).1 in
  (attrmeta.Value e, attrmeta.IsFrozen e).

(** A proposed attribute changes a frozen entry of the namespace. *)
Definition changes_frozen (m : attrmeta.Namespace) (a : rinq.Attr) : Prop :=
  ∃ e, m !! rinq.Key a = Some e ∧ attrmeta.IsFrozen e = true
       ∧ (rinq.Value a, rinq.IsFrozen a) ≠ (attrmeta.Value e, attrmeta.IsFrozen e).

(** A proposed attribute equals the entry it would overwrite. *)
Definition is_noop (m : attrmeta.Namespace) (a : rinq.Attr) : Prop :=
  let e := (attrmeta.index m (rinq.Key a)).1 in
  (rinq.Value a, rinq.IsFrozen a) = (attrmeta.Value e, attrmeta.IsFrozen e).

(** What one update or clear does to the ref and the seq counter; the
    revision number goes up by 1 in arithmetic of [rev_bits] bits. *)
Definition update_step_ok (rev_bits : N) (c : catalog)
    (out : catalog * update_result) : Prop :=
  match out with
  | (c', (_, _, None)) =>
      ident.Rev (ref c') = (ident.Rev (ref c) + 1) mod 2 ^ rev_bits
      ∧ ident.ID (ref c') = ident.ID (ref c)
      ∧ seq c' = 0
      ∧ done c' = done c
  | (c', (_, _, Some e)) =>
      is_update_failure e = true ∧ c' = c
  end.

(** The number of successful updates and clears among the replies. *)
Definition successes (reps : list reply) : N :=
  N.of_nat (length (filter (λ rep, succeeded rep = true) reps)).

(** The revision number does not pass the largest one during the history:
    the number at the start plus the number of successful updates and
    clears is a revision number. *)
Definition rev_never_wraps (rev_bits : N) (c : catalog) (calls : list call) : Prop :=
  ident.Rev (ref c) + successes (run rev_bits c calls).2 < 2 ^ rev_bits.

(** Every entry of a namespace sits under its own key, as the entries that
    [TryUpdate] writes do. *)
Definition keyed (m : attrmeta.Namespace) : Prop :=
  ∀ k e, m !! k = Some e → attrmeta.Key e = k.

Definition keyed_table (t : attrmeta.NamespaceTable) : Prop :=
  ∀ ns m, t !! ns = Some m → keyed m.

(** The frozen entries of [c] are entries of [c']. *)
Definition frozen_kept (c c' : catalog) : Prop :=
  ∀ ns k e,
    attrmeta.namespace_of (attrs c) ns !! k = Some e →
    attrmeta.IsFrozen e = true →
    attrmeta.namespace_of (attrs c') ns !! k = Some e.

(** The catalog after one call of [NextMessageID]. *)
Definition next_state (c : catalog) : catalog := (NextMessageID c).1.

(** The catalog after one call of [TryUpdate] that proposes nothing, made
    with the current ref. *)
Definition bump (rev_bits : N) (c : catalog) : catalog :=
  (TryUpdate rev_bits c (ref c) "" []).1.

(** The (Rev, Seq) pair of a message ID is above the (Rev, seq) of the
    catalog, and the order of two catalogs by that pair. *)
Definition after (c : catalog) (id : ident.MessageID) : Prop :=
  ident.Rev (ref c) < ident.Rev (ident.MsgRef id)
  ∨ (ident.Rev (ref c) = ident.Rev (ident.MsgRef id) ∧ seq c < ident.MsgSeq id).

Definition stamp_le (c c' : catalog) : Prop :=
  ident.Rev (ref c) < ident.Rev (ref c')
  ∨ (ident.Rev (ref c) = ident.Rev (ref c') ∧ seq c ≤ seq c').

(** The ref an update or clear call was made with. *)
Definition update_ref (k : call) : option ident.Ref :=
  match k with
  | CallTryUpdate r _ _ | CallTryClear r _ => Some r
  | _ => None
  end.

(** Every update or clear among the replies was refused with NotFound for
    the session [id]. *)
Definition all_not_found (id : ident.SessionID) (reps : list reply) : Prop :=
  Forall (λ rep, match rep with
                 | ReplyUpdate res => res = (None, None, Some (rinq.NotFoundError id))
                 | _ => True
                 end) reps.

(** An entry of the namespace is frozen with a value that is not empty. *)
Definition frozen_value (m : attrmeta.Namespace) : Prop :=
  ∃ k e, m !! k = Some e ∧ attrmeta.IsFrozen e = true ∧ attrmeta.Value e ≠ "".

(** The meta data of an entry is in order at revision [rev]: it was
    created at revision 1 or later, updated no earlier than created, and no
    later than [rev]. *)
Definition meta_ok (rev : ident.Revision) (e : attrmeta.Attr) : Prop :=
  1 ≤ attrmeta.CreatedAt e ∧ attrmeta.CreatedAt e ≤ attrmeta.UpdatedAt e
  ∧ attrmeta.UpdatedAt e ≤ rev.

Definition namespace_meta_ok (rev : ident.Revision) (m : attrmeta.Namespace) : Prop :=
  ∀ k e, m !! k = Some e → meta_ok rev e.

Definition table_meta_ok (c : catalog) : Prop :=
  ∀ ns, namespace_meta_ok (ident.Rev (ref c)) (attrmeta.namespace_of (attrs c) ns).

(** The entry [TryClear] stores for [entry] at revision [nextRev]. *)
Definition cleared (nextRev : ident.Revision) (entry : attrmeta.Attr) : attrmeta.Attr :=
  if decide (attrmeta.Value entry ≠ "") then
    {| attrmeta.attr :=
         {| rinq.Key := attrmeta.Key entry; rinq.Value := "";
            rinq.IsFrozen := attrmeta.IsFrozen entry |};
       attrmeta.CreatedAt := attrmeta.CreatedAt entry;
       attrmeta.UpdatedAt := nextRev |}
  else entry.

End localsession.

(** ** The earlier catalog (src/src/internals/localsession/catalog.go)

    The catalog before namespaces: one flat table, a closed flag instead
    of a done channel, and a diff written to an [io.Writer].  Its ref,
    attribute and error types have the shape of the ones above and are
    shared with them; [internals.AttrTableWithMetaData], declared outside
    src/, is the flat table of attributes with meta data. *)

Module overpass.

(** An [io.Writer]: what it has accepted so far, and which write it
    refuses with which error, given what it has accepted. *)
Record Writer := {
  written : list string;
  refuses : list string → string → option rinq.error
}.

(** [io.WriteString(w, s)]. *)
Definition WriteString (w : Writer) (s : string) : Writer * option rinq.error :=
  match refuses w (written w) s with
  | Some e => (w, Some e)
  | None => ({| written := written w ++ [s]; refuses := refuses w |}, None)
  end.

(** The local [write] of [writeDiff] panics at the first refused write and
    [deferutil.Recover] turns the panic into the returned error: the
    pieces are written in order up to the first failure. *)
Fixpoint write_pieces (w : Writer) (pieces : list string) : Writer * option rinq.error :=
  match pieces with
  | [] => (w, None)
  | s :: rest =>
      match WriteString w s with
      | (w', Some e) => (w', Some e)
      | (w', None) => write_pieces w' rest
      end
  end.

Definition writeDiff (w : Writer) (a : attrmeta.Attr) : Writer * option rinq.error :=
  write_pieces w
    (if decide (attrmeta.Value a = "") then
       [if attrmeta.IsFrozen a then "!" else "-"; attrmeta.Key a]
     else
       (if decide (attrmeta.CreatedAt a = attrmeta.UpdatedAt a) then ["+"] else [])
       ++ [attrmeta.Key a; if attrmeta.IsFrozen a then "@" else "="; attrmeta.Value a]).

(** A [*log.Logger] is the address of the logger, nil as [None]. *)
Abbreviation Logger := (option positive).

(** The [revision] struct without the pointer back to the catalog, which
    is always the catalog itself. *)
Record revision := {
  rev_ref : ident.Ref;
  rev_attrs : attrmeta.Table;
  rev_logger : Logger
}.

Record catalog := {
  ref : ident.Ref;
  attrs : attrmeta.Table;
  seq : N;
  isClosed : bool;
  logger : Logger
}.

Definition NewCatalog (id : ident.SessionID) (l : Logger) : catalog :=
  {| ref := ident.At id 0; attrs := ∅; seq := 0; isClosed := false; logger := l |}.

Definition NextMessageID (c : catalog) : catalog * ident.MessageID :=
  let c' := {| ref := ref c; attrs := attrs c;
               seq := localsession.uint32_incr (seq c); isClosed := isClosed c;
               logger := logger c |} in
  (c', {| ident.MsgRef := ref c'; ident.MsgSeq := seq c' |}).

Definition Head (c : catalog) : revision :=
  {| rev_ref := ref c; rev_attrs := attrs c; rev_logger := logger c |}.

Definition At (c : catalog) (rev : ident.Revision)
  : option revision * option rinq.error :=
  if decide (ident.Rev (ref c) < rev) then
    (None, Some (rinq.errorString "revision is from the future"))
  else
    (Some {| rev_ref := ident.At (ident.ID (ref c)) rev; rev_attrs := attrs c;
             rev_logger := logger c |}, None).

(** Modelled from the spec: the methods of the [revision] struct are not
    under src/.  A read through a revision "returns the current value":
    the attribute that the table of the revision holds for the key, and for
    a missing key the attribute with the empty value. *)
Definition Get (rv : revision) (key : string) : rinq.Attr :=
  match rev_attrs rv !! key with
  | Some e => attrmeta.attr e
  | None => {| rinq.Key := key; rinq.Value := ""; rinq.IsFrozen := false |}
  end.

(** The part of the loop body of [TryUpdate] under [if diff != nil]. *)
Definition write_entry (diff : option Writer) (i : nat) (entry : attrmeta.Attr)
  : option Writer * option rinq.error :=
  match diff with
  | None => (None, None)
  | Some w =>
      let '(w1, e1) := if decide (0 < i)%nat then WriteString w ", " else (w, None) in
      match e1 with
      | Some e => (Some w1, Some e)
      | None => let '(w2, e2) := writeDiff w1 entry in (Some w2, e2)
      end
  end.

(** The loop of [TryUpdate]: [i] is the index of the range, [frozen] the
    keys collected so far.  [inl] is the early return with a write error. *)
Fixpoint update_attrs (nextRev : ident.Revision) (i : nat) (proposed : list rinq.Attr)
    (nextAttrs : attrmeta.Table) (frozen : list string) (diff : option Writer)
  : (option Writer * rinq.error) + (attrmeta.Table * list string * option Writer) :=
  match proposed with
  | [] => inr (nextAttrs, frozen, diff)
  | a :: rest =>
      let '(entry, exists_) := attrmeta.index nextAttrs (rinq.Key a) in
      if decide (rinq.Value a = attrmeta.Value entry ∧ rinq.IsFrozen a = attrmeta.IsFrozen entry)
      then update_attrs nextRev (S i) rest nextAttrs frozen diff
      else if attrmeta.IsFrozen entry
      then update_attrs nextRev (S i) rest nextAttrs (frozen ++ [rinq.Key a]) diff
      else
        let entry' :=
          {| attrmeta.attr :=
               {| rinq.Key := if exists_ then attrmeta.Key entry else rinq.Key a;
                  rinq.Value := rinq.Value a;
                  rinq.IsFrozen := attrmeta.IsFrozen entry |};
             attrmeta.CreatedAt := if exists_ then attrmeta.CreatedAt entry else nextRev;
             attrmeta.UpdatedAt := nextRev |} in
        match write_entry diff i entry' with
        | (diff', Some e) => inl (diff', e)
        | (diff', None) =>
            update_attrs nextRev (S i) rest (<[rinq.Key a := entry']> nextAttrs) frozen diff'
        end
  end.

(** [TryUpdate]; [rev_bits] is the width of a revision number, at which
    [ref.Rev + 1] wraps.  The revision it returns is built without a
    logger. *)
Definition TryUpdate (rev_bits : N) (c : catalog) (r : ident.Ref) (proposed : list rinq.Attr)
    (diff : option Writer)
  : catalog * option Writer * (option revision * option rinq.error) :=
  if isClosed c then (c, diff, (None, Some (rinq.NotFoundError (ident.ID (ref c)))))
  else if decide (r ≠ ref c) then (c, diff, (None, Some (rinq.StaleUpdateError r)))
  else
    let nextAttrs := attrmeta.Clone (attrs c) in
    let nextRev := (ident.Rev r + 1) mod 2 ^ rev_bits in
    match update_attrs nextRev 0 proposed nextAttrs [] diff with
    | inl (diff', e) => (c, diff', (None, Some e))
    | inr (nextAttrs', frozen, diff') =>
        if decide (0 < length frozen)%nat then
          (c, diff', (None, Some (rinq.FrozenAttributesError r frozen)))
        else
          let r' := ident.with_Rev (ref c) nextRev in
          ({| ref := r'; attrs := nextAttrs'; seq := 0; isClosed := isClosed c;
              logger := logger c |},
           diff',
           (Some {| rev_ref := r'; rev_attrs := nextAttrs'; rev_logger := None |}, None))
    end.

Definition TryClose (c : catalog) (r : ident.Ref) : catalog * (bool * option rinq.error) :=
  if decide (r ≠ ref c) then (c, (false, Some (rinq.StaleUpdateError r)))
  else if isClosed c then (c, (false, None))
  else ({| ref := ref c; attrs := attrs c; seq := seq c; isClosed := true;
           logger := logger c |}, (true, None)).

Definition Close (c : catalog) : catalog :=
  {| ref := ref c; attrs := attrs c; seq := seq c; isClosed := true; logger := logger c |}.

(** A proposed attribute changes a frozen entry of the table. *)
Definition changes_frozen (t : attrmeta.Table) (a : rinq.Attr) : Prop :=
  ∃ e, t !! rinq.Key a = Some e ∧ attrmeta.IsFrozen e = true
       ∧ (rinq.Value a, rinq.IsFrozen a) ≠ (attrmeta.Value e, attrmeta.IsFrozen e).

#[global] Instance changes_frozen_dec t a : Decision (changes_frozen t a).
Proof.
  unfold changes_frozen.
  destruct (t !! rinq.Key a) as [e|] eqn:He.
  - destruct (decide (attrmeta.IsFrozen e = true
       ∧ (rinq.Value a, rinq.IsFrozen a) ≠ (attrmeta.Value e, attrmeta.IsFrozen e))) as [H|H].
    + left. exists e. tauto.
    + right. intros (e' & He' & H'). simplify_eq. tauto.
  - right. intros (e' & He' & _). discriminate.
Defined.

(** A writer that accepts every write, as a [bytes.Buffer] does. *)
Definition accepts_all (diff : option Writer) : Prop :=
  ∀ w, diff = Some w → ∀ h s, refuses w h s = None.

(** Two tables have the same frozen entries. *)
Definition same_frozen (t m : attrmeta.Table) : Prop :=
  ∀ k e, attrmeta.IsFrozen e = true → (t !! k = Some e ↔ m !! k = Some e).

(** The keys of the proposed attributes that change a frozen entry, in the
    order of the proposal. *)
Definition frozen_keys (t : attrmeta.Table) (proposed : list rinq.Attr) : list string :=
  rinq.Key <$> filter (changes_frozen t) proposed.

(** *** Histories of calls on one earlier catalog *)

Inductive call :=
| CallNextMessageID
| CallTryUpdate (r : ident.Ref) (proposed : list rinq.Attr) (diff : option Writer)
| CallTryClose (r : ident.Ref)
| CallClose.

Inductive reply :=
| ReplyMessageID (id : ident.MessageID)
| ReplyUpdate (diff : option Writer) (res : option revision * option rinq.error)
| ReplyTryClose (res : bool * option rinq.error)
| ReplyClose.

Definition exec (rev_bits : N) (c : catalog) (k : call) : catalog * reply :=
  match k with
  | CallNextMessageID => let '(c', id) := NextMessageID c in (c', ReplyMessageID id)
  | CallTryUpdate r proposed diff =>
      let '(c', diff', res) := TryUpdate rev_bits c r proposed diff in (c', ReplyUpdate diff' res)
  | CallTryClose r => let '(c', res) := TryClose c r in (c', ReplyTryClose res)
  | CallClose => (Close c, ReplyClose)
  end.

Fixpoint run (rev_bits : N) (c : catalog) (calls : list call) : catalog * list reply :=
  match calls with
  | [] => (c, [])
  | k :: rest =>
      let '(c1, rep) := exec rev_bits c k in
      let '(c2, reps) := run rev_bits c1 rest in
      (c2, rep :: reps)
  end.

(** The reply of a TryClose that reports that it closed the catalog. *)
Definition closed_by (rep : reply) : bool :=
  match rep with
  | ReplyTryClose (true, _) => true
  | _ => false
  end.

(** The reply of a TryUpdate that failed with FrozenAttributes. *)
Definition refused_frozen (rep : reply) : bool :=
  match rep with
  | ReplyUpdate _ (_, Some (rinq.FrozenAttributesError _ _)) => true
  | _ => false
  end.

End overpass.

(** ** The closed-session placeholder (src/src/rinq/internal/revision/closed.go) *)

Module revision.

(** [type closedRevision rinq.SessionRef]. *)
Definition closedRevision : Type := ident.Ref.

(** A non-nil value of the interface [rinq.Revision]: one of the two
    implementations under src/.  The nil interface is [None]. *)
Inductive Revision :=
| closed (r : closedRevision)
| local (r : localsession.revision).

Definition Closed (r : ident.Ref) : Revision := closed r.

(** The methods of [closedRevision].  Their context arguments are unnamed
    and unused. *)
Definition Ref (r : closedRevision) : ident.Ref := r.

Definition Refresh (r : closedRevision) : option Revision * option rinq.error :=
  (None, Some (rinq.NotFoundError (ident.ID r))).

Definition Get (r : closedRevision) (key : string) : rinq.Attr * option rinq.error :=
  (rinq.Attr_zero, Some (rinq.NotFoundError (ident.ID r))).

Definition GetMany (r : closedRevision) (keys : list string)
  : option (gmap string rinq.Attr) * option rinq.error :=
  (None, Some (rinq.NotFoundError (ident.ID r))).

Definition Update (r : closedRevision) (proposed : list rinq.Attr)
  : option Revision * option rinq.error :=
  (Some (closed r), Some (rinq.NotFoundError (ident.ID r))).

Definition Close (r : closedRevision) : option rinq.error := None.

End revision.

(** ** The aggregate revision store (src/unnamed/part_000) *)

Module revisions.

(** The interface [Store]: what [GetRevision] returns for a ref. *)
Definition Store : Type := ident.Ref → option revision.Revision * option rinq.error.

(** [AggregateStore]; a nil store is [None]. *)
Record AggregateStore := {
  PeerID : ident.PeerID;
  Local : option Store;
  Remote : option Store
}.

Definition NewAggregateStore (peerID : ident.PeerID) (l r : option Store) : AggregateStore :=
  {| PeerID := peerID; Local := l; Remote := r |}.

Section placeholder.

(** Modelled from the spec: the [Closed] this package calls with a session
    ID is declared outside src/; it is "a closed placeholder", the
    revision of closed.go, for that session.  The revision number of the
    placeholder's ref is left open. *)
Variable placeholder_rev : ident.Revision.

Definition Closed (id : ident.SessionID) : revision.Revision :=
  revision.Closed (ident.At id placeholder_rev).

Definition GetRevision (s : AggregateStore) (r : ident.Ref)
  : option revision.Revision * option rinq.error :=
  if decide (ident.Peer (ident.ID r) = PeerID s) then
    match Local s with
    | Some l => l r
    | None => (Some (Closed (ident.ID r)), None)
    end
  else
    match Remote s with
    | Some rm => rm r
    | None => (Some (Closed (ident.ID r)), None)
    end.

End placeholder.

(** A local store that answers from one catalog through [Catalog.At]. *)
Definition catalog_store (c : localsession.catalog) : Store :=
  λ r, let '(rv, e) := localsession.At c (ident.Rev r) in (revision.local <$> rv, e).

(** The store that answers for a ref: the local one for a ref of this
    peer, the remote one for any other. *)
Definition selected (s : AggregateStore) (r : ident.Ref) : option Store :=
  if decide (ident.Peer (ident.ID r) = PeerID s) then Local s else Remote s.

End revisions.

(** ** The response to a command request
       (src/src/rinqamqp/internal/commandamqp/response.go) *)

Module commandamqp.

(** The reply modes the file names, and any other one. *)
Inductive replyMode := replyNone | replyUncorrelated | replyOther.

#[global] Instance replyMode_eq_dec : EqDecision replyMode.
Proof. solve_decision. Defined.

(** The error handed to [Error]: a [rinq.Failure] or any other error. *)
Inductive reply_error :=
| Failure (type message : string)
| otherError (s : string).

(** The message handed to [respond]: what [packSuccessResponse] or
    [packErrorResponse] packed into it.  A payload is its bytes. *)
Inductive Publishing :=
| successResponse (payload : option string)
| errorResponse (e : reply_error).

(** What the collaborators of one call of [respond] answer: the error of
    [amqputil.PackDeadline], of [channels.Get], of
    [amqputil.PackSpanContext] and of [channel.Publish], nil as [None]. *)
Record env := {
  PackDeadline_err : option string;
  Get_err : option string;
  PackSpanContext_err : option string;
  Publish_err : option string
}.

(** The [response] struct, with the messages the broker accepted for it in
    place of the channel pool.  The context and the request are only read,
    by the collaborators whose answers are in [env]. *)
Record response := {
  replyMode_ : replyMode;
  isClosed : bool;
  published : list Publishing
}.

(** How a call ends: it returns, or it panics with a value. *)
Inductive outcome (A : Type) :=
| Returned (a : A)
| Panicked (v : string).
Arguments Returned {A} a.
Arguments Panicked {A} v.

Definition newResponse (m : replyMode) : response :=
  {| replyMode_ := m; isClosed := false; published := [] |}.

Definition IsClosed (r : response) : bool := isClosed r.

(** [respond]: marks the response closed before anything else. *)
Definition respond (r : response) (e : env) (msg : Publishing) : response * outcome unit :=
  let r1 := {| replyMode_ := replyMode_ r; isClosed := true; published := published r |} in
  if decide (replyMode_ r1 = replyNone) then (r1, Returned ())
  else match PackDeadline_err e with
  | Some _ => (r1, Returned ())
  | None =>
    match Get_err e with
    | Some err => (r1, Panicked err)
    | None =>
      match (if decide (replyMode_ r1 = replyUncorrelated) then PackSpanContext_err e else None) with
      | Some err => (r1, Panicked err)
      | None =>
        match Publish_err e with
        | Some err => (r1, Panicked err)
        | None =>
            ({| replyMode_ := replyMode_ r1; isClosed := true;
                published := published r1 ++ [msg] |}, Returned ())
        end
      end
    end
  end.

Definition Done (r : response) (e : env) (payload : option string) : response * outcome unit :=
  if isClosed r then (r, Panicked "responder is already closed")
  else respond r e (successResponse payload).

Definition Error (r : response) (e : env) (err : reply_error) : response * outcome unit :=
  if isClosed r then (r, Panicked "responder is already closed")
  else respond r e (errorResponse err).

(** [Fail]: [message] is the result of [fmt.Sprintf(f, v...)]. *)
Definition Fail (r : response) (e : env) (t message : string)
  : response * outcome reply_error :=
  let err := Failure t message in
  match Error r e err with
  | (r', Returned _) => (r', Returned err)
  | (r', Panicked v) => (r', Panicked v)
  end.

Definition Close (r : response) (e : env) : response * outcome bool :=
  if isClosed r then (r, Returned false)
  else match respond r e (successResponse None) with
  | (r', Returned _) => (r', Returned true)
  | (r', Panicked v) => (r', Panicked v)
  end.

Definition finalize (r : response) : response * bool :=
  if isClosed r then (r, true)
  else ({| replyMode_ := replyMode_ r; isClosed := true; published := published r |}, false).

(** One of the four calls that complete a response. *)
Inductive completion :=
| CallDone (payload : option string)
| CallError (err : reply_error)
| CallFail (t message : string)
| CallClose.

(** The state after a completion call and whether the call panicked. *)
Definition complete (r : response) (e : env) (k : completion) : response * bool :=
  match k with
  | CallDone p => match Done r e p with (r', Panicked _) => (r', true) | (r', _) => (r', false) end
  | CallError err => match Error r e err with (r', Panicked _) => (r', true) | (r', _) => (r', false) end
  | CallFail t m => match Fail r e t m with (r', Panicked _) => (r', true) | (r', _) => (r', false) end
  | CallClose => match Close r e with (r', Panicked _) => (r', true) | (r', _) => (r', false) end
  end.

(** A history of completion calls, each with the answers of its
    collaborators; a caller that recovers from a panic goes on. *)
Fixpoint complete_all (r : response) (calls : list (env * completion)) : response :=
  match calls with
  | [] => r
  | (e, k) :: rest => complete_all (complete r e k).1 rest
  end.

(** [IsRequired]; [ctx_done] tells whether the context of the response is
    done at the time of the call. *)
Definition IsRequired (r : response) (ctx_done : bool) : bool :=
  if isClosed r then false
  else if decide (replyMode_ r = replyNone) then false
  else if ctx_done then false else true.

(** The message a completion call hands to [respond]. *)
Definition message_of (k : completion) : Publishing :=
  match k with
  | CallDone p => successResponse p
  | CallError err => errorResponse err
  | CallFail t m => errorResponse (Failure t m)
  | CallClose => successResponse None
  end.

End commandamqp.

(** ** Payloads (src/unnamed/part_003, package rinq) *)

Module payload.

(** A [*bytes.Buffer] is the bytes it holds. *)
Abbreviation Buffer := (list Byte.byte).

(** The value handed to [NewPayload]: the nil interface, a nil pointer of
    some type, or a value that encodes. *)
Inductive value := nilValue | nilPointer | someValue (v : string).

(** [payloadData] without its two mutexes; [refCount] is a [uint]. *)
Record payloadData := {
  buffer : option Buffer;
  value_ : value;
  hasValue : bool;
  refCount : N
}.

(** The memory the payload code works on: the [Payload] structs (each is
    its [data] pointer, nil as [None]), the [payloadData] structs they
    share, and the buffers that [bufferpool.Put] received.  A [*Payload]
    is an address of the first map, nil as [None]. *)
Record memory := {
  payloads : gmap positive (option positive);
  datas : gmap positive payloadData;
  pool : list Buffer
}.

Definition empty_memory : memory := {| payloads := ∅; datas := ∅; pool := [] |}.

(** [p.data] for a non-nil [p]. *)
Definition data_of (m : memory) (l : positive) : option positive :=
  mjoin (payloads m !! l).

(** [&Payload{d}] and [&payloadData{...}]: a new struct at an unused address. *)
Definition new_payload (m : memory) (d : positive) : memory * positive :=
  let l := fresh (dom (payloads m)) in
  ({| payloads := <[l := Some d]> (payloads m); datas := datas m; pool := pool m |}, l).

Definition new_data (m : memory) (pd : payloadData) : memory * positive :=
  let d := fresh (dom (datas m)) in
  ({| payloads := payloads m; datas := <[d := pd]> (datas m); pool := pool m |}, d).

Definition NewPayload (m : memory) (v : value) : memory * option positive :=
  match v with
  | nilValue | nilPointer => (m, None)
  | someValue _ =>
      let '(m1, d) := new_data m {| buffer := None; value_ := v; hasValue := true; refCount := 1 |} in
      let '(m2, l) := new_payload m1 d in
      (m2, Some l)
  end.

Definition NewPayloadFromBytes (m : memory) (buf : Buffer) : memory * option positive :=
  match buf with
  | [] => (m, None)
  | _ =>
      let '(m1, d) := new_data m {| buffer := Some buf; value_ := nilValue; hasValue := false; refCount := 1 |} in
      let '(m2, l) := new_payload m1 d in
      (m2, Some l)
  end.

Section uint.

(** The width of [uint]: 32 or 64 bits, by platform. *)
Variable uint_bits : N.

(** [refCount++] and [refCount--] on a [uint]. *)
Definition uint_incr (n : N) : N := (n + 1) mod 2 ^ uint_bits.
Definition uint_decr (n : N) : N := (n + 2 ^ uint_bits - 1) mod 2 ^ uint_bits.

Definition incr_refCount (pd : payloadData) : payloadData :=
  {| buffer := buffer pd; value_ := value_ pd; hasValue := hasValue pd;
     refCount := uint_incr (refCount pd) |}.

Definition decr_refCount (pd : payloadData) : payloadData :=
  {| buffer := buffer pd; value_ := value_ pd; hasValue := hasValue pd;
     refCount := uint_decr (refCount pd) |}.

(** [Clone]. *)
Definition Clone (m : memory) (p : option positive) : memory * option positive :=
  match p with
  | None => (m, None)
  | Some l =>
      match data_of m l with
      | None => (m, None)
      | Some d =>
          let m1 := {| payloads := payloads m;
                       datas := alter incr_refCount d (datas m);
                       pool := pool m |} in
          let '(m2, l') := new_payload m1 d in
          (m2, Some l')
      end
  end.

(** [Close]. *)
Definition Close (m : memory) (p : option positive) : memory :=
  match p with
  | None => m
  | Some l =>
      match data_of m l with
      | None => m
      | Some d =>
          let datas' := alter decr_refCount d (datas m) in
          let pool' :=
            match datas' !! d with
            | Some pd =>
                match buffer pd with
                | Some b => if decide (refCount pd = 0) then b :: pool m else pool m
                | None => pool m
                end
            | None => pool m
            end in
          {| payloads := <[l := None]> (payloads m); datas := datas'; pool := pool' |}
      end
  end.

End uint.

(** The reference count of the data at [d]. *)
Definition refCount_at (m : memory) (d : positive) : option N :=
  refCount <$> datas m !! d.

(** The memory after a [Clone] of the payload at [l]. *)
Definition clone_state (uint_bits : N) (l : positive) (m : memory) : memory :=
  (Clone uint_bits m (Some l)).1.

(** [pd] with another reference count. *)
Definition with_refCount (pd : payloadData) (n : N) : payloadData :=
  {| buffer := buffer pd; value_ := value_ pd; hasValue := hasValue pd; refCount := n |}.

(** *** Reading a payload *)

Section codec.

(** [cbor.MustEncode] and [cbor.MustDecodeBytes] are declared outside
    src/: what they produce is a parameter, [None] where they panic. *)
Variable MustEncode : value → option Buffer.
Variable MustDecodeBytes : Buffer → option value.

Definition with_buffer (pd : payloadData) (b : Buffer) : payloadData :=
  {| buffer := Some b; value_ := value_ pd; hasValue := hasValue pd;
     refCount := refCount pd |}.

Definition with_value (pd : payloadData) (v : value) : payloadData :=
  {| buffer := buffer pd; value_ := v; hasValue := true; refCount := refCount pd |}.

(** [Bytes]; the nil slice is the empty list.  In Go a data pointer that
    is not nil points to a struct; the case without one only makes the
    function total. *)
Definition Bytes (m : memory) (p : option positive)
  : memory * commandamqp.outcome Buffer :=
  match p with
  | None => (m, commandamqp.Returned [])
  | Some l =>
      match data_of m l with
      | None => (m, commandamqp.Returned [])
      | Some d =>
          match datas m !! d with
          | None => (m, commandamqp.Returned [])
          | Some pd =>
              match buffer pd with
              | Some b => (m, commandamqp.Returned b)
              | None =>
                  match MustEncode (value_ pd) with
                  | None => (m, commandamqp.Panicked "cbor: encode")
                  | Some b =>
                      ({| payloads := payloads m;
                          datas := <[d := with_buffer pd b]> (datas m);
                          pool := pool m |}, commandamqp.Returned b)
                  end
              end
          end
      end
  end.

(** [Len]. *)
Definition Len (m : memory) (p : option positive) : memory * commandamqp.outcome nat :=
  match Bytes m p with
  | (m', commandamqp.Returned b) => (m', commandamqp.Returned (length b))
  | (m', commandamqp.Panicked v) => (m', commandamqp.Panicked v)
  end.

(** [Value]; the nil interface is [nilValue]. *)
Definition Value (m : memory) (p : option positive)
  : memory * commandamqp.outcome value :=
  match p with
  | None => (m, commandamqp.Returned nilValue)
  | Some l =>
      match data_of m l with
      | None => (m, commandamqp.Returned nilValue)
      | Some d =>
          match datas m !! d with
          | None => (m, commandamqp.Returned nilValue)
          | Some pd =>
              if hasValue pd then (m, commandamqp.Returned (value_ pd))
              else
                match buffer pd with
                | None => (m, commandamqp.Panicked "nil pointer dereference")
                | Some b =>
                    match MustDecodeBytes b with
                    | None => (m, commandamqp.Panicked "cbor: decode")
                    | Some v =>
                        ({| payloads := payloads m;
                            datas := <[d := with_value pd v]> (datas m);
                            pool := pool m |}, commandamqp.Returned v)
                    end
                end
          end
      end
  end.

End codec.

(** *** Histories of calls on payloads *)

Inductive call :=
| CallNewPayload (v : value)
| CallNewPayloadFromBytes (buf : Buffer)
| CallClone (p : option positive)
| CallClose (p : option positive).

Definition exec (uint_bits : N) (m : memory) (k : call) : memory * option positive :=
  match k with
  | CallNewPayload v => NewPayload m v
  | CallNewPayloadFromBytes buf => NewPayloadFromBytes m buf
  | CallClone p => Clone uint_bits m p
  | CallClose p => (Close uint_bits m p, None)
  end.

Fixpoint run (uint_bits : N) (m : memory) (calls : list call) : memory :=
  match calls with
  | [] => m
  | k :: rest => run uint_bits (exec uint_bits m k).1 rest
  end.

(** The number of payloads that are not closed and point to the data [d]. *)
Definition live_count (ps : gmap positive (option positive)) (d : positive) : nat :=
  size (filter (λ kv, kv.2 = Some d) ps).

(** Every reference count is the number of live payloads of its data, no
    more than [n] payloads were ever made, and every live payload points
    to data that is there. *)
Definition counted (n : nat) (m : memory) : Prop :=
  (∀ d pd, datas m !! d = Some pd → refCount pd = N.of_nat (live_count (payloads m) d))
  ∧ (size (payloads m) ≤ n)%nat
  ∧ (∀ l d, payloads m !! l = Some (Some d) → is_Some (datas m !! d)).

End payload.

(** Modelled from the spec and the comments of trace.go: an
    [amqp.Publishing] and an [amqp.Delivery] carry a message ID and a
    correlation ID; [trace.With(parent, id)] is a context whose trace ID is
    [id], and only that ID is kept here. *)
Module amqputil.

Record Message := { MessageId : string; CorrelationId : string }.

(** trace.go, [PackTrace]. *)
Definition PackTrace (msg : Message) (traceID : string) : Message :=
  if decide (traceID ≠ MessageId msg) then
    {| MessageId := MessageId msg; CorrelationId := traceID |}
  else msg.

(** trace.go, [UnpackTrace]: the trace ID of the context it returns. *)
Definition UnpackTrace (msg : Message) : string :=
  if decide (CorrelationId msg ≠ "") then CorrelationId msg else MessageId msg.

End amqputil.

(** ** Example states *)

(** The session of scenario 1 of the spec, [1-0BAD.7]. *)
Definition example_session : ident.SessionID :=
  {| ident.Peer := {| ident.Clock := 1; ident.Rand := 2989 |}; ident.Seq := 7 |}.

(** The catalog of [example_session] after a = 1 was set in namespace "ns". *)
Definition example_catalog : localsession.catalog :=
  (localsession.TryUpdate 32 (localsession.NewCatalog example_session)
     (ident.At example_session 0) "ns" [rinq.Set_ "a" "1"]).1.

(** The catalog of [example_session] after x was frozen at "v" in "ns". *)
Definition frozen_catalog : localsession.catalog :=
  (localsession.TryUpdate 32 (localsession.NewCatalog example_session)
     (ident.At example_session 0) "ns" [rinq.Freeze "x" "v"]).1.

(** A catalog of [example_session] whose seq is two below the largest
    uint32: the state after 2^32 - 2 calls of [NextMessageID]. *)
Definition wrapping_catalog : localsession.catalog :=
  {| localsession.ref := ident.At example_session 0;
     localsession.attrs := ∅;
     localsession.seq := 4294967294;
     localsession.done := false |}.
(** An aggregate store of the example peer whose local store is a new
    catalog of [example_session] and which has no remote store. *)
Definition example_store : revisions.AggregateStore :=
  revisions.NewAggregateStore (ident.Peer example_session)
    (Some (revisions.catalog_store (localsession.NewCatalog example_session))) None.
(** The memory after [NewPayloadFromBytes] of one byte in an empty
    memory: the payload at address 1 points to the data at address 1, whose
    count is 1. *)
Definition one_payload : payload.memory :=
  (payload.NewPayloadFromBytes payload.empty_memory [Byte.x2a]).1.

(** * Properties *)

(** ** Maps and loops of the catalog *)

Lemma Clone_id (m : gmap string attrmeta.Attr) : attrmeta.Clone m = m.
Proof.
  unfold attrmeta.Clone.
  induction m as [|k v m Hk Hfold IH] using map_first_key_ind.
  - by rewrite map_fold_empty.
  - rewrite map_fold_insert_first_key by done. by rewrite IH.
Qed.

Lemma index_Some (m : gmap string attrmeta.Attr) k e :
  m !! k = Some e → attrmeta.index m k = (e, true).
Proof. unfold attrmeta.index. by intros ->. Qed.

Lemma index_None (m : gmap string attrmeta.Attr) k :
  m !! k = None → attrmeta.index m k = (attrmeta.Attr_zero, false).
Proof. unfold attrmeta.index. by intros ->. Qed.

(** The only error the loop of [TryUpdate] returns is the frozen one, with
    the ref of the call and no keys. *)
Lemma update_attrs_inl r nextRev proposed m d e :
  localsession.update_attrs r nextRev proposed m d = inl e →
  e = rinq.FrozenAttributesError r [].
Proof.
  revert m d. induction proposed as [|a rest IH]; intros m d; simpl; [done|].
  destruct (attrmeta.index m (rinq.Key a)) as [entry ex].
  case_decide; [by apply IH|].
  destruct (attrmeta.IsFrozen entry); [by intros [= <-]|by apply IH].
Qed.

Lemma clear_attrs_inl r nextRev entries m d e :
  localsession.clear_attrs r nextRev entries m d = inl e →
  e = rinq.FrozenAttributesError r [].
Proof.
  revert m d. induction entries as [|a rest IH]; intros m d; simpl; [done|].
  case_decide; [|by apply IH].
  destruct (attrmeta.IsFrozen a); [by intros [= <-]|by apply IH].
Qed.

(** A loop over no-ops changes neither the namespace nor the diff. *)
Lemma update_attrs_noop r nextRev proposed m d :
  Forall (localsession.is_noop m) proposed →
  localsession.update_attrs r nextRev proposed m d = inr (m, d).
Proof.
  induction 1 as [|a rest Ha _ IH]; simpl; [done|].
  unfold localsession.is_noop in Ha.
  destruct (attrmeta.index m (rinq.Key a)) as [entry ex]; simpl in Ha.
  rewrite decide_True; [done|]. by inversion Ha.
Qed.

(** *** One call *)

Lemma commit_spec c ns nextRev m d :
  ∃ t rv,
    localsession.commit c ns nextRev m d
    = ({| localsession.ref := ident.with_Rev (localsession.ref c) nextRev;
          localsession.attrs := t; localsession.seq := 0;
          localsession.done := localsession.done c |},
       (Some rv, Some d, None)).
Proof. unfold localsession.commit. eauto. Qed.

Lemma TryUpdate_step bits c r ns proposed :
  localsession.update_step_ok bits c (localsession.TryUpdate bits c r ns proposed).
Proof.
  unfold localsession.TryUpdate.
  destruct (localsession.done c); [done|].
  case_decide as Hr; [done|].
  subst r.
  destruct (localsession.update_attrs _ _ _ _ _) as [e|[m d]] eqn:Hloop.
  - apply update_attrs_inl in Hloop as ->. done.
  - destruct (commit_spec c ns ((ident.Rev (localsession.ref c) + 1) mod 2 ^ bits) m d)
      as (t & rv & ->).
    done.
Qed.

Lemma TryClear_step bits c r ns :
  localsession.update_step_ok bits c (localsession.TryClear bits c r ns).
Proof.
  unfold localsession.TryClear.
  destruct (localsession.done c); [done|].
  case_decide as Hr; [done|].
  subst r.
  destruct (localsession.clear_attrs _ _ _ _ _) as [e|[m d]] eqn:Hloop.
  - apply clear_attrs_inl in Hloop as ->. done.
  - destruct (commit_spec c ns ((ident.Rev (localsession.ref c) + 1) mod 2 ^ bits) m d)
      as (t & rv & ->).
    done.
Qed.

(** What one call of any kind does to the ref. *)
Lemma exec_rev bits c k :
  ident.Rev (localsession.ref (localsession.exec bits c k).1)
  = (if localsession.succeeded (localsession.exec bits c k).2
     then (ident.Rev (localsession.ref c) + 1) mod 2 ^ bits
     else ident.Rev (localsession.ref c))
  ∧ ident.ID (localsession.ref (localsession.exec bits c k).1) = ident.ID (localsession.ref c).
Proof.
  destruct k as [|r ns proposed|r ns|r|]; simpl.
  - done.
  - pose proof (TryUpdate_step bits c r ns proposed) as H.
    destruct (localsession.TryUpdate bits c r ns proposed) as [c' [[rv d] [e|]]]; simpl in *.
    + by destruct H as [_ ->].
    + by destruct H as (-> & -> & _).
  - pose proof (TryClear_step bits c r ns) as H.
    destruct (localsession.TryClear bits c r ns) as [c' [[rv d] [e|]]]; simpl in *.
    + by destruct H as [_ ->].
    + by destruct H as (-> & -> & _).
  - unfold localsession.TryDestroy. by case_decide.
  - done.
Qed.

Lemma run_cons bits c k rest :
  localsession.run bits c (k :: rest)
  = ((localsession.run bits (localsession.exec bits c k).1 rest).1,
     (localsession.exec bits c k).2 :: (localsession.run bits (localsession.exec bits c k).1 rest).2).
Proof.
  simpl. destruct (localsession.exec bits c k) as [c1 rep]; simpl.
  by destruct (localsession.run bits c1 rest).
Qed.

Lemma successes_cons rep reps :
  localsession.successes (rep :: reps)
  = (if localsession.succeeded rep then 1 else 0) + localsession.successes reps.
Proof.
  unfold localsession.successes. rewrite filter_cons.
  destruct (localsession.succeeded rep).
  - rewrite decide_True by done. simpl length. lia.
  - rewrite decide_False by done. lia.
Qed.

(** The revision number after a history is the number it started with
    plus the number of successes, in arithmetic of [bits] bits. *)
Lemma run_rev bits c calls :
  ident.Rev (localsession.ref c) < 2 ^ bits →
  ident.Rev (localsession.ref (localsession.run bits c calls).1)
  = (ident.Rev (localsession.ref c) + localsession.successes (localsession.run bits c calls).2)
    mod 2 ^ bits
  ∧ ident.ID (localsession.ref (localsession.run bits c calls).1) = ident.ID (localsession.ref c).
Proof.
  revert c. induction calls as [|k rest IH]; intros c Hc.
  - simpl. unfold localsession.successes. simpl. rewrite N.add_0_r.
    by rewrite N.mod_small.
  - rewrite run_cons. cbn [fst snd]. rewrite successes_cons.
    destruct (exec_rev bits c k) as [Hrev Hid].
    assert (Hc1 : ident.Rev (localsession.ref (localsession.exec bits c k).1) < 2 ^ bits).
    { rewrite Hrev. destruct (localsession.succeeded _); [|done].
      apply N.mod_lt. by apply N.pow_nonzero. }
    destruct (IH _ Hc1) as [-> ->]. split; [|done].
    rewrite Hrev. destruct (localsession.succeeded (localsession.exec bits c k).2).
    + rewrite N.Div0.add_mod_idemp_l. f_equal. lia.
    + f_equal.
Qed.

(** Without a wrap the revision number is the plain sum. *)
Lemma run_rev_small bits c calls :
  ident.Rev (localsession.ref c) + localsession.successes (localsession.run bits c calls).2
    < 2 ^ bits →
  ident.Rev (localsession.ref (localsession.run bits c calls).1)
  = ident.Rev (localsession.ref c) + localsession.successes (localsession.run bits c calls).2.
Proof.
  intros Hsmall. rewrite (proj1 (run_rev bits c calls ltac:(lia))).
  by apply N.mod_small.
Qed.

(** After [n] updates that propose nothing, each made with the current
    ref, a new catalog is at revision [n], as long as [n] is a revision
    number. *)
Lemma iter_bump bits id n :
  n < 2 ^ bits →
  N.iter n (localsession.bump bits) (localsession.NewCatalog id)
  = {| localsession.ref := ident.At id n; localsession.attrs := ∅;
       localsession.seq := 0; localsession.done := false |}.
Proof.
  induction n as [|n IH] using N.peano_ind; intros Hn; [done|].
  rewrite N.iter_succ, IH by lia.
  unfold localsession.bump, localsession.TryUpdate. simpl.
  rewrite decide_False by (by intros ?). simpl.
  unfold localsession.commit, ident.with_Rev, ident.At. simpl.
  rewrite N.mod_small by lia. by rewrite N.add_1_r.
Qed.

(** ** Revisions count the successful updates *)

(** C1, as the code has it.  Every call of TryUpdate or TryClear that
    succeeds raises the Rev of the catalog's ref by 1 in the arithmetic of
    the revision type (by exactly 1 below the largest revision number, to 0
    at it) and sets seq to 0; every call that fails does so with
    StaleUpdate, NotFound or FrozenAttributes and leaves the catalog (ref,
    table, seq) as it was.  Hence after any history of calls on a catalog
    the Rev is the initial Rev plus the number of successful updates and
    clears modulo 2^bits, and is that sum itself as long as the sum is a
    revision number. *)
Theorem rev_counts_successful_updates (bits : N) :
  (∀ c r ns proposed,
     localsession.update_step_ok bits c (localsession.TryUpdate bits c r ns proposed))
  ∧ (∀ c r ns, localsession.update_step_ok bits c (localsession.TryClear bits c r ns))
  ∧ (∀ rev : ident.Revision, rev + 1 < 2 ^ bits → (rev + 1) mod 2 ^ bits = rev + 1)
  ∧ (∀ c calls,
       ident.Rev (localsession.ref c) < 2 ^ bits →
       ident.Rev (localsession.ref (localsession.run bits c calls).1)
       = (ident.Rev (localsession.ref c)
          + localsession.successes (localsession.run bits c calls).2) mod 2 ^ bits)
  ∧ (∀ c calls,
       ident.Rev (localsession.ref c)
         + localsession.successes (localsession.run bits c calls).2 < 2 ^ bits →
       ident.Rev (localsession.ref (localsession.run bits c calls).1)
       = ident.Rev (localsession.ref c)
         + localsession.successes (localsession.run bits c calls).2).
Proof.
  split; [exact (TryUpdate_step bits)|].
  split; [exact (TryClear_step bits)|].
  split; [intros rev Hrev; by apply N.mod_small|].
  split.
  - intros c calls Hc. by apply run_rev.
  - intros c calls. apply run_rev_small.
Qed.

Lemma rev_counts_successful_updates_witness :
  let r := ident.At example_session in
  let calls :=
    [localsession.CallTryUpdate (r 0) "ns" [rinq.Set_ "a" "1"];
     localsession.CallTryUpdate (r 0) "ns" [rinq.Set_ "a" "2"];
     localsession.CallTryClear (r 1) "ns"] in
  ident.Rev (localsession.ref
    (localsession.run 32 (localsession.NewCatalog example_session) calls).1) = 2.
Proof.
  intros r calls.
  refine (proj2 (proj2 (proj2 (proj2 (rev_counts_successful_updates 32))))
            (localsession.NewCatalog example_session) calls _).
  vm_compute. reflexivity.
Defined.

(** C1 as stated fails at the largest revision number.  With revision
    numbers of 32 bits, the state below is the one a new catalog is in
    after 2^32 - 1 successful updates; one more successful update takes its
    Rev from 4294967295 to 0, not to 4294967296, and after these 2^32
    successes the Rev is the initial one. *)
Lemma rev_wraps_counterexample :
  let c := N.iter 4294967295 (localsession.bump 32) (localsession.NewCatalog example_session) in
  let out := localsession.TryUpdate 32 c (localsession.ref c) "ns" [rinq.Set_ "a" "1"] in
  ident.Rev (localsession.ref c) = 4294967295
  ∧ localsession.succeeded (localsession.ReplyUpdate out.2) = true
  ∧ ident.Rev (localsession.ref out.1) = 0
  ∧ ¬ (∀ (c : localsession.catalog) (r : ident.Ref) (ns : string) (proposed : list rinq.Attr),
         localsession.succeeded
           (localsession.ReplyUpdate (localsession.TryUpdate 32 c r ns proposed).2) = true →
         ident.Rev (localsession.ref (localsession.TryUpdate 32 c r ns proposed).1)
         = ident.Rev (localsession.ref c) + 1).
Proof.
  intros c out. subst out c. rewrite iter_bump by done.
  split; [reflexivity|]. split; [reflexivity|]. split; [reflexivity|].
  intros H.
  specialize (H {| localsession.ref := ident.At example_session 4294967295;
                   localsession.attrs := ∅; localsession.seq := 0;
                   localsession.done := false |}
                (ident.At example_session 4294967295) "ns" [rinq.Set_ "a" "1"] eq_refl).
  vm_compute in H. discriminate H.
Qed.

(** ** An update of no-ops *)

(** What [TryUpdate] returns for proposals that change nothing. *)
Lemma TryUpdate_noop bits c ns proposed :
  localsession.done c = false →
  Forall (localsession.is_noop (attrmeta.namespace_of (localsession.attrs c) ns)) proposed →
  let nextRev := (ident.Rev (localsession.ref c) + 1) mod 2 ^ bits in
  let r' := ident.with_Rev (localsession.ref c) nextRev in
  localsession.TryUpdate bits c (localsession.ref c) ns proposed
  = ({| localsession.ref := r'; localsession.attrs := localsession.attrs c;
        localsession.seq := 0; localsession.done := false |},
     (Some {| localsession.rev_ref := r'; localsession.rev_attrs := localsession.attrs c |},
      Some (attrmeta.NewDiff ns nextRev (length proposed)),
      None)).
Proof.
  intros Hopen Hnoop nextRev r'. unfold localsession.TryUpdate.
  rewrite Hopen, decide_False by (by intros ?).
  rewrite Clone_id, update_attrs_noop by done.
  unfold localsession.commit. simpl. by rewrite Hopen.
Qed.

(** C4, as the code has it.  A TryUpdate on an open catalog with the
    matching ref whose proposed attributes are all no-ops still succeeds and
    advances the revision by 1 (in the arithmetic of the revision type: by
    exactly 1 below the largest revision number) and sets seq to 0; what it
    leaves alone is the attribute table, and its diff is empty. *)
Theorem noop_update_advances_rev (bits : N) (c : localsession.catalog) (ns : string)
    (proposed : list rinq.Attr) :
  localsession.done c = false →
  Forall (localsession.is_noop (attrmeta.namespace_of (localsession.attrs c) ns)) proposed →
  let out := localsession.TryUpdate bits c (localsession.ref c) ns proposed in
  ident.Rev (localsession.ref out.1) = (ident.Rev (localsession.ref c) + 1) mod 2 ^ bits
  ∧ (ident.Rev (localsession.ref c) + 1 < 2 ^ bits →
     ident.Rev (localsession.ref out.1) = ident.Rev (localsession.ref c) + 1)
  ∧ localsession.seq out.1 = 0
  ∧ localsession.attrs out.1 = localsession.attrs c
  ∧ ∃ rv d, out.2 = (Some rv, Some d, None) ∧ attrmeta.IsEmpty d = true.
Proof.
  intros Hopen Hnoop out. subst out.
  rewrite TryUpdate_noop by done. simpl.
  split; [done|]. split; [intros Hsmall; by apply N.mod_small|]. eauto 10.
Qed.

Lemma noop_update_advances_rev_witness :
  ident.Rev (localsession.ref
    (localsession.TryUpdate 32 example_catalog (localsession.ref example_catalog)
       "ns" [rinq.Set_ "a" "1"]).1) = 2.
Proof.
  refine (proj1 (proj2 (noop_update_advances_rev 32 example_catalog "ns"
                          [rinq.Set_ "a" "1"] _ _)) _).
  - reflexivity.
  - repeat constructor.
  - vm_compute. reflexivity.
Defined.

(** C4 as stated fails: proposing a = 1 again at revision 1 is a no-op and
    takes the catalog to revision 2. *)
Lemma noop_update_keeps_rev_counterexample :
  ¬ (∀ (c : localsession.catalog) (ns : string) (proposed : list rinq.Attr),
       localsession.done c = false →
       Forall (localsession.is_noop (attrmeta.namespace_of (localsession.attrs c) ns)) proposed →
       ident.Rev (localsession.ref
         (localsession.TryUpdate 32 c (localsession.ref c) ns proposed).1)
       = ident.Rev (localsession.ref c)).
Proof.
  intros H.
  specialize (H example_catalog "ns" [rinq.Set_ "a" "1"] eq_refl).
  assert (Hn : Forall (localsession.is_noop
    (attrmeta.namespace_of (localsession.attrs example_catalog) "ns")) [rinq.Set_ "a" "1"])
    by (repeat constructor).
  specialize (H Hn). vm_compute in H. discriminate H.
Qed.

(** ** Revisions at a number *)



(** ** Frozen attributes stay as they are *)

Lemma update_attrs_keyed r nextRev proposed m d m' d' :
  localsession.update_attrs r nextRev proposed m d = inr (m', d') →
  localsession.keyed m → localsession.keyed m'.
Proof.
  revert m d. induction proposed as [|a rest IH]; intros m d; simpl.
  - by intros [= <- <-].
  - destruct (attrmeta.index m (rinq.Key a)) as [entry ex].
    case_decide; [by apply IH|].
    destruct (attrmeta.IsFrozen entry); [done|].
    intros Hloop Hm. eapply IH; [exact Hloop|].
    intros k e. rewrite lookup_insert. case_decide; [|by apply Hm].
    by intros [= <-].
Qed.

Lemma update_attrs_frozen_kept r nextRev proposed m d m' d' k e :
  localsession.update_attrs r nextRev proposed m d = inr (m', d') →
  m !! k = Some e → attrmeta.IsFrozen e = true → m' !! k = Some e.
Proof.
  revert m d. induction proposed as [|a rest IH]; intros m d; simpl.
  - by intros [= <- <-].
  - destruct (attrmeta.index m (rinq.Key a)) as [entry ex] eqn:Hidx.
    case_decide; [by apply IH|].
    destruct (attrmeta.IsFrozen entry) eqn:Hfrozen; [done|].
    intros Hloop Hk He. eapply IH; [exact Hloop| |done].
    rewrite lookup_insert_ne; [done|].
    intros Heq. rewrite <- Heq in Hk.
    rewrite (index_Some _ _ _ Hk) in Hidx. congruence.
Qed.

Lemma clear_attrs_keyed r nextRev entries m d m' d' :
  localsession.clear_attrs r nextRev entries m d = inr (m', d') →
  localsession.keyed m → localsession.keyed m'.
Proof.
  revert m d. induction entries as [|a rest IH]; intros m d; simpl.
  - by intros [= <- <-].
  - case_decide.
    + destruct (attrmeta.IsFrozen a); [done|].
      intros Hloop Hm. eapply IH; [exact Hloop|].
      intros k e. rewrite lookup_insert. case_decide; [|by apply Hm].
      by intros [= <-].
    + intros Hloop Hm. eapply IH; [exact Hloop|].
      intros k e. rewrite lookup_insert. case_decide; [|by apply Hm].
      by intros [= <-].
Qed.

(** The loop of [TryClear] writes only under the keys of its entries. *)
Lemma clear_attrs_other r nextRev entries m d m' d' k :
  localsession.clear_attrs r nextRev entries m d = inr (m', d') →
  k ∉ attrmeta.Key <$> entries → m' !! k = m !! k.
Proof.
  revert m d. induction entries as [|a rest IH]; intros m d; simpl.
  - by intros [= <- <-].
  - rewrite not_elem_of_cons. intros Hloop [Hne Hk].
    case_decide.
    + destruct (attrmeta.IsFrozen a); [done|].
      rewrite (IH _ _ Hloop Hk). by rewrite lookup_insert_ne.
    + rewrite (IH _ _ Hloop Hk). by rewrite lookup_insert_ne.
Qed.

Lemma clear_attrs_frozen_kept r nextRev entries m d m' d' e :
  localsession.clear_attrs r nextRev entries m d = inr (m', d') →
  NoDup (attrmeta.Key <$> entries) →
  e ∈ entries → attrmeta.IsFrozen e = true →
  m' !! attrmeta.Key e = Some e.
Proof.
  revert m d. induction entries as [|a rest IH]; intros m d; simpl.
  - intros _ _ He. by apply elem_of_nil in He.
  - rewrite NoDup_cons, elem_of_cons. intros Hloop [Ha Hnd] [->|He] Hfrozen.
    + rewrite Hfrozen in Hloop. case_decide; [done|].
      rewrite (clear_attrs_other _ _ _ _ _ _ _ _ Hloop Ha).
      by rewrite lookup_insert_eq.
    + case_decide.
      * destruct (attrmeta.IsFrozen a); [done|]. by eapply IH.
      * by eapply IH.
Qed.

Lemma range_values_keys (m : attrmeta.Namespace) :
  localsession.keyed m →
  attrmeta.Key <$> localsession.range_values m = (map_to_list m).*1.
Proof.
  intros Hm. unfold localsession.range_values.
  rewrite <- list_fmap_compose.
  apply Forall_fmap_ext_1, Forall_forall. intros [k e] Hin. simpl.
  apply Hm. by apply elem_of_map_to_list.
Qed.

Lemma elem_of_range_values (m : attrmeta.Namespace) k e :
  m !! k = Some e → e ∈ localsession.range_values m.
Proof.
  intros Hk. unfold localsession.range_values.
  apply list_elem_of_fmap. exists (k, e). split; [done|].
  by apply elem_of_map_to_list.
Qed.

Lemma namespace_of_insert (t : attrmeta.NamespaceTable) ns ns' m :
  attrmeta.namespace_of (<[ns := m]> t) ns'
  = if decide (ns = ns') then m else attrmeta.namespace_of t ns'.
Proof.
  unfold attrmeta.namespace_of. rewrite lookup_insert. by case_decide.
Qed.

Lemma keyed_table_namespace_of t ns :
  localsession.keyed_table t → localsession.keyed (attrmeta.namespace_of t ns).
Proof.
  intros Ht. unfold attrmeta.namespace_of.
  destruct (t !! ns) as [m|] eqn:Hns; simpl; [by eapply Ht|].
  intros k e. by rewrite lookup_empty.
Qed.

Lemma commit_attrs c ns nextRev m d :
  localsession.attrs (localsession.commit c ns nextRev m d).1
  = if attrmeta.IsEmpty d then localsession.attrs c
    else <[ns := m]> (localsession.attrs c).
Proof. unfold localsession.commit. simpl. by destruct (attrmeta.IsEmpty d). Qed.

(** What a commit needs of the namespace it installs. *)
Lemma commit_kept c ns nextRev m d :
  localsession.keyed_table (localsession.attrs c) →
  localsession.keyed m →
  (∀ k e, attrmeta.namespace_of (localsession.attrs c) ns !! k = Some e →
          attrmeta.IsFrozen e = true → m !! k = Some e) →
  let c' := (localsession.commit c ns nextRev m d).1 in
  localsession.keyed_table (localsession.attrs c') ∧ localsession.frozen_kept c c'.
Proof.
  intros Ht Hm Hkept c'. subst c'. unfold localsession.frozen_kept.
  rewrite commit_attrs.
  destruct (attrmeta.IsEmpty d); [by split|].
  split.
  - intros ns' m'. rewrite lookup_insert. case_decide; [|by apply Ht].
    by intros [= <-].
  - intros ns' k e. rewrite namespace_of_insert.
    case_decide as Hns; [|done]. subst ns'. apply Hkept.
Qed.

(** A step that leaves the catalog's table alone keeps everything. *)
Ltac unchanged_kept := simpl; split; [done | by intros ? ? ? ? ?].

Lemma TryUpdate_kept bits c r ns proposed :
  localsession.keyed_table (localsession.attrs c) →
  let c' := (localsession.TryUpdate bits c r ns proposed).1 in
  localsession.keyed_table (localsession.attrs c') ∧ localsession.frozen_kept c c'.
Proof.
  intros Ht. unfold localsession.TryUpdate.
  destruct (localsession.done c); [unchanged_kept|].
  case_decide; [unchanged_kept|].
  rewrite Clone_id.
  destruct (localsession.update_attrs _ _ _ _ _) as [e|[m d]] eqn:Hloop; [unchanged_kept|].
  apply commit_kept; [done| |].
  - eapply update_attrs_keyed; [exact Hloop|]. by apply keyed_table_namespace_of.
  - intros k e. by eapply update_attrs_frozen_kept.
Qed.

Lemma TryClear_kept bits c r ns :
  localsession.keyed_table (localsession.attrs c) →
  let c' := (localsession.TryClear bits c r ns).1 in
  localsession.keyed_table (localsession.attrs c') ∧ localsession.frozen_kept c c'.
Proof.
  intros Ht. unfold localsession.TryClear.
  destruct (localsession.done c); [unchanged_kept|].
  case_decide; [unchanged_kept|].
  destruct (localsession.clear_attrs _ _ _ _ _) as [e|[m d]] eqn:Hloop; [unchanged_kept|].
  pose proof (keyed_table_namespace_of _ ns Ht) as Hns.
  apply commit_kept; [done| |].
  - eapply clear_attrs_keyed; [exact Hloop|]. intros k e. by rewrite lookup_empty.
  - intros k e Hk Hfrozen.
    rewrite <- (Hns _ _ Hk).
    eapply clear_attrs_frozen_kept; [exact Hloop| | |done].
    + rewrite range_values_keys by done. apply NoDup_fst_map_to_list.
    + by eapply elem_of_range_values.
Qed.

Lemma exec_kept bits c k :
  localsession.keyed_table (localsession.attrs c) →
  let c' := (localsession.exec bits c k).1 in
  localsession.keyed_table (localsession.attrs c') ∧ localsession.frozen_kept c c'.
Proof.
  intros Ht. destruct k as [|r ns proposed|r ns|r|]; simpl.
  - unchanged_kept.
  - pose proof (TryUpdate_kept bits c r ns proposed Ht) as H.
    by destruct (localsession.TryUpdate bits c r ns proposed).
  - pose proof (TryClear_kept bits c r ns Ht) as H.
    by destruct (localsession.TryClear bits c r ns).
  - unfold localsession.TryDestroy. case_decide; unchanged_kept.
  - unchanged_kept.
Qed.

Lemma run_kept bits c calls :
  localsession.keyed_table (localsession.attrs c) →
  let c' := (localsession.run bits c calls).1 in
  localsession.keyed_table (localsession.attrs c') ∧ localsession.frozen_kept c c'.
Proof.
  revert c. induction calls as [|k rest IH]; intros c Ht.
  - unchanged_kept.
  - cbv zeta. rewrite run_cons. simpl.
    destruct (exec_kept bits c k Ht) as [Ht1 Hk1].
    destruct (IH _ Ht1) as [Ht2 Hk2].
    split; [done|]. intros ns key e He Hfrozen.
    apply Hk2; [|done]. by apply Hk1.
Qed.

Lemma NewCatalog_keyed id :
  localsession.keyed_table (localsession.attrs (localsession.NewCatalog id)).
Proof. intros ns m. simpl. by rewrite lookup_empty. Qed.

(** *** The order of a range over a map

    Go does not fix the order in which [TryClear] ranges over the
    namespace.  The order does not matter: two orders of the same entries
    fail together, with the same error, or succeed with the same namespace
    and the same diff entries in another order. *)

Lemma clear_attrs_diff r nextRev entries m d d' :
  attrmeta.Attrs d ≡ₚ attrmeta.Attrs d' →
  match localsession.clear_attrs r nextRev entries m d,
        localsession.clear_attrs r nextRev entries m d' with
  | inl e, inl e' => e = e'
  | inr (m1, d1), inr (m2, d2) => m1 = m2 ∧ attrmeta.Attrs d1 ≡ₚ attrmeta.Attrs d2
  | _, _ => False
  end.
Proof.
  revert m d d'. induction entries as [|a rest IH]; intros m d d' Hd; simpl; [done|].
  case_decide; [|by apply IH].
  destruct (attrmeta.IsFrozen a); [done|].
  apply IH. simpl. by rewrite Hd.
Qed.

Lemma clear_attrs_Permutation r nextRev entries entries' m d :
  entries ≡ₚ entries' →
  NoDup (attrmeta.Key <$> entries) →
  match localsession.clear_attrs r nextRev entries m d,
        localsession.clear_attrs r nextRev entries' m d with
  | inl e, inl e' => e = e'
  | inr (m1, d1), inr (m2, d2) => m1 = m2 ∧ attrmeta.Attrs d1 ≡ₚ attrmeta.Attrs d2
  | _, _ => False
  end.
Proof.
  intros Hperm. revert m d.
  induction Hperm as [|a l l' Hperm IH|a b l|l1 l2 l3 H12 IH12 H23 IH23]; intros m d Hnd.
  - done.
  - simpl. apply NoDup_cons in Hnd as [_ Hnd].
    case_decide; [|by apply IH].
    destruct (attrmeta.IsFrozen a); [done|]. by apply IH.
  - assert (Hne : attrmeta.Key a ≠ attrmeta.Key b).
    { simpl in Hnd. apply NoDup_cons in Hnd as [Hnotin _].
      intros Heq. apply Hnotin. rewrite Heq. apply list_elem_of_here. }
    simpl.
    destruct (decide (attrmeta.Value a ≠ "")), (decide (attrmeta.Value b ≠ ""));
      destruct (attrmeta.IsFrozen a) eqn:Ha, (attrmeta.IsFrozen b) eqn:Hb;
      simpl; try done;
      rewrite insert_insert_ne by exact Hne;
      apply clear_attrs_diff; simpl; rewrite <- ?app_assoc; simpl;
      try done; apply Permutation_app_head, perm_swap.
  - assert (Hnd2 : NoDup (attrmeta.Key <$> l2)) by (by rewrite <- H12).
    specialize (IH12 m d Hnd). specialize (IH23 m d Hnd2).
    destruct (localsession.clear_attrs r nextRev l1 m d) as [e1|[m1 d1]],
             (localsession.clear_attrs r nextRev l2 m d) as [e2|[m2 d2]],
             (localsession.clear_attrs r nextRev l3 m d) as [e3|[m3 d3]];
      try done; [congruence|].
    destruct IH12 as [-> ->]. done.
Qed.

(** C2.  Take a catalog in any state it can be in, that is after any
    history of calls on a new catalog, and a key that reads as frozen
    there.  After any further history of calls (TryUpdate, TryClear and
    the others) the key reads the same (Value, IsFrozen) pair. *)
Theorem frozen_attribute_never_changes bits (id : ident.SessionID)
    (before after : list localsession.call) (ns k : string) :
  let c := (localsession.run bits (localsession.NewCatalog id) before).1 in
  let c' := (localsession.run bits c after).1 in
  (localsession.observe c ns k).2 = true →
  localsession.observe c' ns k = localsession.observe c ns k.
Proof.
  intros c c'.
  destruct (run_kept bits (localsession.NewCatalog id) before (NewCatalog_keyed id)) as [Ht _].
  destruct (run_kept bits c after Ht) as [_ Hkept].
  fold c' in Hkept. specialize (Hkept ns k).
  unfold localsession.observe, attrmeta.index.
  destruct (attrmeta.namespace_of (localsession.attrs c) ns !! k) as [e|] eqn:He;
    simpl; [|done].
  intros Hfrozen. by rewrite (Hkept e eq_refl Hfrozen).
Qed.

(** ** A change to a frozen attribute is refused *)

Lemma update_attrs_abort r nextRev proposed m d :
  Exists (localsession.changes_frozen m) proposed →
  localsession.update_attrs r nextRev proposed m d
  = inl (rinq.FrozenAttributesError r []).
Proof.
  intros Hex. revert m d Hex.
  induction proposed as [|a rest IH]; intros m d Hex; [by apply Exists_nil in Hex|].
  simpl. destruct (attrmeta.index m (rinq.Key a)) as [entry ex] eqn:Hidx.
  apply Exists_cons in Hex as [(e & Hk & Hfrozen & Hne)|Hrest].
  - rewrite (index_Some _ _ _ Hk) in Hidx. injection Hidx as <- <-.
    rewrite decide_False by (intros [? ?]; apply Hne; by f_equal).
    by rewrite Hfrozen.
  - case_decide; [by apply IH|].
    destruct (attrmeta.IsFrozen entry) eqn:Hentry; [done|].
    apply IH. eapply Exists_impl; [exact Hrest|].
    intros a' (e & Hk & Hfrozen & Hne). exists e. split; [|done].
    rewrite lookup_insert_ne; [done|].
    intros Heq. rewrite <- Heq in Hk.
    rewrite (index_Some _ _ _ Hk) in Hidx. congruence.
Qed.

Lemma TryUpdate_frozen bits c ns proposed :
  localsession.done c = false →
  Exists (localsession.changes_frozen (attrmeta.namespace_of (localsession.attrs c) ns))
    proposed →
  localsession.TryUpdate bits c (localsession.ref c) ns proposed
  = (c, (None, None, Some (rinq.FrozenAttributesError (localsession.ref c) []))).
Proof.
  intros Hopen Hex. unfold localsession.TryUpdate.
  rewrite Hopen, decide_False by (by intros ?).
  by rewrite Clone_id, update_attrs_abort.
Qed.

(** *** The earlier catalog *)

Lemma WriteString_accepted w s :
  (∀ h s', overpass.refuses w h s' = None) →
  ∃ w', overpass.WriteString w s = (w', None)
        ∧ ∀ h s', overpass.refuses w' h s' = None.
Proof.
  intros Hw. unfold overpass.WriteString. rewrite Hw. eauto.
Qed.

Lemma write_pieces_accepted w pieces :
  (∀ h s', overpass.refuses w h s' = None) →
  ∃ w', overpass.write_pieces w pieces = (w', None)
        ∧ ∀ h s', overpass.refuses w' h s' = None.
Proof.
  revert w. induction pieces as [|s rest IH]; intros w Hw; simpl; [eauto|].
  destruct (WriteString_accepted w s Hw) as (w1 & -> & Hw1). by apply IH.
Qed.

Lemma write_entry_accepted diff i entry :
  overpass.accepts_all diff →
  ∃ diff', overpass.write_entry diff i entry = (diff', None)
           ∧ overpass.accepts_all diff'.
Proof.
  intros Hd. destruct diff as [w|]; simpl; [|eauto].
  assert (Hw : ∀ h s', overpass.refuses w h s' = None) by (by apply Hd).
  assert (∃ w1, (if decide (0 < i)%nat then overpass.WriteString w ", " else (w, None))
                = (w1, None) ∧ ∀ h s', overpass.refuses w1 h s' = None) as (w1 & -> & Hw1).
  { case_decide; [by apply WriteString_accepted|eauto]. }
  unfold overpass.writeDiff.
  destruct (write_pieces_accepted w1
    (if decide (attrmeta.Value entry = "") then
       [if attrmeta.IsFrozen entry then "!" else "-"; attrmeta.Key entry]
     else
       (if decide (attrmeta.CreatedAt entry = attrmeta.UpdatedAt entry) then ["+"] else [])
       ++ [attrmeta.Key entry; if attrmeta.IsFrozen entry then "@" else "=";
           attrmeta.Value entry]) Hw1) as (w2 & -> & Hw2).
  exists (Some w2). split; [done|]. intros w' [= <-]. exact Hw2.
Qed.

Lemma changes_frozen_same t m a :
  overpass.same_frozen t m →
  overpass.changes_frozen t a ↔ overpass.changes_frozen m a.
Proof.
  intros Hsame. unfold overpass.changes_frozen.
  split; intros (e & Hk & Hfrozen & Hne); exists e; (split; [|done]);
    by apply (Hsame _ _ Hfrozen).
Qed.

(** With a writer that accepts every write the loop of the earlier
    [TryUpdate] runs to its end and collects the keys of exactly the
    proposed attributes that change a frozen entry of the table. *)
Lemma overpass_update_attrs_frozen t nextRev i proposed m frozen diff :
  overpass.same_frozen t m →
  overpass.accepts_all diff →
  ∃ m' diff',
    overpass.update_attrs nextRev i proposed m frozen diff
    = inr (m', frozen ++ overpass.frozen_keys t proposed, diff').
Proof.
  revert i m frozen diff.
  induction proposed as [|a rest IH]; intros i m frozen diff Hsame Hd; simpl.
  - unfold overpass.frozen_keys. rewrite app_nil_r. eauto.
  - unfold overpass.frozen_keys. rewrite filter_cons.
    destruct (attrmeta.index m (rinq.Key a)) as [entry ex] eqn:Hidx.
    assert (Hentry : attrmeta.IsFrozen entry = true → m !! rinq.Key a = Some entry).
    { unfold attrmeta.index in Hidx.
      destruct (m !! rinq.Key a); injection Hidx as <- <-; [done|]. discriminate. }
    case_decide as Hsame_attr.
    + rewrite decide_False.
      * by apply IH.
      * rewrite (changes_frozen_same _ _ _ Hsame).
        intros (e & Hk & Hfrozen & Hne).
        rewrite (index_Some _ _ _ Hk) in Hidx. injection Hidx as <- <-.
        destruct Hsame_attr as [? ?]. apply Hne. by f_equal.
    + destruct (attrmeta.IsFrozen entry) eqn:Hfrozen.
      * rewrite decide_True.
        -- rewrite fmap_cons.
           replace (frozen ++ rinq.Key a :: (rinq.Key <$> filter (overpass.changes_frozen t) rest))
             with ((frozen ++ [rinq.Key a]) ++ overpass.frozen_keys t rest)
             by (by rewrite <- app_assoc).
           by apply IH.
        -- rewrite (changes_frozen_same _ _ _ Hsame).
           exists entry. split; [by apply Hentry|]. split; [done|].
           rewrite Hfrozen. intros [= ? ?]. by apply Hsame_attr.
      * rewrite decide_False.
        -- destruct (write_entry_accepted diff i
             {| attrmeta.attr :=
                  {| rinq.Key := if ex then attrmeta.Key entry else rinq.Key a;
                     rinq.Value := rinq.Value a; rinq.IsFrozen := false |};
                attrmeta.CreatedAt := if ex then attrmeta.CreatedAt entry else nextRev;
                attrmeta.UpdatedAt := nextRev |} Hd) as (diff' & -> & Hd').
           apply IH; [|done].
           intros k e He. rewrite lookup_insert. case_decide as Hk.
           ++ subst k. split.
              ** intros Ht. apply (Hsame _ _ He) in Ht.
                 rewrite (index_Some _ _ _ Ht) in Hidx. congruence.
              ** intros [= <-]. done.
           ++ by apply Hsame.
        -- rewrite (changes_frozen_same _ _ _ Hsame).
           intros (e & Hk & Hfrozen' & Hne).
           rewrite (index_Some _ _ _ Hk) in Hidx. congruence.
Qed.

(** The earlier [TryUpdate] copies the value of a proposed attribute into
    the entry but not its frozen flag: it never makes a frozen entry. *)
Lemma overpass_update_attrs_unfrozen nextRev i proposed m frozen diff m' frozen' diff' :
  overpass.update_attrs nextRev i proposed m frozen diff = inr (m', frozen', diff') →
  map_Forall (λ _ e, attrmeta.IsFrozen e = false) m →
  map_Forall (λ _ e, attrmeta.IsFrozen e = false) m'.
Proof.
  revert i m frozen diff. induction proposed as [|a rest IH]; intros i m frozen diff; simpl.
  - by intros [= <- <- <-].
  - destruct (attrmeta.index m (rinq.Key a)) as [entry ex] eqn:Hidx.
    case_decide; [by apply IH|].
    destruct (attrmeta.IsFrozen entry) eqn:Hfrozen; [by apply IH|].
    destruct (overpass.write_entry _ _ _) as [diff1 [e|]]; [done|].
    intros Hloop Hm. eapply IH; [exact Hloop|].
    by apply map_Forall_insert_2.
Qed.

Lemma overpass_TryUpdate_unfrozen bits c r proposed diff :
  map_Forall (λ _ e, attrmeta.IsFrozen e = false) (overpass.attrs c) →
  map_Forall (λ _ e, attrmeta.IsFrozen e = false)
    (overpass.attrs (overpass.TryUpdate bits c r proposed diff).1.1).
Proof.
  intros Hc. unfold overpass.TryUpdate.
  destruct (overpass.isClosed c); [done|].
  case_decide; [done|].
  destruct (overpass.update_attrs _ _ _ _ _ _) as [[diff' e]|[[m' frozen'] diff']] eqn:Hloop;
    [done|].
  case_decide; [done|]. simpl.
  eapply overpass_update_attrs_unfrozen; [exact Hloop|]. by rewrite Clone_id.
Qed.

Lemma overpass_run_cons bits c k rest :
  overpass.run bits c (k :: rest)
  = ((overpass.run bits (overpass.exec bits c k).1 rest).1,
     (overpass.exec bits c k).2 :: (overpass.run bits (overpass.exec bits c k).1 rest).2).
Proof.
  simpl. destruct (overpass.exec bits c k) as [c1 rep]; simpl.
  by destruct (overpass.run bits c1 rest).
Qed.

(** With no frozen entry in the table the loop collects no key. *)
Lemma overpass_update_attrs_collects_none nextRev i proposed m frozen diff m' frozen' diff' :
  overpass.update_attrs nextRev i proposed m frozen diff = inr (m', frozen', diff') →
  map_Forall (λ _ e, attrmeta.IsFrozen e = false) m →
  frozen' = frozen.
Proof.
  revert i m frozen diff. induction proposed as [|a rest IH]; intros i m frozen diff; simpl.
  - by intros [= <- <- <-].
  - destruct (attrmeta.index m (rinq.Key a)) as [entry ex] eqn:Hidx.
    case_decide; [by apply IH|].
    destruct (attrmeta.IsFrozen entry) eqn:Hfrozen.
    + intros _ Hm. exfalso.
      unfold attrmeta.index in Hidx.
      destruct (m !! rinq.Key a) as [e|] eqn:Hk; injection Hidx as <- <-.
      * specialize (Hm _ _ Hk). simpl in Hm. congruence.
      * discriminate Hfrozen.
    + destruct (overpass.write_entry _ _ _) as [diff1 [e|]]; [done|].
      intros Hloop Hm. eapply IH; [exact Hloop|].
      by apply map_Forall_insert_2.
Qed.

Lemma overpass_exec_unfrozen bits c k :
  map_Forall (λ _ e, attrmeta.IsFrozen e = false) (overpass.attrs c) →
  map_Forall (λ _ e, attrmeta.IsFrozen e = false) (overpass.attrs (overpass.exec bits c k).1).
Proof.
  intros Hc. destruct k as [|r proposed diff|r|]; simpl; try done.
  - pose proof (overpass_TryUpdate_unfrozen bits c r proposed diff Hc) as Hun.
    by destruct (overpass.TryUpdate bits c r proposed diff) as [[c' diff'] res].
  - unfold overpass.TryClose. case_decide; [done|]. by destruct (overpass.isClosed c).
Qed.

Lemma overpass_run_unfrozen bits c calls :
  map_Forall (λ _ e, attrmeta.IsFrozen e = false) (overpass.attrs c) →
  map_Forall (λ _ e, attrmeta.IsFrozen e = false) (overpass.attrs (overpass.run bits c calls).1).
Proof.
  revert c. induction calls as [|k rest IH]; intros c Hc; [done|].
  rewrite overpass_run_cons. simpl. by apply IH, overpass_exec_unfrozen.
Qed.


(** On a table without frozen entries the earlier [TryUpdate], given a
    writer that accepts every write, does not fail with FrozenAttributes. *)
Lemma overpass_TryUpdate_not_refused bits c r proposed diff :
  map_Forall (λ _ e, attrmeta.IsFrozen e = false) (overpass.attrs c) →
  overpass.accepts_all diff →
  overpass.refused_frozen
    (overpass.exec bits c (overpass.CallTryUpdate r proposed diff)).2 = false.
Proof.
  intros Hc Hd. simpl. unfold overpass.TryUpdate.
  destruct (overpass.isClosed c); [done|]. case_decide; [done|].
  rewrite Clone_id.
  destruct (overpass_update_attrs_frozen (overpass.attrs c)
              ((ident.Rev r + 1) mod 2 ^ bits) 0%nat
              proposed (overpass.attrs c) [] diff) as (m' & diff' & Hloop); [done|done|].
  rewrite Hloop.
  rewrite (overpass_update_attrs_collects_none _ _ _ _ _ _ _ _ _ Hloop Hc). done.
Qed.




(** ** Message IDs *)

Lemma uint32_incr_small n : n + 1 < 2 ^ 32 → localsession.uint32_incr n = n + 1.
Proof. intros H. unfold localsession.uint32_incr. by apply N.mod_small. Qed.

(** Without a wrap of the revision number a call adds 1 to it when it is
    a successful update or clear, and nothing otherwise. *)
Lemma exec_rev_small bits c k :
  ident.Rev (localsession.ref c)
    + (if localsession.succeeded (localsession.exec bits c k).2 then 1 else 0) < 2 ^ bits →
  ident.Rev (localsession.ref (localsession.exec bits c k).1)
  = ident.Rev (localsession.ref c)
    + (if localsession.succeeded (localsession.exec bits c k).2 then 1 else 0).
Proof.
  intros Hsmall. rewrite (proj1 (exec_rev bits c k)).
  destruct (localsession.succeeded (localsession.exec bits c k).2).
  - by apply N.mod_small.
  - lia.
Qed.

(** A history without a wrap of the revision number is a first call
    without one and a rest without one. *)
Lemma rev_never_wraps_cons bits c k rest :
  localsession.rev_never_wraps bits c (k :: rest) →
  ident.Rev (localsession.ref c)
    + (if localsession.succeeded (localsession.exec bits c k).2 then 1 else 0) < 2 ^ bits
  ∧ localsession.rev_never_wraps bits (localsession.exec bits c k).1 rest.
Proof.
  unfold localsession.rev_never_wraps. rewrite run_cons. cbn [fst snd].
  rewrite successes_cons. intros Hsmall.
  assert (Hk : ident.Rev (localsession.ref c)
    + (if localsession.succeeded (localsession.exec bits c k).2 then 1 else 0) < 2 ^ bits)
    by lia.
  split; [exact Hk|]. rewrite exec_rev_small by exact Hk. lia.
Qed.

(** Without a wrap of seq or of the revision number no call takes the
    (Rev, seq) pair down. *)
Lemma exec_stamp_le bits c k :
  localsession.seq_never_wraps bits c [k] = true →
  ident.Rev (localsession.ref c)
    + (if localsession.succeeded (localsession.exec bits c k).2 then 1 else 0) < 2 ^ bits →
  localsession.stamp_le c (localsession.exec bits c k).1.
Proof.
  intros Hseq Hrev. pose proof (exec_rev_small bits c k Hrev) as HRev.
  unfold localsession.stamp_le. rewrite HRev.
  destruct (localsession.succeeded (localsession.exec bits c k).2) eqn:Hs; [left; lia|].
  right. split; [lia|].
  destruct k as [|r ns proposed|r ns|r|]; simpl in *; rewrite ?andb_true_r in Hseq.
  - apply bool_decide_eq_true in Hseq. rewrite uint32_incr_small by done. lia.
  - pose proof (TryUpdate_step bits c r ns proposed) as H.
    destruct (localsession.TryUpdate bits c r ns proposed) as [c' [[rv d] [e|]]]; simpl in *.
    + destruct H as [_ ->]. lia.
    + done.
  - pose proof (TryClear_step bits c r ns) as H.
    destruct (localsession.TryClear bits c r ns) as [c' [[rv d] [e|]]]; simpl in *.
    + destruct H as [_ ->]. lia.
    + done.
  - unfold localsession.TryDestroy. case_decide; simpl; lia.
  - lia.
Qed.

Lemma after_stamp_le c c' id :
  localsession.stamp_le c c' → localsession.after c' id → localsession.after c id.
Proof. unfold localsession.stamp_le, localsession.after. lia. Qed.

Lemma message_ids_cons rep reps :
  localsession.message_ids (rep :: reps)
  = match rep with
    | localsession.ReplyMessageID id _ => id :: localsession.message_ids reps
    | _ => localsession.message_ids reps
    end.
Proof. by destruct rep. Qed.

(** The IDs of a history without a wrap are above the starting pair,
    strictly increasing and distinct. *)
Lemma run_message_ids bits c calls :
  localsession.seq_never_wraps bits c calls = true →
  localsession.rev_never_wraps bits c calls →
  let ids := localsession.message_ids (localsession.run bits c calls).2 in
  Forall (localsession.after c) ids
  ∧ StronglySorted localsession.msg_lt ids
  ∧ NoDup ids.
Proof.
  revert c. induction calls as [|k rest IH]; intros c Hw Hrev.
  - simpl. repeat split; constructor.
  - cbv zeta. rewrite run_cons. cbn [snd]. rewrite message_ids_cons.
    simpl in Hw. apply andb_true_iff in Hw as [Hk Hrest].
    apply rev_never_wraps_cons in Hrev as [Hrevk Hrevrest].
    assert (Hle : localsession.stamp_le c (localsession.exec bits c k).1).
    { apply exec_stamp_le; [|done]. simpl. by rewrite Hk. }
    destruct (IH _ Hrest Hrevrest) as (Hafter & Hsorted & Hnodup).
    assert (Hafter' : Forall (localsession.after c)
      (localsession.message_ids (localsession.run bits (localsession.exec bits c k).1 rest).2)).
    { eapply Forall_impl; [exact Hafter|]. intros id. by apply after_stamp_le. }
    destruct k as [|r ns proposed|r ns|r|].
    + apply bool_decide_eq_true in Hk.
      assert (Hlt : Forall (localsession.msg_lt
          (ident.Message (localsession.ref c) (localsession.uint32_incr (localsession.seq c))))
        (localsession.message_ids (localsession.run bits (localsession.exec bits c
           localsession.CallNextMessageID).1 rest).2)).
      { eapply Forall_impl; [exact Hafter|]. intros id. simpl.
        unfold localsession.after, localsession.msg_lt. simpl. tauto. }
      simpl. repeat split.
      * constructor; [|done]. unfold localsession.after. simpl.
        rewrite uint32_incr_small by done. right. lia.
      * by constructor.
      * constructor; [|done]. intros Hin.
        rewrite Forall_forall in Hlt. specialize (Hlt _ Hin).
        unfold localsession.msg_lt in Hlt. lia.
    + simpl in *. by destruct (localsession.TryUpdate bits c r ns proposed).
    + simpl in *. by destruct (localsession.TryClear bits c r ns).
    + simpl in *. by destruct (localsession.TryDestroy c r).
    + done.
Qed.

(** C5, as the code has it.  In a history of calls on a catalog in which no
    call of NextMessageID finds seq at the largest uint32 (fewer than 2^32
    IDs are drawn within one revision) and in which the revision number
    does not pass the largest one (the Rev at the start plus the number of
    successful updates and clears is a revision number), the message IDs
    returned have strictly increasing (Rev, Seq) pairs, in lexicographic
    order, and so are pairwise distinct; a call of NextMessageID that finds
    seq below the largest uint32 adds 1 to it and returns the ref with the
    new seq, and in such a history every successful update or clear adds 1
    to Rev.  (That it sets seq to 0 is what C1 states.) *)
Theorem message_ids_increase (bits : N) (c : localsession.catalog)
    (calls : list localsession.call) :
  localsession.seq_never_wraps bits c calls = true →
  localsession.rev_never_wraps bits c calls →
  let ids := localsession.message_ids (localsession.run bits c calls).2 in
  StronglySorted localsession.msg_lt ids
  ∧ NoDup ids
  ∧ (∀ c0 : localsession.catalog,
      localsession.seq c0 + 1 < 2 ^ 32 →
      localsession.NextMessageID c0
      = ({| localsession.ref := localsession.ref c0;
            localsession.attrs := localsession.attrs c0;
            localsession.seq := localsession.seq c0 + 1;
            localsession.done := localsession.done c0 |},
         (ident.Message (localsession.ref c0) (localsession.seq c0 + 1),
          localsession.attrs c0)))
  ∧ ident.Rev (localsession.ref (localsession.run bits c calls).1)
    = ident.Rev (localsession.ref c) + localsession.successes (localsession.run bits c calls).2.
Proof.
  intros Hw Hrev. destruct (run_message_ids bits c calls Hw Hrev) as (_ & ? & ?).
  split; [done|]. split; [done|]. split.
  - intros c0 Hsmall. unfold localsession.NextMessageID. simpl.
    by rewrite uint32_incr_small.
  - by apply run_rev_small.
Qed.

Lemma message_ids_increase_witness :
  let r0 := ident.At example_session 0 in
  let r1 := ident.At example_session 1 in
  let calls :=
    [localsession.CallNextMessageID; localsession.CallNextMessageID;
     localsession.CallTryUpdate r0 "ns" [rinq.Set_ "a" "1"];
     localsession.CallNextMessageID;
     localsession.CallTryUpdate r0 "ns" [rinq.Set_ "a" "2"];
     localsession.CallNextMessageID] in
  localsession.message_ids
    (localsession.run 32 (localsession.NewCatalog example_session) calls).2
  = [ident.Message r0 1; ident.Message r0 2; ident.Message r1 1; ident.Message r1 2]
  ∧ StronglySorted localsession.msg_lt
      (localsession.message_ids
         (localsession.run 32 (localsession.NewCatalog example_session) calls).2).
Proof.
  intros r0 r1 calls. split; [reflexivity|].
  apply (message_ids_increase 32 (localsession.NewCatalog example_session) calls).
  - reflexivity.
  - vm_compute. reflexivity.
Defined.

(** After [n] calls of NextMessageID the seq is the old one plus [n],
    modulo 2^32. *)
Lemma iter_next_state c n :
  N.iter n localsession.next_state c
  = {| localsession.ref := localsession.ref c;
       localsession.attrs := localsession.attrs c;
       localsession.seq := if decide (n = 0) then localsession.seq c
                           else (localsession.seq c + n) mod 2 ^ 32;
       localsession.done := localsession.done c |}.
Proof.
  induction n as [|n IH] using N.peano_ind.
  - by destruct c.
  - rewrite N.iter_succ, IH.
    unfold localsession.next_state, localsession.NextMessageID, localsession.uint32_incr.
    simpl. f_equal.
    rewrite (decide_False (P := N.succ n = 0)) by lia.
    case_decide as Hn.
    + subst n. by f_equal.
    + rewrite N.Div0.add_mod_idemp_l. f_equal. lia.
Qed.

(** C5 as stated fails where seq wraps.  The example state is the one a new
    catalog is in after 2^32 - 2 calls of NextMessageID; its next two calls
    return Seq 4294967295 and then Seq 0 at the same Rev, which is not an
    increase, and the call after that returns the ID that the first call on
    the new catalog returned. *)
Lemma message_ids_wrap_counterexample :
  N.iter 4294967294 localsession.next_state (localsession.NewCatalog example_session)
  = wrapping_catalog
  ∧ (localsession.NextMessageID (localsession.NewCatalog example_session)).2.1
    = ident.Message (ident.At example_session 0) 1
  ∧ localsession.message_ids
      (localsession.run 32 wrapping_catalog
         [localsession.CallNextMessageID; localsession.CallNextMessageID;
          localsession.CallNextMessageID]).2
    = [ident.Message (ident.At example_session 0) 4294967295;
       ident.Message (ident.At example_session 0) 0;
       ident.Message (ident.At example_session 0) 1]
  ∧ ¬ (∀ (c : localsession.catalog) (calls : list localsession.call),
         let ids := localsession.message_ids (localsession.run 32 c calls).2 in
         StronglySorted localsession.msg_lt ids ∧ NoDup ids).
Proof.
  split; [|split; [|split]].
  - rewrite iter_next_state. reflexivity.
  - reflexivity.
  - reflexivity.
  - intros H.
    destruct (H wrapping_catalog
      [localsession.CallNextMessageID; localsession.CallNextMessageID]) as [Hs _].
    vm_compute in Hs.
    apply StronglySorted_inv in Hs as [_ Hall].
    apply Forall_inv in Hall.
    destruct Hall as [E|[_ E]]; discriminate E.
Qed.

(** ** Constraints *)

Lemma match_pairs_Forall t pairs :
  attrmeta.match_pairs t pairs = true
  ↔ Forall (λ kv, attrmeta.value_at t kv.1 = kv.2) pairs.
Proof.
  induction pairs as [|[k v] rest IH]; simpl.
  - split; [constructor|done].
  - rewrite Forall_cons. simpl. case_decide as Hne.
    + split; [done|]. intros [Heq _]. by destruct Hne.
    + rewrite IH. unfold attrmeta.value_at, attrmeta.Value. tauto.
Qed.

(** The order of the range over the constraint does not matter. *)
Lemma match_pairs_Permutation t pairs pairs' :
  pairs ≡ₚ pairs' → attrmeta.match_pairs t pairs = attrmeta.match_pairs t pairs'.
Proof.
  intros Hperm. apply eq_true_iff_eq.
  rewrite !match_pairs_Forall. by rewrite Hperm.
Qed.

(** C7.  MatchConstraint is true exactly when every pair (k, v) of the
    constraint finds the value v under k in the table: the entry that the
    table holds for k has the Value v, and where the table holds no entry
    for k, v is "".  The empty constraint matches every table. *)
Theorem MatchConstraint_iff (t : attrmeta.Table) (constraint : rinq.Constraint) :
  (attrmeta.MatchConstraint t constraint = true
   ↔ ∀ k v, constraint !! k = Some v →
            match t !! k with
            | Some e => rinq.Value (attrmeta.attr e) = v
            | None => v = ""
            end)
  ∧ (attrmeta.MatchConstraint t constraint = true
     ↔ ∀ k v, constraint !! k = Some v → attrmeta.value_at t k = v)
  ∧ (∀ k e, t !! k = Some e → attrmeta.value_at t k = rinq.Value (attrmeta.attr e))
  ∧ (∀ k, t !! k = None → attrmeta.value_at t k = "")
  ∧ attrmeta.MatchConstraint t ∅ = true.
Proof.
  assert (Hiff : attrmeta.MatchConstraint t constraint = true
                 ↔ ∀ k v, constraint !! k = Some v → attrmeta.value_at t k = v).
  { unfold attrmeta.MatchConstraint. rewrite match_pairs_Forall, Forall_forall.
    split.
    - intros H k v Hk. by apply (H (k, v)), elem_of_map_to_list.
    - intros H [k v] Hin. by apply H, elem_of_map_to_list. }
  assert (Hval : ∀ k, attrmeta.value_at t k
                      = match t !! k with
                        | Some e => rinq.Value (attrmeta.attr e)
                        | None => ""
                        end).
  { intros k. unfold attrmeta.value_at, attrmeta.index. by destruct (t !! k). }
  split; [|split; [exact Hiff|split; [|split]]].
  - rewrite Hiff. split; intros H k v Hk; specialize (H k v Hk); rewrite Hval in *;
      by destruct (t !! k).
  - intros k e Hk. by rewrite Hval, Hk.
  - intros k Hk. by rewrite Hval, Hk.
  - unfold attrmeta.MatchConstraint. by rewrite map_to_list_empty.
Qed.

(** Scenario 5 of the spec: the constraint a = "1", b = "" matches the
    table a = 1 and rejects the table a = 2. *)
Lemma MatchConstraint_iff_witness :
  let constraint : rinq.Constraint := {[ "a" := "1"; "b" := "" ]} in
  let entry v := {| attrmeta.attr := rinq.Set_ "a" v;
                    attrmeta.CreatedAt := 1; attrmeta.UpdatedAt := 1 |} in
  attrmeta.MatchConstraint {[ "a" := entry "1" ]} constraint = true
  ∧ attrmeta.MatchConstraint {[ "a" := entry "2" ]} constraint = false.
Proof.
  intros constraint entry. split; [|reflexivity].
  apply (proj2 (proj1 (MatchConstraint_iff {[ "a" := entry "1" ]} constraint))).
  intros k v Hk. subst constraint.
  apply lookup_insert_Some in Hk as [[<- <-]|[_ Hk]]; [reflexivity|].
  apply lookup_singleton_Some in Hk as [<- <-]. reflexivity.
Defined.

(** ** The aggregate store and the placeholder *)

(** C8, as the code has it.  GetRevision hands on what the store selected
    for the ref returns; when that store is not configured it returns, with
    a nil error, the placeholder of the ref's session, so it returns a nil
    revision only when the selected store does.  The placeholder answers
    Refresh, Get, GetMany and Update with NotFound for its session ID, and
    its Close returns a nil error. *)
Theorem aggregate_store_placeholder (placeholder_rev : ident.Revision) :
  (∀ s r l, revisions.selected s r = Some l →
            revisions.GetRevision placeholder_rev s r = l r)
  ∧ (∀ s r, revisions.selected s r = None →
            revisions.GetRevision placeholder_rev s r
            = (Some (revision.closed (ident.At (ident.ID r) placeholder_rev)), None))
  ∧ (∀ s r, (revisions.GetRevision placeholder_rev s r).1 = None →
            ∃ l, revisions.selected s r = Some l ∧ (l r).1 = None)
  ∧ (∀ (p : revision.closedRevision) key keys proposed,
       revision.Refresh p = (None, Some (rinq.NotFoundError (ident.ID p)))
       ∧ revision.Get p key = (rinq.Attr_zero, Some (rinq.NotFoundError (ident.ID p)))
       ∧ revision.GetMany p keys = (None, Some (rinq.NotFoundError (ident.ID p)))
       ∧ revision.Update p proposed
         = (Some (revision.closed p), Some (rinq.NotFoundError (ident.ID p)))
       ∧ revision.Close p = None).
Proof.
  unfold revisions.selected, revisions.GetRevision.
  split; [|split; [|split]].
  - intros s r l. case_decide; by intros ->.
  - intros s r. case_decide; by intros ->.
  - intros s r. case_decide.
    + destruct (revisions.Local s) as [l|]; [eauto|done].
    + destruct (revisions.Remote s) as [l|]; [eauto|done].
  - done.
Qed.

Lemma aggregate_store_placeholder_witness :
  revisions.GetRevision 0 example_store (ident.At example_session 0)
  = (Some (revision.local
       {| localsession.rev_ref := ident.At example_session 0;
          localsession.rev_attrs := ∅ |}), None)
  ∧ revisions.GetRevision 0 example_store
      (ident.At {| ident.Peer := {| ident.Clock := 2; ident.Rand := 1 |}; ident.Seq := 1 |} 3)
    = (Some (revision.closed
         (ident.At {| ident.Peer := {| ident.Clock := 2; ident.Rand := 1 |}; ident.Seq := 1 |} 0)),
       None).
Proof.
  split.
  - apply (proj1 (aggregate_store_placeholder 0) example_store (ident.At example_session 0)
             (revisions.catalog_store (localsession.NewCatalog example_session))).
    reflexivity.
  - apply (proj1 (proj2 (aggregate_store_placeholder 0))). reflexivity.
Defined.

(** A ref of the store's own peer is never handed to the remote store:
    without a local store it gets the placeholder even when a remote store
    is configured. *)
Lemma GetRevision_own_peer_example :
  let s := revisions.NewAggregateStore (ident.Peer example_session) None
             (Some (revisions.catalog_store (localsession.NewCatalog example_session))) in
  revisions.GetRevision 0 s (ident.At example_session 0)
  = (Some (revision.closed (ident.At example_session 0)), None).
Proof. reflexivity. Qed.

(** C8 as stated fails: a local store that answers from a catalog through
    [Catalog.At] returns a nil revision, with the error "revision is from
    the future", for a ref above the catalog's revision, and GetRevision
    hands that on. *)
Lemma GetRevision_nil_counterexample :
  ¬ (∀ (placeholder_rev : ident.Revision) (s : revisions.AggregateStore) (r : ident.Ref),
       (revisions.GetRevision placeholder_rev s r).1 ≠ None).
Proof.
  intros H. apply (H 0 example_store (ident.At example_session 5)). reflexivity.
Qed.

(** ** Responses *)

Lemma respond_closes r e msg :
  commandamqp.isClosed (commandamqp.respond r e msg).1 = true.
Proof.
  unfold commandamqp.respond. simpl.
  repeat (case_decide || case_match); done.
Qed.

Lemma respond_published r e msg :
  commandamqp.published (commandamqp.respond r e msg).1 = commandamqp.published r
  ∨ commandamqp.published (commandamqp.respond r e msg).1 = commandamqp.published r ++ [msg].
Proof.
  unfold commandamqp.respond. simpl.
  repeat (case_decide || case_match); simpl; auto.
Qed.

(** What a completion call does to an open and to a closed response. *)
Lemma complete_open r e k :
  commandamqp.isClosed r = false →
  commandamqp.isClosed (commandamqp.complete r e k).1 = true
  ∧ (length (commandamqp.published (commandamqp.complete r e k).1)
     ≤ length (commandamqp.published r) + 1)%nat.
Proof.
  intros Hopen.
  pose proof (respond_closes r e) as Hc. pose proof (respond_published r e) as Hp.
  destruct k as [p|err|t m|]; simpl;
    unfold commandamqp.Done, commandamqp.Fail, commandamqp.Error, commandamqp.Close;
    rewrite Hopen.
  - specialize (Hc (commandamqp.successResponse p)).
    specialize (Hp (commandamqp.successResponse p)).
    destruct (commandamqp.respond r e _) as [r' [[]|v]]; simpl in *;
      (split; [done|]); destruct Hp as [-> | ->]; rewrite ?length_app; simpl; lia.
  - specialize (Hc (commandamqp.errorResponse err)).
    specialize (Hp (commandamqp.errorResponse err)).
    destruct (commandamqp.respond r e _) as [r' [[]|v]]; simpl in *;
      (split; [done|]); destruct Hp as [-> | ->]; rewrite ?length_app; simpl; lia.
  - specialize (Hc (commandamqp.errorResponse (commandamqp.Failure t m))).
    specialize (Hp (commandamqp.errorResponse (commandamqp.Failure t m))).
    destruct (commandamqp.respond r e _) as [r' [[]|v]]; simpl in *;
      (split; [done|]); destruct Hp as [-> | ->]; rewrite ?length_app; simpl; lia.
  - specialize (Hc (commandamqp.successResponse None)).
    specialize (Hp (commandamqp.successResponse None)).
    destruct (commandamqp.respond r e _) as [r' [[]|v]]; simpl in *;
      (split; [done|]); destruct Hp as [-> | ->]; rewrite ?length_app; simpl; lia.
Qed.

Lemma complete_closed r e k :
  commandamqp.isClosed r = true →
  (commandamqp.complete r e k).1 = r.
Proof.
  intros Hclosed.
  destruct k; simpl;
    unfold commandamqp.Done, commandamqp.Fail, commandamqp.Error, commandamqp.Close;
    by rewrite Hclosed.
Qed.

Lemma complete_all_closed r calls :
  commandamqp.isClosed r = true → commandamqp.complete_all r calls = r.
Proof.
  induction calls as [|[e k] rest IH]; simpl; [done|].
  intros Hclosed. rewrite complete_closed by done. by apply IH.
Qed.

(** C9, as the code has it.  The first of Done, Error, Fail and Close on an
    open response marks it closed, whether the call returns or panics while
    it sends.  On a closed response Done, Error and Fail panic with
    "responder is already closed" and Close returns false without a panic;
    none of the four changes the response.  Over any history of these calls
    at most one message is published. *)
Theorem response_completes_once :
  (∀ r e k, commandamqp.isClosed r = false →
            commandamqp.isClosed (commandamqp.complete r e k).1 = true)
  ∧ (∀ r e payload err t message,
       commandamqp.isClosed r = true →
       commandamqp.Done r e payload
       = (r, commandamqp.Panicked "responder is already closed")
       ∧ commandamqp.Error r e err
         = (r, commandamqp.Panicked "responder is already closed")
       ∧ commandamqp.Fail r e t message
         = (r, commandamqp.Panicked "responder is already closed")
       ∧ commandamqp.Close r e = (r, commandamqp.Returned false))
  ∧ (∀ m calls,
       (length (commandamqp.published
                  (commandamqp.complete_all (commandamqp.newResponse m) calls)) ≤ 1)%nat).
Proof.
  split; [|split].
  - intros r e k Hopen. by apply complete_open.
  - intros r e payload err t message Hclosed.
    unfold commandamqp.Done, commandamqp.Fail, commandamqp.Error, commandamqp.Close.
    by rewrite Hclosed.
  - intros m [|[e k] rest]; simpl; [lia|].
    destruct (complete_open (commandamqp.newResponse m) e k eq_refl) as [Hclosed Hlen].
    rewrite complete_all_closed by done. simpl in Hlen. lia.
Qed.

Lemma response_completes_once_witness :
  let e := {| commandamqp.PackDeadline_err := None; commandamqp.Get_err := None;
              commandamqp.PackSpanContext_err := None; commandamqp.Publish_err := None |} in
  let r := (commandamqp.complete (commandamqp.newResponse commandamqp.replyOther) e
              (commandamqp.CallDone (Some "payload"))).1 in
  commandamqp.isClosed r = true
  ∧ commandamqp.published r = [commandamqp.successResponse (Some "payload")]
  ∧ commandamqp.Error r e (commandamqp.otherError "late")
    = (r, commandamqp.Panicked "responder is already closed")
  ∧ commandamqp.Close r e = (r, commandamqp.Returned false).
Proof.
  intros e r.
  split; [|split; [reflexivity|]].
  - apply (proj1 response_completes_once
             (commandamqp.newResponse commandamqp.replyOther) e
             (commandamqp.CallDone (Some "payload"))).
    reflexivity.
  - destruct (proj1 (proj2 response_completes_once) r e None
                (commandamqp.otherError "late") "" "" eq_refl) as (_ & HError & _ & HClose).
    split; [exact HError|exact HClose].
Defined.

(** C9 as stated fails for Close: on a response that Done has closed,
    Close returns false and does not panic. *)
Lemma Close_after_close_counterexample :
  ¬ (∀ (r : commandamqp.response) (e : commandamqp.env) (k : commandamqp.completion),
       commandamqp.isClosed r = true → (commandamqp.complete r e k).2 = true).
Proof.
  intros H.
  pose (e := {| commandamqp.PackDeadline_err := None; commandamqp.Get_err := None;
                commandamqp.PackSpanContext_err := None; commandamqp.Publish_err := None |}).
  specialize (H (commandamqp.Done (commandamqp.newResponse commandamqp.replyOther) e None).1
                e commandamqp.CallClose eq_refl).
  discriminate H.
Qed.

(** ** Payloads *)

Lemma alter_lookup_insert {A} (f : A → A) (m : gmap positive A) i x :
  m !! i = Some x → alter f i m = <[i := f x]> m.
Proof.
  intros Hi. apply map_eq. intros j. destruct (decide (i = j)) as [<-|Hne].
  - by rewrite lookup_alter_eq, lookup_insert_eq, Hi.
  - by rewrite lookup_alter_ne, lookup_insert_ne.
Qed.

Lemma data_of_live m l d :
  payload.payloads m !! l = Some (Some d) → payload.data_of m l = Some d.
Proof. unfold payload.data_of. by intros ->. Qed.

(** [Clone] of a live payload. *)
Lemma Clone_live bits m l d pd :
  payload.payloads m !! l = Some (Some d) →
  payload.datas m !! d = Some pd →
  payload.Clone bits m (Some l)
  = ({| payload.payloads :=
          <[fresh (dom (payload.payloads m)) := Some d]> (payload.payloads m);
        payload.datas :=
          <[d := payload.with_refCount pd (payload.uint_incr bits (payload.refCount pd))]>
            (payload.datas m);
        payload.pool := payload.pool m |},
     Some (fresh (dom (payload.payloads m)))).
Proof.
  intros Hl Hd. unfold payload.Clone. rewrite (data_of_live _ _ _ Hl).
  unfold payload.new_payload. simpl.
  by rewrite (alter_lookup_insert _ _ _ _ Hd).
Qed.

(** [Close] of a live payload. *)
Lemma Close_live bits m l d pd :
  payload.payloads m !! l = Some (Some d) →
  payload.datas m !! d = Some pd →
  payload.Close bits m (Some l)
  = {| payload.payloads := <[l := None]> (payload.payloads m);
       payload.datas :=
         <[d := payload.with_refCount pd (payload.uint_decr bits (payload.refCount pd))]>
           (payload.datas m);
       payload.pool :=
         match payload.buffer pd with
         | Some b =>
             if decide (payload.uint_decr bits (payload.refCount pd) = 0)
             then b :: payload.pool m else payload.pool m
         | None => payload.pool m
         end |}.
Proof.
  intros Hl Hd. unfold payload.Close. rewrite (data_of_live _ _ _ Hl).
  rewrite (alter_lookup_insert _ _ _ _ Hd), lookup_insert_eq. done.
Qed.

Lemma uint_incr_small bits n : n + 1 < 2 ^ bits → payload.uint_incr bits n = n + 1.
Proof. intros H. unfold payload.uint_incr. by apply N.mod_small. Qed.

Lemma uint_decr_small bits n : 0 < n → n < 2 ^ bits → payload.uint_decr bits n = n - 1.
Proof.
  intros Hpos Hlt. unfold payload.uint_decr.
  replace (n + 2 ^ bits - 1) with ((n - 1) + 1 * 2 ^ bits) by lia.
  rewrite N.Div0.mod_add. apply N.mod_small. lia.
Qed.

(** C10, as the code has it.  Clone of a live payload — the pointer is not
    nil and the payload is not closed — returns a new payload on the same
    data and adds exactly 1 to the data's count while the count is below
    the largest uint.  Close of a live payload whose data has a count of at
    least 1 marks the payload closed, takes exactly 1 off the count, and
    puts the data's buffer, if it has one, into the pool exactly when the
    new count is 0.  Clone and Close of a nil or closed payload change
    nothing (and Clone returns nil). *)
Theorem payload_reference_counting (bits : N) :
  (∀ m l d pd,
     payload.payloads m !! l = Some (Some d) →
     payload.datas m !! d = Some pd →
     payload.refCount pd + 1 < 2 ^ bits →
     ∃ m' l',
       payload.Clone bits m (Some l) = (m', Some l')
       ∧ payload.payloads m !! l' = None
       ∧ payload.payloads m' = <[l' := Some d]> (payload.payloads m)
       ∧ payload.datas m'
         = <[d := payload.with_refCount pd (payload.refCount pd + 1)]> (payload.datas m)
       ∧ payload.pool m' = payload.pool m)
  ∧ (∀ m l d pd,
       payload.payloads m !! l = Some (Some d) →
       payload.datas m !! d = Some pd →
       0 < payload.refCount pd < 2 ^ bits →
       payload.Close bits m (Some l)
       = {| payload.payloads := <[l := None]> (payload.payloads m);
            payload.datas :=
              <[d := payload.with_refCount pd (payload.refCount pd - 1)]> (payload.datas m);
            payload.pool :=
              match payload.buffer pd with
              | Some b =>
                  if decide (payload.refCount pd - 1 = 0)
                  then b :: payload.pool m else payload.pool m
              | None => payload.pool m
              end |})
  ∧ (∀ m, payload.Close bits m None = m ∧ payload.Clone bits m None = (m, None))
  ∧ (∀ m l,
       payload.payloads m !! l = Some None →
       payload.Close bits m (Some l) = m ∧ payload.Clone bits m (Some l) = (m, None)).
Proof.
  split; [|split; [|split]].
  - intros m l d pd Hl Hd Hsmall.
    rewrite (Clone_live _ _ _ _ _ Hl Hd), uint_incr_small by done.
    eexists _, _. split; [done|]. simpl. split; [|done].
    apply not_elem_of_dom, is_fresh.
  - intros m l d pd Hl Hd [Hpos Hlt].
    by rewrite (Close_live _ _ _ _ _ Hl Hd), uint_decr_small.
  - done.
  - intros m l Hl. unfold payload.Close, payload.Clone, payload.data_of.
    by rewrite Hl.
Qed.

Lemma payload_reference_counting_witness :
  let pd n := {| payload.buffer := Some [Byte.x2a]; payload.value_ := payload.nilValue;
                 payload.hasValue := false; payload.refCount := n |} in
  (∃ m' l',
     payload.Clone 64 one_payload (Some 1%positive) = (m', Some l')
     ∧ payload.payloads one_payload !! l' = None
     ∧ payload.payloads m' = <[l' := Some 1%positive]> (payload.payloads one_payload)
     ∧ payload.datas m' = <[1%positive := pd 2]> (payload.datas one_payload)
     ∧ payload.pool m' = payload.pool one_payload)
  ∧ payload.Close 64 one_payload (Some 1%positive)
    = {| payload.payloads := <[1%positive := None]> (payload.payloads one_payload);
         payload.datas := <[1%positive := pd 0]> (payload.datas one_payload);
         payload.pool := [[Byte.x2a]] |}
  ∧ payload.Close 64 (payload.Close 64 one_payload (Some 1%positive)) (Some 1%positive)
    = payload.Close 64 one_payload (Some 1%positive).
Proof.
  intros pd. split; [|split].
  - apply (proj1 (payload_reference_counting 64) one_payload 1%positive 1%positive (pd 1)).
    + reflexivity.
    + reflexivity.
    + reflexivity.
  - apply (proj1 (proj2 (payload_reference_counting 64))
             one_payload 1%positive 1%positive (pd 1)).
    + reflexivity.
    + reflexivity.
    + split; reflexivity.
  - apply (proj2 (proj2 (proj2 (payload_reference_counting 64)))).
    reflexivity.
Defined.

(** The last close of a payload returns its buffer to the pool; the closes
    before it and a second close of the same payload do not. *)
Lemma payload_close_example :
  let '(m1, p2) := payload.Clone 64 one_payload (Some 1%positive) in
  let m2 := payload.Close 64 m1 (Some 1%positive) in
  let m3 := payload.Close 64 m2 (Some 1%positive) in
  let m4 := payload.Close 64 m3 p2 in
  payload.refCount_at m1 1 = Some 2
  ∧ payload.refCount_at m2 1 = Some 1 ∧ payload.pool m2 = []
  ∧ m3 = m2
  ∧ payload.refCount_at m4 1 = Some 0 ∧ payload.pool m4 = [[Byte.x2a]].
Proof. vm_compute. repeat split. Qed.

(** After [n] clones of a live payload the payload is still live and the
    count of its data is the old one plus [n], modulo the size of a uint. *)
Lemma iter_clone_state bits l d pd m n :
  payload.payloads m !! l = Some (Some d) →
  payload.datas m !! d = Some pd →
  payload.payloads (N.iter n (payload.clone_state bits l) m) !! l = Some (Some d)
  ∧ payload.datas (N.iter n (payload.clone_state bits l) m) !! d
    = Some (payload.with_refCount pd
              (if decide (n = 0) then payload.refCount pd
               else (payload.refCount pd + n) mod 2 ^ bits)).
Proof.
  intros Hl Hd. induction n as [|n [IHl IHd]] using N.peano_ind.
  - simpl. split; [done|]. rewrite Hd. by destruct pd.
  - rewrite N.iter_succ. unfold payload.clone_state at 1 3.
    rewrite (Clone_live _ _ _ _ _ IHl IHd). simpl. split.
    + rewrite lookup_insert_ne; [done|].
      intros Heq. apply (is_fresh (dom (payload.payloads
        (N.iter n (payload.clone_state bits l) m)))).
      rewrite Heq. apply elem_of_dom. eauto.
    + rewrite lookup_insert_eq. unfold payload.with_refCount, payload.uint_incr. simpl.
      do 2 f_equal.
      rewrite (decide_False (P := N.succ n = 0)) by lia.
      case_decide as Hn.
      * subst n. by f_equal.
      * rewrite N.Div0.add_mod_idemp_l. f_equal. lia.
Qed.

(** C10 as stated fails where the count wraps.  With a 32-bit uint, the
    data of a new payload has the count 4294967295 after 2^32 - 2 clones,
    and one more clone takes the count to 0, not to 4294967296. *)
Lemma Clone_wraps_counterexample :
  let m := N.iter 4294967294 (payload.clone_state 32 1%positive) one_payload in
  payload.payloads m !! 1%positive = Some (Some 1%positive)
  ∧ payload.refCount_at m 1 = Some 4294967295
  ∧ payload.refCount_at (payload.Clone 32 m (Some 1%positive)).1 1 = Some 0
  ∧ ¬ (∀ (bits : N) (m : payload.memory) (l d : positive) (n : N),
         payload.payloads m !! l = Some (Some d) →
         payload.refCount_at m d = Some n →
         payload.refCount_at (payload.Clone bits m (Some l)).1 d = Some (n + 1)).
Proof.
  intros m.
  destruct (iter_clone_state 32 1%positive 1%positive
              {| payload.buffer := Some [Byte.x2a]; payload.value_ := payload.nilValue;
                 payload.hasValue := false; payload.refCount := 1 |}
              one_payload 4294967294 eq_refl eq_refl) as [Hl Hd].
  fold m in Hl, Hd. clearbody m.
  rewrite (decide_False (P := 4294967294 = 0)) in Hd by discriminate.
  change ((payload.refCount
             {| payload.buffer := Some [Byte.x2a]; payload.value_ := payload.nilValue;
                payload.hasValue := false; payload.refCount := 1 |} + 4294967294)
          mod 2 ^ 32) with 4294967295 in Hd.
  assert (Hcount : payload.refCount_at m 1 = Some 4294967295).
  { unfold payload.refCount_at. by rewrite Hd. }
  assert (Hclone : payload.refCount_at (payload.Clone 32 m (Some 1%positive)).1 1 = Some 0).
  { rewrite (Clone_live _ _ _ _ _ Hl Hd). unfold payload.refCount_at. simpl.
    by rewrite lookup_insert_eq. }
  split; [exact Hl|]. split; [exact Hcount|]. split; [exact Hclone|].
  intros H. specialize (H 32 m 1%positive 1%positive 4294967295 Hl Hcount).
  rewrite Hclone in H. discriminate H.
Qed.

(** An instance: x is frozen at "" in the first update; a refused change
    of x, a clear and another update later it still reads ("", frozen). *)
Lemma frozen_attribute_never_changes_witness :
  let r n := ident.At example_session n in
  let before := [localsession.CallTryUpdate (r 0) "ns" [rinq.Freeze "x" ""; rinq.Set_ "a" "1"]] in
  let after :=
    [localsession.CallTryUpdate (r 1) "ns" [rinq.Set_ "x" "w"];
     localsession.CallTryClear (r 1) "ns";
     localsession.CallTryUpdate (r 2) "ns" [rinq.Set_ "b" "2"]] in
  let c := (localsession.run 32 (localsession.NewCatalog example_session) before).1 in
  let c' := (localsession.run 32 c after).1 in
  ident.Rev (localsession.ref c') = 3
  ∧ localsession.observe c' "ns" "x" = ("", true).
Proof.
  intros r before after c c'. split; [reflexivity|].
  exact (frozen_attribute_never_changes 32 example_session before after "ns" "x" eq_refl).
Defined.

(** * Further properties of the modelled code *)

(** ** The catalog: closing, stale refs, heads *)

Lemma exec_closed bits c k :
  localsession.done c = true →
  localsession.ref (localsession.exec bits c k).1 = localsession.ref c
  ∧ localsession.attrs (localsession.exec bits c k).1 = localsession.attrs c
  ∧ localsession.done (localsession.exec bits c k).1 = true
  ∧ localsession.all_not_found (ident.ID (localsession.ref c)) [(localsession.exec bits c k).2].
Proof.
  intros Hdone. unfold localsession.all_not_found.
  destruct k as [|r ns proposed|r ns|r|]; simpl.
  - repeat split; try done. by repeat constructor.
  - unfold localsession.TryUpdate. rewrite Hdone. simpl.
    repeat split; try done. by repeat constructor.
  - unfold localsession.TryClear. rewrite Hdone. simpl.
    repeat split; try done. by repeat constructor.
  - unfold localsession.TryDestroy. case_decide; simpl;
      (repeat split; try done); by repeat constructor.
  - repeat split; try done. by repeat constructor.
Qed.

Lemma run_closed bits (c : localsession.catalog) (calls : list localsession.call) :
  localsession.done c = true →
  localsession.ref (localsession.run bits c calls).1 = localsession.ref c
  ∧ localsession.attrs (localsession.run bits c calls).1 = localsession.attrs c
  ∧ localsession.done (localsession.run bits c calls).1 = true
  ∧ localsession.all_not_found (ident.ID (localsession.ref c)) (localsession.run bits c calls).2.
Proof.
  revert c. induction calls as [|k rest IH]; intros c Hdone.
  - simpl. repeat split; try done. constructor.
  - rewrite run_cons. cbn [fst snd].
    destruct (exec_closed bits c k Hdone) as (Hr & Ha & Hd & Hn).
    destruct (IH _ Hd) as (Hr' & Ha' & Hd' & Hn').
    rewrite Hr', Ha', Hr, Ha. repeat split; try done.
    unfold localsession.all_not_found in *. rewrite Hr in Hn'.
    apply Forall_cons. split; [by apply Forall_inv in Hn|done].
Qed.

(** A closed catalog stays as it is: whatever is called on it, its ref and
    its table do not change, it stays closed, and every TryUpdate and
    TryClear is refused with NotFound for its session, also one that names
    a stale ref.  (NextMessageID still counts.) *)
Theorem closed_catalog_never_changes bits (c : localsession.catalog)
    (calls : list localsession.call) :
  localsession.done c = true →
  localsession.ref (localsession.run bits c calls).1 = localsession.ref c
  ∧ localsession.attrs (localsession.run bits c calls).1 = localsession.attrs c
  ∧ localsession.done (localsession.run bits c calls).1 = true
  ∧ localsession.all_not_found (ident.ID (localsession.ref c)) (localsession.run bits c calls).2.
Proof. exact (run_closed bits c calls). Qed.

Lemma closed_catalog_never_changes_witness :
  let c := localsession.Close example_catalog in
  let out := localsession.run 32 c
    [localsession.CallTryUpdate (ident.At example_session 1) "ns" [rinq.Set_ "a" "2"];
     localsession.CallTryClear (ident.At example_session 0) "ns";
     localsession.CallNextMessageID] in
  localsession.attrs out.1 = localsession.attrs example_catalog
  ∧ localsession.all_not_found example_session out.2.
Proof.
  intros c out.
  destruct (closed_catalog_never_changes 32 c
    [localsession.CallTryUpdate (ident.At example_session 1) "ns" [rinq.Set_ "a" "2"];
     localsession.CallTryClear (ident.At example_session 0) "ns";
     localsession.CallNextMessageID] eq_refl) as (_ & Ha & _ & Hn).
  split; [exact Ha|exact Hn].
Defined.

(** TryDestroy is refused exactly when its ref is not the current one, on
    a closed catalog too, and then leaves the catalog as it is.  With the
    current ref it ends the session: whatever is called afterwards, the
    ref and the table stay as they were at the call and every TryUpdate
    and TryClear is refused with NotFound.  Close does the same with no
    ref to check. *)
Theorem TryDestroy_ends_session bits (c : localsession.catalog) (r : ident.Ref)
    (calls : list localsession.call) :
  ((localsession.TryDestroy c r).2 = None ↔ r = localsession.ref c)
  ∧ (r ≠ localsession.ref c →
     localsession.TryDestroy c r = (c, Some (rinq.StaleUpdateError r)))
  ∧ (r = localsession.ref c →
     let out := localsession.run bits (localsession.TryDestroy c r).1 calls in
     localsession.ref out.1 = localsession.ref c
     ∧ localsession.attrs out.1 = localsession.attrs c
     ∧ localsession.all_not_found (ident.ID (localsession.ref c)) out.2)
  ∧ (let out := localsession.run bits (localsession.Close c) calls in
     localsession.ref out.1 = localsession.ref c
     ∧ localsession.attrs out.1 = localsession.attrs c
     ∧ localsession.all_not_found (ident.ID (localsession.ref c)) out.2).
Proof.
  assert (Hclose : let out := localsession.run bits (localsession.Close c) calls in
     localsession.ref out.1 = localsession.ref c
     ∧ localsession.attrs out.1 = localsession.attrs c
     ∧ localsession.all_not_found (ident.ID (localsession.ref c)) out.2).
  { intros out. destruct (run_closed bits (localsession.Close c) calls eq_refl) as (Hr & Ha & _ & Hn).
    done. }
  unfold localsession.TryDestroy. case_decide as Hr; simpl.
  - split; [split; [done|by intros ->]|]. split; [done|]. split; [done|exact Hclose].
  - split; [done|]. split; [done|]. split; [intros _; exact Hclose|exact Hclose].
Qed.

Lemma TryDestroy_ends_session_witness :
  let out := localsession.run 32
    (localsession.TryDestroy example_catalog (localsession.ref example_catalog)).1
    [localsession.CallTryUpdate (localsession.ref example_catalog) "ns" [rinq.Set_ "a" "2"]] in
  localsession.attrs out.1 = localsession.attrs example_catalog
  ∧ localsession.TryDestroy example_catalog (ident.At example_session 7)
    = (example_catalog, Some (rinq.StaleUpdateError (ident.At example_session 7))).
Proof.
  intros out.
  destruct (TryDestroy_ends_session 32 example_catalog (localsession.ref example_catalog)
    [localsession.CallTryUpdate (localsession.ref example_catalog) "ns" [rinq.Set_ "a" "2"]])
    as (_ & _ & Hcur & _).
  destruct (TryDestroy_ends_session 32 example_catalog (ident.At example_session 7) [])
    as (_ & Hstale & _).
  split.
  - exact (proj1 (proj2 (Hcur eq_refl))).
  - apply Hstale. vm_compute. intros H. discriminate H.
Defined.

(** Adding a number between 0 and the modulus changes a residue. *)
Lemma mod_add_ne (M a d : N) : 0 < d → d < M → (a + d) mod M ≠ a.
Proof.
  intros Hd HM Heq.
  assert (Ha : a < M) by (rewrite <- Heq; apply N.mod_lt; lia).
  destruct (decide (a + d < M)) as [Hsmall|Hbig].
  - rewrite N.mod_small in Heq by done. lia.
  - replace (a + d) with ((a + d - M) + 1 * M) in Heq by lia.
    rewrite N.Div0.mod_add, N.mod_small in Heq by lia. lia.
Qed.

(** A ref is good for one update.  Once a TryUpdate or TryClear with the
    ref [r] has succeeded, a later TryUpdate or TryClear with [r] fails and
    leaves the catalog as it finds it, whatever was called in between, as
    long as fewer than 2^bits - 1 updates and clears succeeded in between:
    after 2^bits - 1 of them the revision number is back at the one of
    [r]. *)
Theorem ref_succeeds_at_most_once (bits : N) (c : localsession.catalog)
    (k k' : localsession.call) (calls : list localsession.call) (r : ident.Ref) :
  localsession.update_ref k = Some r →
  localsession.succeeded (localsession.exec bits c k).2 = true →
  localsession.update_ref k' = Some r →
  localsession.successes (localsession.run bits (localsession.exec bits c k).1 calls).2 + 1
    < 2 ^ bits →
  let c' := (localsession.run bits (localsession.exec bits c k).1 calls).1 in
  localsession.succeeded (localsession.exec bits c' k').2 = false
  ∧ (localsession.exec bits c' k').1 = c'.
Proof.
  intros Hk Hok Hk' Hfew c'.
  assert (Hr : r = localsession.ref c).
  { destruct k as [|r0 ns proposed|r0 ns|r0|]; simpl in Hk, Hok; try done;
      injection Hk as ->.
    - unfold localsession.TryUpdate in Hok.
      destruct (localsession.done c); [done|]. by case_decide.
    - unfold localsession.TryClear in Hok.
      destruct (localsession.done c); [done|]. by case_decide. }
  assert (Hne : r ≠ localsession.ref c').
  { intros Heq. apply (f_equal ident.Rev) in Heq. rewrite Hr in Heq.
    destruct (exec_rev bits c k) as [Hrev _]. rewrite Hok in Hrev.
    assert (Hc1 : ident.Rev (localsession.ref (localsession.exec bits c k).1) < 2 ^ bits).
    { rewrite Hrev. apply N.mod_lt. by apply N.pow_nonzero. }
    destruct (run_rev bits (localsession.exec bits c k).1 calls Hc1) as [HRev _].
    fold c' in HRev. rewrite HRev, Hrev, N.Div0.add_mod_idemp_l, <- N.add_assoc in Heq.
    symmetry in Heq. revert Heq. apply mod_add_ne; lia. }
  destruct k' as [|r0 ns proposed|r0 ns|r0|]; simpl in Hk'; try done;
    injection Hk' as ->; simpl.
  - unfold localsession.TryUpdate.
    destruct (localsession.done c'); [done|]. by rewrite decide_True.
  - unfold localsession.TryClear.
    destruct (localsession.done c'); [done|]. by rewrite decide_True.
Qed.

Lemma ref_succeeds_at_most_once_witness :
  let r0 := ident.At example_session 0 in
  let c := localsession.NewCatalog example_session in
  let c' := (localsession.run 32
               (localsession.exec 32 c (localsession.CallTryUpdate r0 "ns" [rinq.Set_ "a" "1"])).1
               [localsession.CallNextMessageID]).1 in
  localsession.succeeded
    (localsession.exec 32 c' (localsession.CallTryUpdate r0 "ns" [rinq.Set_ "a" "2"])).2 = false.
Proof.
  intros r0 c c'.
  apply (ref_succeeds_at_most_once 32 c
           (localsession.CallTryUpdate r0 "ns" [rinq.Set_ "a" "1"])
           (localsession.CallTryUpdate r0 "ns" [rinq.Set_ "a" "2"])
           [localsession.CallNextMessageID] r0); reflexivity.
Defined.

(** The head is the revision at the current number, and the revision a
    successful TryUpdate or TryClear returns is the head after the call. *)
Theorem Head_is_At_current bits :
  (∀ c, localsession.At c (ident.Rev (localsession.ref c)) = (Some (localsession.Head c), None))
  ∧ (∀ c r ns proposed rv d,
       (localsession.TryUpdate bits c r ns proposed).2 = (Some rv, d, None) →
       rv = localsession.Head (localsession.TryUpdate bits c r ns proposed).1)
  ∧ (∀ c r ns rv d,
       (localsession.TryClear bits c r ns).2 = (Some rv, d, None) →
       rv = localsession.Head (localsession.TryClear bits c r ns).1).
Proof.
  split; [|split].
  - intros c. unfold localsession.At, localsession.Head, ident.At.
    rewrite decide_False by lia. by destruct (localsession.ref c).
  - intros c r ns proposed rv d. unfold localsession.TryUpdate.
    destruct (localsession.done c); [done|]. case_decide; [done|].
    destruct (localsession.update_attrs _ _ _ _ _) as [e|[m d']]; [done|].
    unfold localsession.commit. simpl. by intros [= <- _].
  - intros c r ns rv d. unfold localsession.TryClear.
    destruct (localsession.done c); [done|]. case_decide; [done|].
    destruct (localsession.clear_attrs _ _ _ _ _) as [e|[m d']]; [done|].
    unfold localsession.commit. simpl. by intros [= <- _].
Qed.

Lemma Head_is_At_current_witness :
  ∃ rv d, (localsession.TryUpdate 32 (localsession.NewCatalog example_session)
             (ident.At example_session 0) "ns" [rinq.Set_ "a" "1"]).2 = (Some rv, d, None)
          ∧ rv = localsession.Head example_catalog.
Proof.
  eexists _, _. split; [reflexivity|].
  apply (proj1 (proj2 (Head_is_At_current 32)) (localsession.NewCatalog example_session)
           (ident.At example_session 0) "ns" [rinq.Set_ "a" "1"] _ _ eq_refl).
Defined.

(** ** The catalog: when an update and a clear are refused *)

Lemma clear_attrs_inl_iff r nextRev entries m d :
  (∃ e, localsession.clear_attrs r nextRev entries m d = inl e)
  ↔ Exists (λ e, attrmeta.IsFrozen e = true ∧ attrmeta.Value e ≠ "") entries.
Proof.
  revert m d. induction entries as [|a rest IH]; intros m d; simpl.
  - rewrite Exists_nil. split; [by intros [e ?]|done].
  - rewrite Exists_cons. case_decide as Hv.
    + destruct (attrmeta.IsFrozen a) eqn:Hf.
      * split; [by left|eauto].
      * rewrite IH. split; [by right|]. intros [[? _]|?]; done.
    + rewrite IH. split; [by right|]. intros [[_ ?]|?]; done.
Qed.

Lemma elem_of_range_values_inv (m : attrmeta.Namespace) e :
  e ∈ localsession.range_values m → ∃ k, m !! k = Some e.
Proof.
  unfold localsession.range_values. intros Hin.
  apply list_elem_of_fmap in Hin as ([k e'] & -> & Hin).
  exists k. by apply elem_of_map_to_list.
Qed.

(** On an open catalog, with the current ref, TryClear is refused exactly
    when the namespace holds a frozen attribute whose value is not empty;
    the refusal is FrozenAttributes for the ref and changes nothing.  A
    frozen attribute with an empty value does not stand in the way. *)
Theorem TryClear_refused_iff bits (c : localsession.catalog) (ns : string) :
  localsession.done c = false →
  (localsession.TryClear bits c (localsession.ref c) ns
   = (c, (None, None, Some (rinq.FrozenAttributesError (localsession.ref c) [])))
   ↔ localsession.frozen_value (attrmeta.namespace_of (localsession.attrs c) ns))
  ∧ (localsession.succeeded (localsession.ReplyUpdate
       (localsession.TryClear bits c (localsession.ref c) ns).2) = true
     ↔ ¬ localsession.frozen_value (attrmeta.namespace_of (localsession.attrs c) ns)).
Proof.
  intros Hopen. unfold localsession.TryClear. rewrite Hopen.
  rewrite decide_False by (by intros ?).
  set (m := attrmeta.namespace_of (localsession.attrs c) ns).
  assert (Hiff : (∃ e, localsession.clear_attrs (localsession.ref c)
                    ((ident.Rev (localsession.ref c) + 1) mod 2 ^ bits)
                    (localsession.range_values m) ∅
                    (attrmeta.NewDiff ns ((ident.Rev (localsession.ref c) + 1) mod 2 ^ bits) (size (∅ : attrmeta.Namespace)))
                    = inl e)
                 ↔ localsession.frozen_value m).
  { rewrite clear_attrs_inl_iff, Exists_exists. unfold localsession.frozen_value. split.
    - intros (e & Hin & Hf & Hv). apply elem_of_range_values_inv in Hin as [k Hk]. eauto.
    - intros (k & e & Hk & Hf & Hv). exists e. split; [|done].
      by eapply elem_of_range_values. }
  destruct (localsession.clear_attrs _ _ _ _ _) as [e|[m' d']] eqn:Hloop.
  - pose proof (clear_attrs_inl _ _ _ _ _ _ Hloop) as ->.
    assert (Hfv : localsession.frozen_value m) by (apply Hiff; eauto).
    simpl. split; [done|]. split; [done|]. by intros Hn.
  - assert (Hfv : ¬ localsession.frozen_value m).
    { intros Hfv. apply Hiff in Hfv as [e He]. discriminate He. }
    destruct (commit_spec c ns ((ident.Rev (localsession.ref c) + 1) mod 2 ^ bits) m' d') as (t & rv & ->).
    simpl. split; [|done]. split; [|done]. by intros [= _].
Qed.

Lemma TryClear_refused_iff_witness :
  localsession.TryClear 32 frozen_catalog (localsession.ref frozen_catalog) "ns"
  = (frozen_catalog,
     (None, None, Some (rinq.FrozenAttributesError (localsession.ref frozen_catalog) []))).
Proof.
  apply (proj1 (TryClear_refused_iff 32 frozen_catalog "ns" eq_refl)).
  exists "x". eexists. split; [reflexivity|]. split; [reflexivity|]. intros H. discriminate H.
Defined.

Lemma changes_frozen_insert_ne (m : attrmeta.Namespace) k e a :
  rinq.Key a ≠ k →
  localsession.changes_frozen (<[k := e]> m) a ↔ localsession.changes_frozen m a.
Proof.
  intros Hne. unfold localsession.changes_frozen.
  by setoid_rewrite (lookup_insert_ne m k (rinq.Key a) e (not_eq_sym Hne)).
Qed.

(** Proposals with pairwise distinct keys, none of which changes a frozen
    entry, go through the loop of [TryUpdate]. *)
Lemma update_attrs_accepts r nextRev proposed m d :
  NoDup (rinq.Key <$> proposed) →
  (∀ b, b ∈ proposed → ¬ localsession.changes_frozen m b) →
  ∃ m' d', localsession.update_attrs r nextRev proposed m d = inr (m', d').
Proof.
  revert m d. induction proposed as [|a rest IH]; intros m d Hnd Hno; simpl; [eauto|].
  apply NoDup_cons in Hnd as [Ha Hnd].
  destruct (attrmeta.index m (rinq.Key a)) as [entry ex] eqn:Hidx.
  case_decide as Hsame.
  { apply IH; [done|]. intros b Hb. apply Hno. by apply list_elem_of_further. }
  destruct (attrmeta.IsFrozen entry) eqn:Hf.
  - exfalso. apply (Hno a); [apply list_elem_of_here|].
    exists entry. split; [|split; [done|]].
    + unfold attrmeta.index in Hidx.
      destruct (m !! rinq.Key a); injection Hidx as <- <-; [done|discriminate].
    + rewrite Hf. intros [= ? ?]. by apply Hsame.
  - apply IH; [done|]. intros b Hb.
    rewrite changes_frozen_insert_ne.
    + apply Hno. by apply list_elem_of_further.
    + intros Heq. apply Ha. rewrite <- Heq. apply list_elem_of_fmap. eauto.
Qed.

(** On an open catalog, with the current ref and proposals with pairwise
    distinct keys, TryUpdate is refused exactly when a proposal changes a
    frozen attribute of the namespace. *)
Theorem TryUpdate_refused_iff bits (c : localsession.catalog) (ns : string)
    (proposed : list rinq.Attr) :
  localsession.done c = false →
  NoDup (rinq.Key <$> proposed) →
  (localsession.succeeded (localsession.ReplyUpdate
     (localsession.TryUpdate bits c (localsession.ref c) ns proposed).2) = false
   ↔ Exists (localsession.changes_frozen (attrmeta.namespace_of (localsession.attrs c) ns))
       proposed).
Proof.
  intros Hopen Hnd. split.
  - intros Hfail. apply dec_stable. intros Hno.
    revert Hfail. unfold localsession.TryUpdate.
    rewrite Hopen, decide_False by (by intros ?). rewrite Clone_id.
    destruct (update_attrs_accepts (localsession.ref c) ((ident.Rev (localsession.ref c) + 1) mod 2 ^ bits)
                proposed (attrmeta.namespace_of (localsession.attrs c) ns)
                (attrmeta.NewDiff ns ((ident.Rev (localsession.ref c) + 1) mod 2 ^ bits) (length proposed))
                Hnd) as (m' & d' & ->).
    + intros b Hb Hcf. apply Hno. apply Exists_exists. eauto.
    + by destruct (commit_spec c ns ((ident.Rev (localsession.ref c) + 1) mod 2 ^ bits) m' d')
        as (t & rv & ->).
  - intros Hex. by rewrite TryUpdate_frozen.
Qed.

Lemma TryUpdate_refused_iff_witness :
  localsession.succeeded (localsession.ReplyUpdate
    (localsession.TryUpdate 32 frozen_catalog (localsession.ref frozen_catalog) "ns"
       [rinq.Set_ "a" "1"; rinq.Set_ "x" "w"]).2) = false.
Proof.
  refine (proj2 (TryUpdate_refused_iff 32 frozen_catalog "ns"
                   [rinq.Set_ "a" "1"; rinq.Set_ "x" "w"] eq_refl _) _).
  - apply NoDup_cons. split; [|apply NoDup_singleton].
    intros Hin. apply list_elem_of_singleton in Hin. discriminate Hin.
  - apply Exists_cons_tl, Exists_cons_hd.
    eexists. split; [reflexivity|]. split; [reflexivity|]. intros H. discriminate H.
Defined.

(** ** The catalog: meta data *)

Lemma index_true (m : gmap string attrmeta.Attr) k e :
  attrmeta.index m k = (e, true) → m !! k = Some e.
Proof.
  unfold attrmeta.index. destruct (m !! k); intros [= <-]; done.
Qed.

Lemma meta_ok_mono rev rev' e :
  rev ≤ rev' → localsession.meta_ok rev e → localsession.meta_ok rev' e.
Proof. unfold localsession.meta_ok. lia. Qed.

Lemma update_attrs_meta r nextRev proposed m d m' d' :
  localsession.update_attrs r nextRev proposed m d = inr (m', d') →
  1 ≤ nextRev →
  localsession.namespace_meta_ok nextRev m →
  localsession.namespace_meta_ok nextRev m'.
Proof.
  revert m d. induction proposed as [|a rest IH]; intros m d; simpl.
  - by intros [= <- <-].
  - destruct (attrmeta.index m (rinq.Key a)) as [entry ex] eqn:Hidx.
    case_decide; [by apply IH|].
    destruct (attrmeta.IsFrozen entry); [done|].
    intros Hloop Hpos Hm. eapply IH; [exact Hloop|done|].
    intros k e. rewrite lookup_insert. case_decide; [|by apply Hm].
    intros [= <-]. unfold localsession.meta_ok. simpl.
    destruct ex; [|lia].
    apply index_true in Hidx. destruct (Hm _ _ Hidx) as (? & ? & ?). lia.
Qed.

Lemma clear_attrs_meta r nextRev entries m d m' d' :
  localsession.clear_attrs r nextRev entries m d = inr (m', d') →
  Forall (λ e, ∃ rev, rev ≤ nextRev ∧ localsession.meta_ok rev e) entries →
  localsession.namespace_meta_ok nextRev m →
  localsession.namespace_meta_ok nextRev m'.
Proof.
  revert m d. induction entries as [|a rest IH]; intros m d; simpl.
  - by intros [= <- <-].
  - rewrite Forall_cons. intros Hloop [(rev & Hle & Ha) Hrest] Hm.
    case_decide.
    + destruct (attrmeta.IsFrozen a); [done|].
      eapply IH; [exact Hloop|done|].
      intros k e. rewrite lookup_insert. case_decide; [|by apply Hm].
      intros [= <-]. unfold localsession.meta_ok in *. simpl. lia.
    + eapply IH; [exact Hloop|done|].
      intros k e. rewrite lookup_insert. case_decide; [|by apply Hm].
      intros [= <-]. by eapply meta_ok_mono.
Qed.

Lemma commit_meta c ns nextRev m d :
  localsession.table_meta_ok c →
  ident.Rev (localsession.ref c) ≤ nextRev →
  localsession.namespace_meta_ok nextRev m →
  localsession.table_meta_ok (localsession.commit c ns nextRev m d).1.
Proof.
  intros Hc Hle Hm ns'. unfold localsession.commit. simpl.
  destruct (attrmeta.IsEmpty d); simpl.
  - intros k e Hk. eapply meta_ok_mono; [|by eapply Hc]. lia.
  - unfold attrmeta.CloneAndMerge. rewrite namespace_of_insert. case_decide; [done|].
    intros k e Hk. eapply meta_ok_mono; [|by eapply Hc]. lia.
Qed.

Lemma TryUpdate_meta bits c r ns proposed :
  localsession.table_meta_ok c →
  (localsession.succeeded
     (localsession.ReplyUpdate (localsession.TryUpdate bits c r ns proposed).2) = true →
   ident.Rev (localsession.ref c) + 1 < 2 ^ bits) →
  localsession.table_meta_ok (localsession.TryUpdate bits c r ns proposed).1.
Proof.
  intros Hc. unfold localsession.TryUpdate.
  destruct (localsession.done c); [done|]. case_decide as Hr; [done|].
  subst r. rewrite Clone_id.
  destruct (localsession.update_attrs _ _ _ _ _) as [e|[m d]] eqn:Hloop; [done|].
  intros Hsmall. specialize (Hsmall eq_refl).
  rewrite N.mod_small in * by done.
  apply commit_meta; [done|lia|].
  eapply update_attrs_meta; [exact Hloop|lia|].
  intros k e Hk. eapply meta_ok_mono; [|by eapply Hc]. lia.
Qed.

Lemma TryClear_meta bits c r ns :
  localsession.table_meta_ok c →
  (localsession.succeeded
     (localsession.ReplyUpdate (localsession.TryClear bits c r ns).2) = true →
   ident.Rev (localsession.ref c) + 1 < 2 ^ bits) →
  localsession.table_meta_ok (localsession.TryClear bits c r ns).1.
Proof.
  intros Hc. unfold localsession.TryClear.
  destruct (localsession.done c); [done|]. case_decide as Hr; [done|].
  subst r.
  destruct (localsession.clear_attrs _ _ _ _ _) as [e|[m d]] eqn:Hloop; [done|].
  intros Hsmall. specialize (Hsmall eq_refl).
  rewrite N.mod_small in * by done.
  apply commit_meta; [done|lia|].
  eapply clear_attrs_meta; [exact Hloop| |].
  - apply Forall_forall. intros e Hin.
    apply elem_of_range_values_inv in Hin as [k Hk].
    exists (ident.Rev (localsession.ref c)). split; [lia|]. by eapply Hc.
  - intros k e. by rewrite lookup_empty.
Qed.

Lemma exec_meta bits c k :
  localsession.table_meta_ok c →
  ident.Rev (localsession.ref c)
    + (if localsession.succeeded (localsession.exec bits c k).2 then 1 else 0) < 2 ^ bits →
  localsession.table_meta_ok (localsession.exec bits c k).1.
Proof.
  intros Hc. destruct k as [|r ns proposed|r ns|r|]; simpl; try done.
  - pose proof (TryUpdate_meta bits c r ns proposed Hc) as H.
    destruct (localsession.TryUpdate bits c r ns proposed) as [c' [[rv d] [e|]]]; simpl in *.
    + intros _. by apply H.
    + intros Hsmall. by apply H.
  - pose proof (TryClear_meta bits c r ns Hc) as H.
    destruct (localsession.TryClear bits c r ns) as [c' [[rv d] [e|]]]; simpl in *.
    + intros _. by apply H.
    + intros Hsmall. by apply H.
  - intros _. unfold localsession.TryDestroy. by case_decide.
Qed.

Lemma run_meta bits c calls :
  localsession.table_meta_ok c →
  localsession.rev_never_wraps bits c calls →
  localsession.table_meta_ok (localsession.run bits c calls).1.
Proof.
  revert c. induction calls as [|k rest IH]; intros c Hc Hrev; [done|].
  apply rev_never_wraps_cons in Hrev as [Hk Hrest].
  rewrite run_cons. simpl. apply IH; [|done]. by apply exec_meta.
Qed.

Lemma NewCatalog_meta id : localsession.table_meta_ok (localsession.NewCatalog id).
Proof. intros ns k e. unfold attrmeta.namespace_of. simpl. by rewrite lookup_empty. Qed.

(** In every state that a catalog reaches without its revision number
    passing the largest one (fewer than 2^bits successful updates and
    clears since NewCatalog), every attribute was created at revision 1 or
    later, last updated no earlier than it was created, and no later than
    the catalog's current revision. *)
Theorem meta_data_in_order (bits : N) (id : ident.SessionID)
    (calls : list localsession.call) (ns k : string) (e : attrmeta.Attr) :
  localsession.rev_never_wraps bits (localsession.NewCatalog id) calls →
  let c := (localsession.run bits (localsession.NewCatalog id) calls).1 in
  attrmeta.namespace_of (localsession.attrs c) ns !! k = Some e →
  1 ≤ attrmeta.CreatedAt e
  ∧ attrmeta.CreatedAt e ≤ attrmeta.UpdatedAt e
  ∧ attrmeta.UpdatedAt e ≤ ident.Rev (localsession.ref c).
Proof.
  intros Hrev c Hk. by apply (run_meta bits _ calls (NewCatalog_meta id) Hrev ns k e).
Qed.

Lemma meta_data_in_order_witness :
  let r n := ident.At example_session n in
  let calls :=
    [localsession.CallTryUpdate (r 0) "ns" [rinq.Set_ "a" "1"];
     localsession.CallTryUpdate (r 1) "ns" [rinq.Set_ "b" "2"];
     localsession.CallTryUpdate (r 2) "ns" [rinq.Set_ "a" "3"]] in
  let e := {| attrmeta.attr := rinq.Set_ "a" "3";
              attrmeta.CreatedAt := 1; attrmeta.UpdatedAt := 3 |} in
  1 ≤ attrmeta.CreatedAt e ∧ attrmeta.CreatedAt e ≤ attrmeta.UpdatedAt e
  ∧ attrmeta.UpdatedAt e
    ≤ ident.Rev (localsession.ref
        (localsession.run 32 (localsession.NewCatalog example_session) calls).1).
Proof.
  intros r calls e.
  apply (meta_data_in_order 32 example_session calls "ns" "a" e); reflexivity.
Defined.

(** ** The catalog: what a successful update and clear leave behind *)

(** The loop of [TryUpdate] writes only under the keys proposed. *)
Lemma update_attrs_other r nextRev proposed m d m' d' k :
  localsession.update_attrs r nextRev proposed m d = inr (m', d') →
  k ∉ rinq.Key <$> proposed → m' !! k = m !! k.
Proof.
  revert m d. induction proposed as [|a rest IH]; intros m d; simpl.
  - by intros [= <- <-].
  - rewrite not_elem_of_cons. intros Hloop [Hne Hk].
    destruct (attrmeta.index m (rinq.Key a)) as [entry ex].
    case_decide; [by eapply IH|].
    destruct (attrmeta.IsFrozen entry); [done|].
    rewrite (IH _ _ Hloop Hk). by rewrite lookup_insert_ne.
Qed.

(** The diff only grows, and while it is empty the namespace is untouched. *)
Lemma update_attrs_diff r nextRev proposed m d m' d' :
  localsession.update_attrs r nextRev proposed m d = inr (m', d') →
  (length (attrmeta.Attrs d) ≤ length (attrmeta.Attrs d'))%nat
  ∧ (attrmeta.IsEmpty d' = true → m' = m).
Proof.
  revert m d. induction proposed as [|a rest IH]; intros m d; simpl.
  - by intros [= <- <-].
  - destruct (attrmeta.index m (rinq.Key a)) as [entry ex].
    case_decide; [by apply IH|].
    destruct (attrmeta.IsFrozen entry); [done|].
    intros Hloop. destruct (IH _ _ Hloop) as [Hlen _].
    simpl in Hlen. rewrite length_app in Hlen. simpl in Hlen.
    split; [lia|]. unfold attrmeta.IsEmpty.
    destruct (attrmeta.Attrs d'); [simpl in Hlen; lia|done].
Qed.

(** Of the proposals for one key the last one is what the namespace holds
    when the loop is through. *)
Lemma update_attrs_reads r nextRev pre a post m d m' d' :
  localsession.update_attrs r nextRev (pre ++ a :: post) m d = inr (m', d') →
  rinq.Key a ∉ rinq.Key <$> post →
  let e := (attrmeta.index m' (rinq.Key a)).1 in
  (attrmeta.Value e, attrmeta.IsFrozen e) = (rinq.Value a, rinq.IsFrozen a).
Proof.
  revert m d. induction pre as [|b pre IH]; intros m d; simpl.
  - destruct (attrmeta.index m (rinq.Key a)) as [entry ex] eqn:Hidx.
    case_decide as Hsame.
    + intros Hloop Hk. unfold attrmeta.index.
      rewrite (update_attrs_other _ _ _ _ _ _ _ _ Hloop Hk).
      fold (attrmeta.index m (rinq.Key a)). rewrite Hidx. simpl.
      destruct Hsame as [-> ->]. done.
    + destruct (attrmeta.IsFrozen entry); [done|].
      intros Hloop Hk. unfold attrmeta.index.
      rewrite (update_attrs_other _ _ _ _ _ _ _ _ Hloop Hk), lookup_insert_eq. done.
  - destruct (attrmeta.index m (rinq.Key b)) as [entry ex].
    case_decide; [by apply IH|].
    destruct (attrmeta.IsFrozen entry); [done|]. by apply IH.
Qed.

(** A successful TryUpdate can be read back.  Afterwards a key that was
    proposed reads the (Value, IsFrozen) pair of the last proposal for it;
    a key of the namespace that was not proposed, and every other
    namespace, are as before. *)
Theorem TryUpdate_reads_back bits (c : localsession.catalog) (r : ident.Ref) (ns : string)
    (proposed : list rinq.Attr) :
  localsession.succeeded (localsession.ReplyUpdate
    (localsession.TryUpdate bits c r ns proposed).2) = true →
  let c' := (localsession.TryUpdate bits c r ns proposed).1 in
  (∀ pre a post,
     proposed = pre ++ a :: post → rinq.Key a ∉ rinq.Key <$> post →
     localsession.observe c' ns (rinq.Key a) = (rinq.Value a, rinq.IsFrozen a))
  ∧ (∀ k, k ∉ rinq.Key <$> proposed →
          attrmeta.namespace_of (localsession.attrs c') ns !! k
          = attrmeta.namespace_of (localsession.attrs c) ns !! k)
  ∧ (∀ ns', ns' ≠ ns →
            attrmeta.namespace_of (localsession.attrs c') ns'
            = attrmeta.namespace_of (localsession.attrs c) ns').
Proof.
  unfold localsession.TryUpdate.
  destruct (localsession.done c); [done|]. case_decide; [done|].
  rewrite Clone_id.
  destruct (localsession.update_attrs _ _ _ _ _) as [e|[m d]] eqn:Hloop; [done|].
  intros _. cbv zeta. rewrite commit_attrs.
  destruct (update_attrs_diff _ _ _ _ _ _ _ Hloop) as [_ Hempty].
  assert (Hns : attrmeta.namespace_of
                  (if attrmeta.IsEmpty d then localsession.attrs c
                   else <[ns := m]> (localsession.attrs c)) ns = m).
  { destruct (attrmeta.IsEmpty d).
    - by rewrite Hempty.
    - rewrite namespace_of_insert. by rewrite decide_True. }
  split; [|split].
  - intros pre a post -> Hk. unfold localsession.observe. rewrite commit_attrs, Hns.
    by apply (update_attrs_reads _ _ _ _ _ _ _ _ _ Hloop).
  - intros k Hk. rewrite Hns. by eapply update_attrs_other.
  - intros ns' Hne. destruct (attrmeta.IsEmpty d); [done|].
    rewrite namespace_of_insert. by rewrite decide_False.
Qed.

Lemma TryUpdate_reads_back_witness :
  let c' := (localsession.TryUpdate 32 example_catalog (ident.At example_session 1) "ns"
               [rinq.Set_ "b" "1"; rinq.Freeze "b" "2"]).1 in
  localsession.observe c' "ns" "b" = ("2", true)
  ∧ attrmeta.namespace_of (localsession.attrs c') "ns" !! "a"
    = attrmeta.namespace_of (localsession.attrs example_catalog) "ns" !! "a".
Proof.
  intros c'.
  destruct (TryUpdate_reads_back 32 example_catalog (ident.At example_session 1) "ns"
              [rinq.Set_ "b" "1"; rinq.Freeze "b" "2"] eq_refl) as (Hread & Hother & _).
  split.
  - apply (Hread [rinq.Set_ "b" "1"] (rinq.Freeze "b" "2") [] eq_refl).
    apply not_elem_of_nil.
  - apply Hother. intros Hin.
    apply elem_of_cons in Hin as [Hin|Hin]; [discriminate Hin|].
    apply list_elem_of_singleton in Hin. discriminate Hin.
Defined.

(** What the loop of [TryClear] stores for each of its entries. *)
Lemma clear_attrs_stores r nextRev entries m d m' d' e :
  localsession.clear_attrs r nextRev entries m d = inr (m', d') →
  NoDup (attrmeta.Key <$> entries) →
  e ∈ entries →
  m' !! attrmeta.Key e = Some (localsession.cleared nextRev e).
Proof.
  revert m d. induction entries as [|a rest IH]; intros m d; simpl.
  - intros _ _ He. by apply elem_of_nil in He.
  - rewrite NoDup_cons, elem_of_cons. intros Hloop [Ha Hnd] [->|He].
    + unfold localsession.cleared. case_decide.
      * destruct (attrmeta.IsFrozen a) eqn:Hf; [done|].
        rewrite (clear_attrs_other _ _ _ _ _ _ _ _ Hloop Ha).
        by rewrite lookup_insert_eq.
      * rewrite (clear_attrs_other _ _ _ _ _ _ _ _ Hloop Ha).
        by rewrite lookup_insert_eq.
    + case_decide.
      * destruct (attrmeta.IsFrozen a); [done|]. by eapply IH.
      * by eapply IH.
Qed.

(** The diff of the loop of [TryClear] stays empty only if no entry had a
    value. *)
Lemma clear_attrs_diff_empty r nextRev entries m d m' d' :
  localsession.clear_attrs r nextRev entries m d = inr (m', d') →
  (length (attrmeta.Attrs d) ≤ length (attrmeta.Attrs d'))%nat
  ∧ (attrmeta.IsEmpty d' = true → Forall (λ e, attrmeta.Value e = "") entries)
  ∧ (Forall (λ e, attrmeta.Value e = "") entries →
     attrmeta.Attrs d' = attrmeta.Attrs d).
Proof.
  revert m d. induction entries as [|a rest IH]; intros m d; simpl.
  - intros [= <- <-]. repeat split; [done|constructor].
  - case_decide as Hv.
    + destruct (attrmeta.IsFrozen a); [done|].
      intros Hloop. destruct (IH _ _ Hloop) as (Hlen & _ & _).
      simpl in Hlen. rewrite length_app in Hlen. simpl in Hlen.
      split; [lia|]. split.
      * unfold attrmeta.IsEmpty.
        destruct (attrmeta.Attrs d'); [simpl in Hlen; lia|done].
      * intros Hall. by apply Forall_inv in Hall.
    + intros Hloop. destruct (IH _ _ Hloop) as (Hlen & Hempty & Hsame).
      split; [done|]. split.
      * intros He. constructor; [done|by apply Hempty].
      * intros Hall. apply Hsame. by apply Forall_inv_tail in Hall.
Qed.

Lemma cleared_Value nextRev e : attrmeta.Value (localsession.cleared nextRev e) = "".
Proof.
  unfold localsession.cleared. by case_decide as Hv.
Qed.

Lemma cleared_IsFrozen nextRev e :
  attrmeta.IsFrozen (localsession.cleared nextRev e) = attrmeta.IsFrozen e.
Proof. unfold localsession.cleared. by case_decide. Qed.

Lemma TryClear_cleared_namespace bits (id : ident.SessionID) (before : list localsession.call)
    (r : ident.Ref) (ns : string) :
  let c := (localsession.run bits (localsession.NewCatalog id) before).1 in
  let c' := (localsession.TryClear bits c r ns).1 in
  localsession.succeeded (localsession.ReplyUpdate (localsession.TryClear bits c r ns).2) = true →
  attrmeta.namespace_of (localsession.attrs c') ns
  = localsession.cleared ((ident.Rev (localsession.ref c) + 1) mod 2 ^ bits)
      <$> attrmeta.namespace_of (localsession.attrs c) ns
  ∧ (∀ k, localsession.observe c' ns k = ("", (localsession.observe c ns k).2))
  ∧ (∀ ns', ns' ≠ ns →
            attrmeta.namespace_of (localsession.attrs c') ns'
            = attrmeta.namespace_of (localsession.attrs c) ns').
Proof.
  intros c c'.
  destruct (run_kept bits (localsession.NewCatalog id) before (NewCatalog_keyed id)) as [Ht _].
  fold c in Ht. pose proof (keyed_table_namespace_of _ ns Ht) as Hkeyed.
  subst c'. unfold localsession.TryClear.
  destruct (localsession.done c); [done|]. case_decide as Hr; [done|]. subst r.
  set (m0 := attrmeta.namespace_of (localsession.attrs c) ns) in *.
  destruct (localsession.clear_attrs _ _ _ _ _) as [e|[m d]] eqn:Hloop; [done|].
  intros _. rewrite commit_attrs.
  assert (Hm : m = localsession.cleared ((ident.Rev (localsession.ref c) + 1) mod 2 ^ bits) <$> m0).
  { apply map_eq. intros k. rewrite lookup_fmap.
    destruct (m0 !! k) as [e|] eqn:Hk; simpl.
    - rewrite <- (Hkeyed _ _ Hk).
      eapply clear_attrs_stores; [exact Hloop| |by eapply elem_of_range_values].
      rewrite range_values_keys by done. apply NoDup_fst_map_to_list.
    - rewrite (clear_attrs_other _ _ _ _ _ _ _ _ Hloop), lookup_empty; [done|].
      rewrite range_values_keys by done. intros Hin.
      apply list_elem_of_fmap in Hin as ([k' e'] & -> & Hin).
      apply elem_of_map_to_list in Hin. simpl in Hk. congruence. }
  assert (Hns : attrmeta.namespace_of
                  (if attrmeta.IsEmpty d then localsession.attrs c
                   else <[ns := m]> (localsession.attrs c)) ns
                = localsession.cleared ((ident.Rev (localsession.ref c) + 1) mod 2 ^ bits) <$> m0).
  { destruct (attrmeta.IsEmpty d) eqn:Hd.
    - fold m0. apply map_eq. intros k. rewrite lookup_fmap.
      destruct (m0 !! k) as [e|] eqn:Hk; simpl; [|done].
      destruct (clear_attrs_diff_empty _ _ _ _ _ _ _ Hloop) as (_ & Hall & _).
      specialize (Hall Hd). rewrite Forall_forall in Hall.
      unfold localsession.cleared. rewrite decide_False; [done|].
      intros Hv. apply Hv, Hall. by eapply elem_of_range_values.
    - rewrite namespace_of_insert. by rewrite decide_True. }
  split; [exact Hns|]. split.
  - intros k. unfold localsession.observe. rewrite commit_attrs, Hns. fold m0.
    unfold attrmeta.index. rewrite lookup_fmap.
    destruct (m0 !! k) as [e|]; simpl; [|done].
    by rewrite cleared_Value, cleared_IsFrozen.
  - intros ns' Hne. destruct (attrmeta.IsEmpty d); [done|].
    rewrite namespace_of_insert. by rewrite decide_False.
Qed.

(** A successful TryClear on a catalog in a reachable state leaves every
    attribute of the namespace with the empty value and with the frozen
    flag, the key and the creation revision it had; an attribute that had a
    value is stamped with the new revision; the other namespaces are as
    before. *)
Theorem TryClear_clears bits (id : ident.SessionID) (before : list localsession.call)
    (r : ident.Ref) (ns : string) :
  let c := (localsession.run bits (localsession.NewCatalog id) before).1 in
  let c' := (localsession.TryClear bits c r ns).1 in
  localsession.succeeded (localsession.ReplyUpdate (localsession.TryClear bits c r ns).2) = true →
  attrmeta.namespace_of (localsession.attrs c') ns
  = localsession.cleared ((ident.Rev (localsession.ref c) + 1) mod 2 ^ bits)
      <$> attrmeta.namespace_of (localsession.attrs c) ns
  ∧ (∀ k, localsession.observe c' ns k = ("", (localsession.observe c ns k).2))
  ∧ (∀ ns', ns' ≠ ns →
            attrmeta.namespace_of (localsession.attrs c') ns'
            = attrmeta.namespace_of (localsession.attrs c) ns').
Proof. exact (TryClear_cleared_namespace bits id before r ns). Qed.

Lemma TryClear_clears_witness :
  let before :=
    [localsession.CallTryUpdate (ident.At example_session 0) "ns"
       [rinq.Set_ "a" "1"; rinq.Freeze "x" ""]] in
  let c := (localsession.run 32 (localsession.NewCatalog example_session) before).1 in
  let c' := (localsession.TryClear 32 c (ident.At example_session 1) "ns").1 in
  localsession.observe c "ns" "a" = ("1", false)
  ∧ localsession.observe c' "ns" "a" = ("", false)
  ∧ localsession.observe c' "ns" "x" = ("", true).
Proof.
  intros before c c'.
  destruct (TryClear_clears 32 example_session before (ident.At example_session 1) "ns" eq_refl)
    as (_ & Hobs & _).
  split; [reflexivity|]. split; [exact (Hobs "a")|exact (Hobs "x")].
Defined.

(** Once the diff of the loop of [TryUpdate] is not empty, the namespace
    holds an entry stamped with the next revision. *)
Lemma update_attrs_stamp r nextRev proposed m d m' d' :
  localsession.update_attrs r nextRev proposed m d = inr (m', d') →
  (attrmeta.IsEmpty d = false → ∃ k e, m !! k = Some e ∧ attrmeta.UpdatedAt e = nextRev) →
  attrmeta.IsEmpty d' = false →
  ∃ k e, m' !! k = Some e ∧ attrmeta.UpdatedAt e = nextRev.
Proof.
  revert m d. induction proposed as [|a rest IH]; intros m d; simpl.
  - intros [= <- <-]. auto.
  - destruct (attrmeta.index m (rinq.Key a)) as [entry ex].
    case_decide; [by apply IH|].
    destruct (attrmeta.IsFrozen entry); [done|].
    intros Hloop _. eapply IH; [exact Hloop|]. intros _.
    eexists _, _. by rewrite lookup_insert_eq.
Qed.

(** A successful TryUpdate or TryClear on a catalog in a reachable state
    returns an empty diff exactly when it left the attribute table as it
    was; for TryUpdate, as long as its new revision number is not past the
    largest one (fewer than 2^bits - 1 updates and clears succeeded before
    it): past it, an update can set an attribute and set it back, and so
    return a diff that is not empty for a table that is unchanged. *)
Theorem diff_empty_iff_table_unchanged (bits : N) (id : ident.SessionID)
    (before : list localsession.call) :
  let c := (localsession.run bits (localsession.NewCatalog id) before).1 in
  (localsession.successes (localsession.run bits (localsession.NewCatalog id) before).2 + 1
     < 2 ^ bits →
   ∀ r ns proposed rv d,
     (localsession.TryUpdate bits c r ns proposed).2 = (rv, Some d, None) →
     (attrmeta.IsEmpty d = true
      ↔ localsession.attrs (localsession.TryUpdate bits c r ns proposed).1 = localsession.attrs c))
  ∧ (∀ r ns rv d,
       (localsession.TryClear bits c r ns).2 = (rv, Some d, None) →
       (attrmeta.IsEmpty d = true
        ↔ localsession.attrs (localsession.TryClear bits c r ns).1 = localsession.attrs c)).
Proof.
  intros c.
  destruct (run_kept bits (localsession.NewCatalog id) before (NewCatalog_keyed id)) as [Ht _].
  fold c in Ht.
  split.
  - intros Hfew.
    assert (Hrev : localsession.rev_never_wraps bits (localsession.NewCatalog id) before).
    { unfold localsession.rev_never_wraps. simpl. lia. }
    pose proof (run_meta bits _ before (NewCatalog_meta id) Hrev) as Hmeta. fold c in Hmeta.
    pose proof (run_rev_small bits _ before Hrev) as HRev. fold c in HRev. simpl in HRev.
    intros r ns proposed rv d. unfold localsession.TryUpdate.
    destruct (localsession.done c); [done|]. case_decide as Hr; [done|]. subst r.
    rewrite Clone_id.
    destruct (localsession.update_attrs _ _ _ _ _) as [e|[m d']] eqn:Hloop; [done|].
    rewrite commit_attrs. unfold localsession.commit. simpl. intros [= _ ->].
    destruct (attrmeta.IsEmpty d) eqn:Hd; [done|].
    split; [done|]. intros Hsame. exfalso.
    destruct (update_attrs_stamp _ _ _ _ _ _ _ Hloop) as (k & e & Hk & Hstamp); [done|done|].
    assert (Hm : attrmeta.namespace_of (localsession.attrs c) ns = m).
    { rewrite <- Hsame, namespace_of_insert. by rewrite decide_True. }
    rewrite <- Hm in Hk. destruct (Hmeta ns k e Hk) as (_ & _ & Hle).
    rewrite N.mod_small in Hstamp by lia. lia.
  - intros r ns rv d Hres.
    assert (Hok : localsession.succeeded
              (localsession.ReplyUpdate (localsession.TryClear bits c r ns).2) = true)
      by (by rewrite Hres).
    destruct (TryClear_cleared_namespace bits id before r ns Hok) as (Hns & _ & _). fold c in Hns.
    revert Hres Hns. unfold localsession.TryClear.
    destruct (localsession.done c); [done|]. case_decide as Hr; [done|]. subst r.
    destruct (localsession.clear_attrs _ _ _ _ _) as [e|[m d']] eqn:Hloop; [done|].
    rewrite commit_attrs. unfold localsession.commit. simpl. intros [= _ ->] Hns.
    destruct (attrmeta.IsEmpty d) eqn:Hd; [done|].
    split; [done|]. intros Hsame. exfalso.
    destruct (clear_attrs_diff_empty _ _ _ _ _ _ _ Hloop) as (_ & _ & Hkeep).
    assert (Hex : ¬ Forall (λ e, attrmeta.Value e = "")
                    (localsession.range_values
                       (attrmeta.namespace_of (localsession.attrs c) ns))).
    { intros Hall. specialize (Hkeep Hall). unfold attrmeta.IsEmpty in Hd.
      rewrite Hkeep in Hd. simpl in Hd. discriminate Hd. }
    apply Hex, Forall_forall. intros e Hin.
    apply elem_of_range_values_inv in Hin as [k Hk].
    rewrite Hsame in Hns.
    apply (f_equal (λ t, t !! k)) in Hns. rewrite lookup_fmap, Hk in Hns. simpl in Hns.
    injection Hns as Hns. rewrite Hns. apply cleared_Value.
Qed.

Lemma diff_empty_iff_table_unchanged_witness :
  let c := (localsession.run 32 (localsession.NewCatalog example_session)
              [localsession.CallTryUpdate (ident.At example_session 0) "ns"
                 [rinq.Set_ "a" "1"]]).1 in
  localsession.attrs
    (localsession.TryUpdate 32 c (ident.At example_session 1) "ns" [rinq.Set_ "a" "1"]).1
  = localsession.attrs c.
Proof.
  intros c.
  refine (proj1 (proj1 (diff_empty_iff_table_unchanged 32 example_session
            [localsession.CallTryUpdate (ident.At example_session 0) "ns" [rinq.Set_ "a" "1"]])
            _ (ident.At example_session 1) "ns" [rinq.Set_ "a" "1"] _ _ eq_refl) eq_refl).
  reflexivity.
Defined.

(** ** The earlier catalog *)

(** The earlier TryUpdate stores the value of a proposed attribute and
    leaves the frozen flag of the entry alone, so a catalog that starts
    empty never holds a frozen attribute, whatever is proposed, and no
    TryUpdate on it whose diff writer is nil or accepts every write fails
    with FrozenAttributes. *)
Theorem overpass_never_freezes (bits : N) (id : ident.SessionID) (l : overpass.Logger)
    (calls : list overpass.call) :
  let c := (overpass.run bits (overpass.NewCatalog id l) calls).1 in
  map_Forall (λ _ e, attrmeta.IsFrozen e = false) (overpass.attrs c)
  ∧ ∀ r proposed diff,
      overpass.accepts_all diff →
      overpass.refused_frozen (overpass.exec bits c (overpass.CallTryUpdate r proposed diff)).2
      = false.
Proof.
  intros c.
  assert (Hc : map_Forall (λ _ e, attrmeta.IsFrozen e = false) (overpass.attrs c)).
  { apply overpass_run_unfrozen. simpl. apply map_Forall_empty. }
  split; [exact Hc|].
  intros r proposed diff Hd. by apply overpass_TryUpdate_not_refused.
Qed.

Lemma overpass_never_freezes_witness :
  let c := (overpass.run 32 (overpass.NewCatalog example_session None)
              [overpass.CallTryUpdate (ident.At example_session 0)
                 [rinq.Freeze "x" "v"] None]).1 in
  overpass.refused_frozen
    (overpass.exec 32 c (overpass.CallTryUpdate (ident.At example_session 1)
                        [rinq.Set_ "x" "w"] None)).2
  = false.
Proof.
  intros c.
  refine (proj2 (overpass_never_freezes 32 example_session None
                   [overpass.CallTryUpdate (ident.At example_session 0)
                      [rinq.Freeze "x" "v"] None])
            (ident.At example_session 1) [rinq.Set_ "x" "w"] None _).
  intros w Hw. discriminate Hw.
Defined.

(** After a proposal to freeze a key the earlier catalog reads the key
    with the proposed value and not frozen. *)
Lemma overpass_Freeze_example :
  let c := (overpass.TryUpdate 32 (overpass.NewCatalog example_session None)
              (ident.At example_session 0) [rinq.Freeze "x" "v"] None).1.1 in
  ident.Rev (overpass.ref c) = 1
  ∧ (attrmeta.Value (attrmeta.index (overpass.attrs c) "x").1,
     attrmeta.IsFrozen (attrmeta.index (overpass.attrs c) "x").1) = ("v", false).
Proof. split; reflexivity. Qed.

Lemma overpass_TryUpdate_step bits (c : overpass.catalog) (r : ident.Ref)
    (proposed : list rinq.Attr) (diff : option overpass.Writer) :
  match overpass.TryUpdate bits c r proposed diff with
  | (c', _, (_, Some _)) => c' = c
  | (c', _, (rv, None)) =>
      ident.Rev (overpass.ref c') = (ident.Rev (overpass.ref c) + 1) mod 2 ^ bits
      ∧ ident.ID (overpass.ref c') = ident.ID (overpass.ref c)
      ∧ overpass.seq c' = 0
      ∧ overpass.isClosed c = false
      ∧ overpass.isClosed c' = false
      ∧ overpass.logger c' = overpass.logger c
      ∧ r = overpass.ref c
      ∧ rv = Some {| overpass.rev_ref := overpass.ref c';
                     overpass.rev_attrs := overpass.attrs c';
                     overpass.rev_logger := None |}
  end.
Proof.
  unfold overpass.TryUpdate.
  destruct (overpass.isClosed c) eqn:Hclosed; [done|].
  case_decide as Hr; [done|]. subst r.
  destruct (overpass.update_attrs _ _ _ _ _ _) as [[diff' e]|[[m' frozen'] diff']]; [done|].
  by case_decide.
Qed.

(** What one earlier TryUpdate does to the catalog: with an error of any
    kind, a write error of the diff writer included, nothing; without one,
    the catalog was open and the ref current, Rev goes up by 1 (in the
    arithmetic of the revision type), seq goes to 0, and the revision
    returned has the ref and the table of the catalog after the call and a
    nil logger, so it is the new head only when the catalog has no
    logger. *)
Theorem overpass_TryUpdate_all_or_nothing (bits : N) (c : overpass.catalog) (r : ident.Ref)
    (proposed : list rinq.Attr) (diff : option overpass.Writer) :
  match overpass.TryUpdate bits c r proposed diff with
  | (c', _, (_, Some _)) => c' = c
  | (c', _, (rv, None)) =>
      ident.Rev (overpass.ref c') = (ident.Rev (overpass.ref c) + 1) mod 2 ^ bits
      ∧ ident.ID (overpass.ref c') = ident.ID (overpass.ref c)
      ∧ overpass.seq c' = 0
      ∧ overpass.isClosed c = false
      ∧ overpass.isClosed c' = false
      ∧ overpass.logger c' = overpass.logger c
      ∧ r = overpass.ref c
      ∧ rv = Some {| overpass.rev_ref := overpass.ref c';
                     overpass.rev_attrs := overpass.attrs c';
                     overpass.rev_logger := None |}
      ∧ (rv = Some (overpass.Head c') ↔ overpass.logger c = None)
  end.
Proof.
  pose proof (overpass_TryUpdate_step bits c r proposed diff) as H.
  destruct (overpass.TryUpdate bits c r proposed diff) as [[c' diff'] [rv [e|]]]; [done|].
  destruct H as (HRev & HID & Hseq & Hopen & Hopen' & Hlog & Hr & Hrv).
  repeat (split; [done|]).
  rewrite Hrv. unfold overpass.Head. rewrite Hlog.
  split; [by intros [= <-]|by intros ->].
Qed.

Lemma overpass_closed_by_once bits c calls :
  (length (filter (λ rep, overpass.closed_by rep = true) (overpass.run bits c calls).2)
   ≤ if overpass.isClosed c then 0 else 1)%nat
  ∧ (overpass.isClosed c = true → overpass.isClosed (overpass.run bits c calls).1 = true).
Proof.
  revert c. induction calls as [|k rest IH]; intros c.
  - simpl. split; [|done]. destruct (overpass.isClosed c); simpl; lia.
  - rewrite overpass_run_cons. cbn [fst snd]. rewrite filter_cons.
    destruct (IH (overpass.exec bits c k).1) as [Hlen Hstay].
    assert (Hstep : (overpass.isClosed c = true →
                     overpass.isClosed (overpass.exec bits c k).1 = true
                     ∧ overpass.closed_by (overpass.exec bits c k).2 = false)
                    ∧ (overpass.closed_by (overpass.exec bits c k).2 = true →
                       overpass.isClosed (overpass.exec bits c k).1 = true)).
    { destruct k as [|r proposed diff|r|]; simpl.
      - done.
      - pose proof (overpass_TryUpdate_step bits c r proposed diff) as H.
        destruct (overpass.TryUpdate bits c r proposed diff) as [[c' diff'] [rv [e|]]]; simpl.
        + subst c'. done.
        + destruct H as (_ & _ & _ & Hopen & _). split; [congruence|done].
      - unfold overpass.TryClose. case_decide; [done|].
        destruct (overpass.isClosed c) eqn:Hc; simpl; [by rewrite Hc|done].
      - done. }
    destruct Hstep as [Hclosed Hby].
    split.
    + destruct (overpass.closed_by (overpass.exec bits c k).2) eqn:Hcb.
      * rewrite decide_True by done. specialize (Hby eq_refl). rewrite Hby in Hlen.
        destruct (overpass.isClosed c) eqn:Hc.
        -- destruct (Hclosed eq_refl) as [_ ?]. congruence.
        -- simpl. lia.
      * rewrite decide_False by done.
        destruct (overpass.isClosed c) eqn:Hc.
        -- destruct (Hclosed eq_refl) as [Hc' _]. by rewrite Hc' in Hlen.
        -- destruct (overpass.isClosed (overpass.exec bits c k).1); lia.
    + intros Hc. apply Hstay. by apply Hclosed.
Qed.

(** Over any history of calls on an earlier catalog at most one TryClose
    reports that it closed the catalog, and none does on a catalog that is
    closed already; a closed catalog stays closed. *)
Theorem TryClose_reports_once bits (c : overpass.catalog) (calls : list overpass.call) :
  (length (filter (λ rep, overpass.closed_by rep = true) (overpass.run bits c calls).2) ≤ 1)%nat
  ∧ (overpass.isClosed c = true →
     filter (λ rep, overpass.closed_by rep = true) (overpass.run bits c calls).2 = []
     ∧ overpass.isClosed (overpass.run bits c calls).1 = true).
Proof.
  destruct (overpass_closed_by_once bits c calls) as [Hlen Hstay].
  split.
  - destruct (overpass.isClosed c); lia.
  - intros Hc. rewrite Hc in Hlen. split; [|by apply Hstay].
    destruct (filter _ _); [done|simpl in Hlen; lia].
Qed.

Lemma TryClose_reports_once_witness :
  let c := overpass.Close (overpass.NewCatalog example_session None) in
  let out := overpass.run 32 c [overpass.CallTryClose (ident.At example_session 0);
                             overpass.CallTryClose (ident.At example_session 0)] in
  filter (λ rep, overpass.closed_by rep = true) out.2 = []
  ∧ overpass.isClosed out.1 = true.
Proof.
  intros c out.
  apply (proj2 (TryClose_reports_once 32 c
           [overpass.CallTryClose (ident.At example_session 0);
            overpass.CallTryClose (ident.At example_session 0)])).
  reflexivity.
Defined.

(** ** The text of a namespace *)

Lemma string_app_assoc (s1 s2 s3 : string) : (s1 +:+ s2) +:+ s3 = s1 +:+ (s2 +:+ s3).
Proof.
  induction s1 as [|a s1 IH]; [done|].
  change (String a ((s1 +:+ s2) +:+ s3) = String a (s1 +:+ (s2 +:+ s3))). by f_equal.
Qed.

Lemma string_app_nil_r (s : string) : s +:+ "" = s.
Proof.
  induction s as [|a s IH]; [done|].
  change (String a (s +:+ "") = String a s). by f_equal.
Qed.

Lemma concat_cons_joined x l :
  String.concat ", " (x :: l) = x +:+ attrmeta.joined_after true l.
Proof. destruct l; simpl; [by rewrite string_app_nil_r|done]. Qed.

Lemma writeTo_entries_text text entries buf notEmpty :
  attrmeta.writeTo_entries text entries buf notEmpty
  = (buf +:+ attrmeta.joined_after notEmpty (text <$> filter attrmeta.shown entries),
     notEmpty || bool_decide (filter attrmeta.shown entries ≠ [])).
Proof.
  revert buf notEmpty. induction entries as [|a rest IH]; intros buf notEmpty; simpl.
  - by rewrite string_app_nil_r, orb_false_r.
  - rewrite filter_cons.
    destruct (negb (attrmeta.IsFrozen a) && bool_decide (attrmeta.Value a = "")) eqn:Hskip.
    + apply andb_true_iff in Hskip as [Hf Hv].
      apply negb_true_iff in Hf. apply bool_decide_eq_true in Hv.
      rewrite decide_False; [by apply IH|].
      intros [?|?]; congruence.
    + rewrite decide_True.
      * rewrite fmap_cons. unfold attrmeta.joined_after at 1.
        rewrite concat_cons_joined.
        rewrite (bool_decide_eq_true_2 (a :: filter attrmeta.shown rest ≠ [])) by done.
        destruct notEmpty; rewrite IH; simpl; by rewrite !string_app_assoc.
      * apply andb_false_iff in Hskip as [Hf|Hv].
        -- left. by apply negb_false_iff in Hf.
        -- right. by apply bool_decide_eq_false in Hv.
Qed.

Lemma joined_after_false l : attrmeta.joined_after false l = String.concat ", " l.
Proof. by destruct l. Qed.

(** WriteTo appends to the buffer an opening brace, the texts of the
    attributes that are frozen or have a value, separated by ", ", and a
    closing brace; attributes that are neither are left out.  Its result is
    true exactly when the namespace holds an attribute that is shown.
    WriteWithNameTo is WriteTo after the name and "::". *)
Theorem WriteTo_text (text : attrmeta.Attr → string) (ns : attrmeta.Namespace)
    (buf name : string) :
  attrmeta.WriteTo text ns buf
  = (((buf +:+ "{") +:+ String.concat ", " (text <$> attrmeta.shown_entries ns)) +:+ "}",
     bool_decide (attrmeta.shown_entries ns ≠ []))
  ∧ ((attrmeta.WriteTo text ns buf).2 = true
     ↔ ∃ k e, ns !! k = Some e ∧ attrmeta.shown e)
  ∧ attrmeta.WriteWithNameTo text ns buf name
    = attrmeta.WriteTo text ns ((buf +:+ name) +:+ "::").
Proof.
  assert (Heq : attrmeta.WriteTo text ns buf
    = (((buf +:+ "{") +:+ String.concat ", " (text <$> attrmeta.shown_entries ns)) +:+ "}",
       bool_decide (attrmeta.shown_entries ns ≠ []))).
  { unfold attrmeta.WriteTo, attrmeta.writeTo.
    by rewrite writeTo_entries_text, joined_after_false. }
  split; [exact Heq|]. split; [|done].
  rewrite Heq. simpl. rewrite bool_decide_eq_true. unfold attrmeta.shown_entries. split.
  - intros Hne. destruct (filter attrmeta.shown (map_to_list ns).*2) as [|e l] eqn:Hf; [done|].
    assert (Hin : e ∈ filter attrmeta.shown (map_to_list ns).*2)
      by (rewrite Hf; apply list_elem_of_here).
    apply list_elem_of_filter in Hin as [Hshown Hin].
    apply list_elem_of_fmap in Hin as ([k e'] & -> & Hin).
    exists k, e'. split; [by apply elem_of_map_to_list|done].
  - intros (k & e & Hk & Hshown) Hnil.
    assert (Hin : e ∈ filter attrmeta.shown (map_to_list ns).*2).
    { apply list_elem_of_filter. split; [done|].
      apply list_elem_of_fmap. exists (k, e). split; [done|]. by apply elem_of_map_to_list. }
    rewrite Hnil in Hin. by apply elem_of_nil in Hin.
Qed.

Lemma WriteTo_text_witness :
  let text (a : attrmeta.Attr) := attrmeta.Key a +:+ "=" +:+ attrmeta.Value a in
  let ns : attrmeta.Namespace :=
    {[ "a" := {| attrmeta.attr := rinq.Set_ "a" "1";
                 attrmeta.CreatedAt := 1; attrmeta.UpdatedAt := 1 |};
       "b" := {| attrmeta.attr := rinq.Set_ "b" "";
                 attrmeta.CreatedAt := 1; attrmeta.UpdatedAt := 1 |} ]} in
  attrmeta.WriteTo text ns "ns::" = ("ns::{a=1}", true)
  ∧ attrmeta.WriteTo text ∅ "" = ("{}", false).
Proof.
  intros text ns. split.
  - exact (proj1 (WriteTo_text text ns "ns::" "")).
  - exact (proj1 (WriteTo_text text ∅ "" "")).
Defined.

(** ** Responses: finalize and the modes without a reply *)

Lemma complete_all_cons_closed m e k rest :
  commandamqp.isClosed
    (commandamqp.complete_all (commandamqp.newResponse m) ((e, k) :: rest)) = true.
Proof.
  simpl.
  destruct (complete_open (commandamqp.newResponse m) e k eq_refl) as [Hclosed _].
  by rewrite complete_all_closed.
Qed.

(** The result of finalize tells whether the handler completed the
    response: after any history of Done, Error, Fail and Close on a new
    response it is true exactly when the history is not empty.  Finalize
    leaves the response closed and publishes nothing, and a closed response
    is never required. *)
Theorem finalize_reports_completion :
  (∀ m calls,
     (commandamqp.finalize
        (commandamqp.complete_all (commandamqp.newResponse m) calls)).2
     = bool_decide (calls ≠ []))
  ∧ (∀ r, commandamqp.isClosed (commandamqp.finalize r).1 = true
          ∧ commandamqp.published (commandamqp.finalize r).1 = commandamqp.published r)
  ∧ (∀ r ctx_done,
       commandamqp.isClosed r = true → commandamqp.IsRequired r ctx_done = false).
Proof.
  split; [|split].
  - intros m [|[e k] rest].
    + reflexivity.
    + unfold commandamqp.finalize. by rewrite complete_all_cons_closed.
  - intros r. unfold commandamqp.finalize.
    by destruct (commandamqp.isClosed r) eqn:Hc.
  - intros r ctx_done Hc. unfold commandamqp.IsRequired. by rewrite Hc.
Qed.

Lemma finalize_reports_completion_witness :
  let e := {| commandamqp.PackDeadline_err := None; commandamqp.Get_err := None;
              commandamqp.PackSpanContext_err := None; commandamqp.Publish_err := None |} in
  let r := commandamqp.complete_all (commandamqp.newResponse commandamqp.replyOther)
             [(e, commandamqp.CallClose)] in
  (commandamqp.finalize r).2 = true ∧ commandamqp.IsRequired r false = false.
Proof.
  intros e r. split.
  - exact (proj1 finalize_reports_completion commandamqp.replyOther
             [(e, commandamqp.CallClose)]).
  - apply (proj2 (proj2 finalize_reports_completion) r false). reflexivity.
Defined.

(** When no reply is expected (reply mode none) or the deadline of the
    context has passed, a completion call on an open response closes it and
    does nothing else: it publishes nothing and does not panic, whatever
    the channel pool and the broker would answer. *)
Theorem completion_without_reply (r : commandamqp.response) (e : commandamqp.env)
    (k : commandamqp.completion) :
  commandamqp.isClosed r = false →
  commandamqp.replyMode_ r = commandamqp.replyNone
  ∨ commandamqp.PackDeadline_err e ≠ None →
  commandamqp.complete r e k
  = ({| commandamqp.replyMode_ := commandamqp.replyMode_ r;
        commandamqp.isClosed := true;
        commandamqp.published := commandamqp.published r |}, false).
Proof.
  intros Hopen Hquiet.
  assert (Hrespond : ∀ msg, commandamqp.respond r e msg
    = ({| commandamqp.replyMode_ := commandamqp.replyMode_ r;
          commandamqp.isClosed := true;
          commandamqp.published := commandamqp.published r |}, commandamqp.Returned ())).
  { intros msg. unfold commandamqp.respond. simpl.
    case_decide as Hm; [done|].
    destruct Hquiet as [?|Hd]; [done|].
    by destruct (commandamqp.PackDeadline_err e). }
  destruct k; simpl;
    unfold commandamqp.Done, commandamqp.Fail, commandamqp.Error, commandamqp.Close;
    by rewrite Hopen, Hrespond.
Qed.

Lemma completion_without_reply_witness :
  let e := {| commandamqp.PackDeadline_err := None;
              commandamqp.Get_err := Some "connection closed";
              commandamqp.PackSpanContext_err := None;
              commandamqp.Publish_err := None |} in
  commandamqp.complete (commandamqp.newResponse commandamqp.replyNone) e
    (commandamqp.CallDone (Some "payload"))
  = ({| commandamqp.replyMode_ := commandamqp.replyNone;
        commandamqp.isClosed := true;
        commandamqp.published := [] |}, false).
Proof.
  intros e.
  apply (completion_without_reply (commandamqp.newResponse commandamqp.replyNone) e
           (commandamqp.CallDone (Some "payload")) eq_refl).
  by left.
Defined.

(** When a reply is expected (the reply mode is not none), packing the
    deadline gives no error (the deadline has not passed), the channel pool
    hands out a channel, packing the span context gives no error (it is
    only packed in the uncorrelated mode) and the publish gives no error,
    the first completion call on a new response publishes exactly its own
    message and closes the response. *)
Theorem completion_publishes_its_message (m : commandamqp.replyMode) (e : commandamqp.env)
    (k : commandamqp.completion) :
  m ≠ commandamqp.replyNone →
  commandamqp.PackDeadline_err e = None →
  commandamqp.Get_err e = None →
  (m = commandamqp.replyUncorrelated → commandamqp.PackSpanContext_err e = None) →
  commandamqp.Publish_err e = None →
  commandamqp.complete (commandamqp.newResponse m) e k
  = ({| commandamqp.replyMode_ := m; commandamqp.isClosed := true;
        commandamqp.published := [commandamqp.message_of k] |}, false).
Proof.
  intros Hm Hd Hg Hs Hp.
  assert (Hrespond : ∀ msg, commandamqp.respond (commandamqp.newResponse m) e msg
    = ({| commandamqp.replyMode_ := m; commandamqp.isClosed := true;
          commandamqp.published := [msg] |}, commandamqp.Returned ())).
  { intros msg. unfold commandamqp.respond. simpl.
    rewrite decide_False by done. rewrite Hd, Hg, Hp.
    case_decide as Hu; [by rewrite (Hs Hu)|done]. }
  destruct k; simpl;
    unfold commandamqp.Done, commandamqp.Fail, commandamqp.Error, commandamqp.Close; simpl;
    by rewrite Hrespond.
Qed.

Lemma completion_publishes_its_message_witness :
  let e := {| commandamqp.PackDeadline_err := None; commandamqp.Get_err := None;
              commandamqp.PackSpanContext_err := None; commandamqp.Publish_err := None |} in
  commandamqp.complete (commandamqp.newResponse commandamqp.replyUncorrelated) e
    (commandamqp.CallFail "insufficient-funds" "account 7 is broke!")
  = ({| commandamqp.replyMode_ := commandamqp.replyUncorrelated;
        commandamqp.isClosed := true;
        commandamqp.published :=
          [commandamqp.errorResponse
             (commandamqp.Failure "insufficient-funds" "account 7 is broke!")] |}, false).
Proof.
  intros e.
  apply (completion_publishes_its_message commandamqp.replyUncorrelated e
           (commandamqp.CallFail "insufficient-funds" "account 7 is broke!")).
  - intros H. discriminate H.
  - reflexivity.
  - reflexivity.
  - intros _. reflexivity.
  - reflexivity.
Defined.

(** ** Trace IDs *)

(** A trace ID packed into a message without a correlation ID is the one
    unpacked from it, unless the trace ID is empty and the message ID is
    not: then the message ID comes back. *)
Theorem trace_round_trip (msg : amqputil.Message) (traceID : string) :
  amqputil.CorrelationId msg = "" →
  amqputil.UnpackTrace (amqputil.PackTrace msg traceID)
  = if decide (traceID = "") then amqputil.MessageId msg else traceID.
Proof.
  intros Hc. unfold amqputil.UnpackTrace, amqputil.PackTrace.
  destruct msg as [mid cid]. simpl in *. subst cid.
  repeat (case_decide; simpl in *); congruence.
Qed.

Lemma trace_round_trip_witness :
  amqputil.UnpackTrace
    (amqputil.PackTrace {| amqputil.MessageId := "m1"; amqputil.CorrelationId := "" |} "root")
  = "root".
Proof.
  apply (trace_round_trip {| amqputil.MessageId := "m1"; amqputil.CorrelationId := "" |} "root").
  reflexivity.
Defined.

(** ** The aggregate store: routing *)

(** A ref of the store's own peer is answered without the remote store and
    a ref of another peer without the local store: the store that is not
    selected has no part in the result. *)
Theorem GetRevision_routing (placeholder_rev : ident.Revision)
    (peer : ident.PeerID) (l l' rm rm' : option revisions.Store) (r : ident.Ref) :
  (ident.Peer (ident.ID r) = peer →
   revisions.GetRevision placeholder_rev (revisions.NewAggregateStore peer l rm) r
   = revisions.GetRevision placeholder_rev (revisions.NewAggregateStore peer l rm') r)
  ∧ (ident.Peer (ident.ID r) ≠ peer →
     revisions.GetRevision placeholder_rev (revisions.NewAggregateStore peer l rm) r
     = revisions.GetRevision placeholder_rev (revisions.NewAggregateStore peer l' rm) r).
Proof.
  unfold revisions.GetRevision. simpl.
  split; intros H; case_decide; done.
Qed.

Lemma GetRevision_routing_witness :
  revisions.GetRevision 0
    (revisions.NewAggregateStore (ident.Peer example_session)
       (Some (revisions.catalog_store (localsession.NewCatalog example_session))) None)
    (ident.At example_session 0)
  = revisions.GetRevision 0
      (revisions.NewAggregateStore (ident.Peer example_session)
         (Some (revisions.catalog_store (localsession.NewCatalog example_session)))
         (Some (revisions.catalog_store example_catalog)))
      (ident.At example_session 0).
Proof.
  apply (proj1 (GetRevision_routing 0 (ident.Peer example_session)
           (Some (revisions.catalog_store (localsession.NewCatalog example_session)))
           None None (Some (revisions.catalog_store example_catalog))
           (ident.At example_session 0))).
  reflexivity.
Defined.

(** ** Constraints and copies *)

Lemma MatchConstraint_all (t : attrmeta.Table) (constraint : rinq.Constraint) :
  attrmeta.MatchConstraint t constraint = true
  ↔ ∀ k v, constraint !! k = Some v → attrmeta.value_at t k = v.
Proof.
  unfold attrmeta.MatchConstraint. rewrite match_pairs_Forall, Forall_forall. split.
  - intros H k v Hk. by apply (H (k, v)), elem_of_map_to_list.
  - intros H [k v] Hin. by apply H, elem_of_map_to_list.
Qed.

(** A table that matches a constraint matches every part of it, and a
    table that matches two constraints matches their union. *)
Theorem MatchConstraint_parts (t : attrmeta.Table) (c1 c2 : rinq.Constraint) :
  (c1 ⊆ c2 → attrmeta.MatchConstraint t c2 = true → attrmeta.MatchConstraint t c1 = true)
  ∧ (attrmeta.MatchConstraint t c1 = true → attrmeta.MatchConstraint t c2 = true →
     attrmeta.MatchConstraint t (c1 ∪ c2) = true).
Proof.
  split.
  - intros Hsub. rewrite !MatchConstraint_all.
    intros H k v Hk. apply H. by eapply lookup_weaken.
  - rewrite !MatchConstraint_all.
    intros H1 H2 k v Hk. apply lookup_union_Some_raw in Hk as [Hk|[_ Hk]]; eauto.
Qed.

Lemma MatchConstraint_parts_witness :
  let t : attrmeta.Table :=
    {[ "a" := {| attrmeta.attr := rinq.Set_ "a" "1";
                 attrmeta.CreatedAt := 1; attrmeta.UpdatedAt := 1 |} ]} in
  attrmeta.MatchConstraint t {[ "b" := "" ]} = true
  ∧ attrmeta.MatchConstraint t ({[ "a" := "1" ]} ∪ {[ "b" := "" ]}) = true.
Proof.
  intros t. split.
  - apply (proj1 (MatchConstraint_parts t {[ "b" := "" ]} {[ "a" := "1"; "b" := "" ]})).
    + apply map_singleton_subseteq_l. reflexivity.
    + reflexivity.
  - apply (proj2 (MatchConstraint_parts t {[ "a" := "1" ]} {[ "b" := "" ]})); reflexivity.
Defined.

(** The copy that Clone makes of a table or namespace has exactly the
    entries of the original, so it reads and matches as the original. *)
Theorem Clone_same_entries (m : gmap string attrmeta.Attr) (constraint : rinq.Constraint) :
  (∀ k, attrmeta.Clone m !! k = m !! k)
  ∧ attrmeta.MatchConstraint (attrmeta.Clone m) constraint
    = attrmeta.MatchConstraint m constraint.
Proof. by rewrite Clone_id. Qed.

(** ** Payloads: the count is the number of live payloads *)

Lemma live_count_insert_new (ps : gmap positive (option positive)) l v d :
  ps !! l = None →
  payload.live_count (<[l := v]> ps) d
  = (payload.live_count ps d + if decide (v = Some d) then 1 else 0)%nat.
Proof.
  intros Hl. unfold payload.live_count. rewrite map_filter_insert. simpl.
  case_decide.
  - rewrite map_size_insert_None; [lia|].
    apply map_lookup_filter_None. by left.
  - rewrite delete_id by done. lia.
Qed.

Lemma live_count_close (ps : gmap positive (option positive)) l d0 d :
  ps !! l = Some (Some d0) →
  payload.live_count ps d
  = (payload.live_count (<[l := None]> ps) d + if decide (d0 = d) then 1 else 0)%nat.
Proof.
  intros Hl.
  rewrite <- (insert_id ps l (Some d0)) at 1 by done.
  rewrite <- (insert_delete_eq ps l (Some d0)), <- (insert_delete_eq ps l None).
  rewrite !live_count_insert_new by apply lookup_delete_eq.
  rewrite (decide_False (P := None = Some d)) by done.
  destruct (decide (d0 = d)) as [->|Hne].
  - rewrite decide_True by done. lia.
  - rewrite decide_False; [lia|]. by intros [= ?].
Qed.

Lemma live_count_le (ps : gmap positive (option positive)) d :
  (payload.live_count ps d ≤ size ps)%nat.
Proof. apply map_size_filter. Qed.

Lemma live_count_unallocated m n d :
  payload.counted n m → payload.datas m !! d = None →
  payload.live_count (payload.payloads m) d = 0%nat.
Proof.
  intros (_ & _ & Halloc) Hd. unfold payload.live_count.
  apply map_size_empty_iff, map_eq. intros l. rewrite lookup_empty.
  apply map_lookup_filter_None. destruct (payload.payloads m !! l) as [[d'|]|] eqn:Hl.
  - right. intros x [= <-]. simpl. intros [= ->].
    destruct (Halloc _ _ Hl) as [pd Hpd]. congruence.
  - right. intros x [= <-]. done.
  - by left.
Qed.

Lemma counted_new n m pd :
  payload.counted n m →
  payload.refCount pd = 1 →
  payload.counted (S n)
    (payload.new_payload (payload.new_data m pd).1 (payload.new_data m pd).2).1.
Proof.
  intros Hm Hrc. pose proof Hm as (Hcount & Hsize & Halloc).
  unfold payload.new_payload, payload.new_data. simpl.
  set (d := fresh (dom (payload.datas m))).
  set (l := fresh (dom (payload.payloads m))).
  assert (Hd : payload.datas m !! d = None) by (apply not_elem_of_dom, is_fresh).
  assert (Hl : payload.payloads m !! l = None) by (apply not_elem_of_dom, is_fresh).
  (split; [|split]); cbn [payload.payloads payload.datas].
  - intros d' pd'. rewrite live_count_insert_new by done. rewrite lookup_insert.
    case_decide as Hdd.
    + subst d'. intros [= <-]. rewrite decide_True by done.
      rewrite (live_count_unallocated m n d Hm Hd). by rewrite Hrc.
    + intros Hpd'. rewrite decide_False by (intros [= ?]; done).
      rewrite (Hcount _ _ Hpd'). f_equal. lia.
  - rewrite map_size_insert_None by done. lia.
  - intros l' d'. rewrite lookup_insert. case_decide.
    + intros [= <-]. rewrite lookup_insert_eq. eauto.
    + intros Hl'. destruct (Halloc _ _ Hl') as [pd' Hpd'].
      destruct (decide (d = d')) as [<-|]; [congruence|].
      rewrite lookup_insert_ne by done. eauto.
Qed.

Lemma counted_mono n n' m : (n ≤ n')%nat → payload.counted n m → payload.counted n' m.
Proof. intros Hle (? & ? & ?). repeat split; try done. lia. Qed.

(** One call keeps the counts right while fewer payloads were made than a
    uint can count. *)
Lemma exec_counted bits n m k :
  payload.counted n m →
  N.of_nat n + 1 < 2 ^ bits →
  payload.counted (S n) (payload.exec bits m k).1.
Proof.
  intros Hm Hbits. pose proof Hm as (Hcount & Hsize & Halloc).
  destruct k as [v|buf|p|p]; simpl.
  - destruct v; simpl; try (by eapply counted_mono; [|exact Hm]; lia).
    by apply counted_new.
  - destruct buf; simpl; [by eapply counted_mono; [|exact Hm]; lia|].
    by apply counted_new.
  - destruct p as [l|]; simpl; [|by eapply counted_mono; [|exact Hm]; lia].
    destruct (payload.payloads m !! l) as [[d|]|] eqn:Hl;
      unfold payload.data_of; rewrite Hl; simpl;
      try (by eapply counted_mono; [|exact Hm]; lia).
    destruct (Halloc _ _ Hl) as [pd Hpd].
    rewrite (alter_lookup_insert _ _ _ _ Hpd).
    set (l' := fresh (dom (payload.payloads m))).
    assert (Hl' : payload.payloads m !! l' = None) by (apply not_elem_of_dom, is_fresh).
    pose proof (live_count_le (payload.payloads m) d) as Hle.
    (split; [|split]); cbn [payload.payloads payload.datas].
    + intros d' pd'. rewrite live_count_insert_new by done. rewrite lookup_insert.
      case_decide as Hdd.
      * subst d'. intros [= <-]. rewrite decide_True by done. simpl.
        rewrite uint_incr_small; rewrite (Hcount _ _ Hpd); lia.
      * intros Hpd'. rewrite decide_False by (intros [= ?]; done).
        rewrite (Hcount _ _ Hpd'). f_equal. lia.
    + rewrite map_size_insert_None by done. lia.
    + intros l0 d0. rewrite lookup_insert. case_decide.
      * intros [= <-]. rewrite lookup_insert_eq. eauto.
      * intros Hl0. destruct (Halloc _ _ Hl0) as [pd0 Hpd0].
        rewrite lookup_insert. case_decide; eauto.
  - destruct p as [l|]; simpl; [|by eapply counted_mono; [|exact Hm]; lia].
    destruct (payload.payloads m !! l) as [[d|]|] eqn:Hl;
      unfold payload.data_of; rewrite Hl; simpl;
      try (by eapply counted_mono; [|exact Hm]; lia).
    destruct (Halloc _ _ Hl) as [pd Hpd].
    rewrite (alter_lookup_insert _ _ _ _ Hpd).
    pose proof (live_count_le (payload.payloads m) d) as Hle.
    pose proof (live_count_close (payload.payloads m) l d d Hl) as Hone.
    rewrite decide_True in Hone by done.
    (split; [|split]); cbn [payload.payloads payload.datas].
    + intros d' pd'. rewrite lookup_insert. case_decide as Hdd.
      * subst d'. intros [= <-]. simpl.
        rewrite uint_decr_small; rewrite (Hcount _ _ Hpd); lia.
      * intros Hpd'. rewrite (Hcount _ _ Hpd').
        rewrite (live_count_close (payload.payloads m) l d d' Hl).
        rewrite decide_False by done. f_equal. lia.
    + rewrite map_size_insert_Some by eauto. lia.
    + intros l0 d0. rewrite lookup_insert. case_decide; [done|].
      intros Hl0. destruct (Halloc _ _ Hl0) as [pd0 Hpd0].
      rewrite lookup_insert. case_decide; eauto.
Qed.

Lemma run_counted bits n m calls :
  payload.counted n m →
  N.of_nat (n + length calls) < 2 ^ bits →
  payload.counted (n + length calls) (payload.run bits m calls).
Proof.
  revert n m. induction calls as [|k rest IH]; intros n m Hm Hbits; simpl.
  - by rewrite Nat.add_0_r.
  - simpl in Hbits. replace (n + S (length rest))%nat with (S n + length rest)%nat by lia.
    apply IH; [|by replace (S n + length rest)%nat with (n + S (length rest))%nat by lia].
    apply exec_counted; [done|lia].
Qed.

Lemma empty_counted : payload.counted 0 payload.empty_memory.
Proof.
  split; [|split]; simpl.
  - intros d pd. by rewrite lookup_empty.
  - by rewrite map_size_empty.
  - intros l d. by rewrite lookup_empty.
Qed.

(** After any history of NewPayload, NewPayloadFromBytes, Clone and Close
    that is shorter than a uint can count, the reference count of every
    data is the number of payloads that point to it and are not closed, and
    every such payload points to data that is there. *)
Theorem refCount_counts_live_payloads (bits : N) (calls : list payload.call) :
  N.of_nat (length calls) < 2 ^ bits →
  let m := payload.run bits payload.empty_memory calls in
  (∀ d pd, payload.datas m !! d = Some pd →
           payload.refCount pd = N.of_nat (payload.live_count (payload.payloads m) d))
  ∧ (∀ l d, payload.payloads m !! l = Some (Some d) → is_Some (payload.datas m !! d)).
Proof.
  intros Hbits m.
  destruct (run_counted bits 0 payload.empty_memory calls empty_counted Hbits)
    as (Hcount & _ & Halloc).
  by split.
Qed.

Lemma refCount_counts_live_payloads_witness :
  let calls := [payload.CallNewPayloadFromBytes [Byte.x2a];
                payload.CallClone (Some 1%positive);
                payload.CallClone (Some 2%positive);
                payload.CallClose (Some 1%positive);
                payload.CallClose (Some 1%positive)] in
  let m := payload.run 64 payload.empty_memory calls in
  payload.refCount_at m 1 = Some 2
  ∧ payload.live_count (payload.payloads m) 1 = 2%nat.
Proof.
  intros calls m.
  destruct (refCount_counts_live_payloads 64 calls eq_refl) as [Hcount _].
  fold m in Hcount.
  split; [reflexivity|].
  specialize (Hcount 1%positive
    {| payload.buffer := Some [Byte.x2a]; payload.value_ := payload.nilValue;
       payload.hasValue := false; payload.refCount := 2 |} eq_refl).
  simpl in Hcount. lia.
Defined.

(** After any history of NewPayload, NewPayloadFromBytes, Clone and Close
    that is shorter than a uint can count, Close returns the buffer of a
    data to the pool exactly when it closes the last payload of the data
    that was still live; the close of any earlier one leaves the pool
    alone. *)
Theorem buffer_returned_with_last_payload (bits : N) (calls : list payload.call)
    (l d : positive) (pd : payload.payloadData) (b : payload.Buffer) :
  N.of_nat (length calls) < 2 ^ bits →
  let m := payload.run bits payload.empty_memory calls in
  payload.payloads m !! l = Some (Some d) →
  payload.datas m !! d = Some pd →
  payload.buffer pd = Some b →
  payload.pool (payload.Close bits m (Some l))
  = if decide (payload.live_count (payload.payloads m) d = 1%nat)
    then b :: payload.pool m else payload.pool m.
Proof.
  intros Hbits m Hl Hd Hb.
  destruct (run_counted bits 0 payload.empty_memory calls empty_counted Hbits)
    as (Hcount & Hsize & _).
  fold m in Hcount, Hsize. simpl in Hsize.
  rewrite (Close_live _ _ _ _ _ Hl Hd). simpl. rewrite Hb.
  pose proof (live_count_le (payload.payloads m) d) as Hle.
  pose proof (live_count_close (payload.payloads m) l d d Hl) as Hone.
  rewrite decide_True in Hone by done.
  rewrite uint_decr_small; rewrite (Hcount _ _ Hd); try lia.
  repeat case_decide; try done; lia.
Qed.

Lemma buffer_returned_with_last_payload_witness :
  let calls := [payload.CallNewPayloadFromBytes [Byte.x2a];
                payload.CallClone (Some 1%positive);
                payload.CallClose (Some 1%positive)] in
  let m := payload.run 64 payload.empty_memory calls in
  payload.pool m = [] ∧ payload.pool (payload.Close 64 m (Some 2%positive)) = [[Byte.x2a]].
Proof.
  intros calls m. split; [reflexivity|].
  apply (buffer_returned_with_last_payload 64 calls 2%positive 1%positive
           {| payload.buffer := Some [Byte.x2a]; payload.value_ := payload.nilValue;
              payload.hasValue := false; payload.refCount := 1 |} [Byte.x2a]);
    reflexivity.
Defined.

(** ** Payloads: what was put in comes out *)

Lemma Bytes_buffered enc m l d pd b :
  payload.payloads m !! l = Some (Some d) →
  payload.datas m !! d = Some pd →
  payload.buffer pd = Some b →
  payload.Bytes enc m (Some l) = (m, commandamqp.Returned b).
Proof.
  intros Hl Hd Hb. unfold payload.Bytes, payload.data_of. by rewrite Hl; simpl; rewrite Hd, Hb.
Qed.

Lemma Value_held dec m l d pd :
  payload.payloads m !! l = Some (Some d) →
  payload.datas m !! d = Some pd →
  payload.hasValue pd = true →
  payload.Value dec m (Some l) = (m, commandamqp.Returned (payload.value_ pd)).
Proof.
  intros Hl Hd Hv. unfold payload.Value, payload.data_of. by rewrite Hl; simpl; rewrite Hd, Hv.
Qed.

Lemma NewPayloadFromBytes_live m buf :
  buf ≠ [] →
  ∃ m1 l d,
    payload.NewPayloadFromBytes m buf = (m1, Some l)
    ∧ payload.payloads m1 !! l = Some (Some d)
    ∧ payload.datas m1 !! d
      = Some {| payload.buffer := Some buf; payload.value_ := payload.nilValue;
                payload.hasValue := false; payload.refCount := 1 |}
    ∧ payload.pool m1 = payload.pool m.
Proof.
  intros Hbuf. destruct buf as [|b0 buf]; [done|].
  unfold payload.NewPayloadFromBytes, payload.new_data, payload.new_payload.
  eexists _, _, _. split; [reflexivity|]. simpl.
  split; [apply lookup_insert_eq|]. split; [apply lookup_insert_eq|done].
Qed.

Lemma NewPayload_live m v :
  ∃ m1 l d,
    payload.NewPayload m (payload.someValue v) = (m1, Some l)
    ∧ payload.payloads m1 !! l = Some (Some d)
    ∧ payload.datas m1 !! d
      = Some {| payload.buffer := None; payload.value_ := payload.someValue v;
                payload.hasValue := true; payload.refCount := 1 |}.
Proof.
  unfold payload.NewPayload, payload.new_data, payload.new_payload.
  eexists _, _, _. split; [reflexivity|]. simpl.
  split; apply lookup_insert_eq.
Qed.

(** A payload made from a byte slice that is not empty gives back those
    bytes, with no encoding and no change of the memory, and so does a
    clone of it, also after the original is closed: closing the original
    returns no buffer to the pool while the clone lives.  The closed
    original gives the nil slice and has the length 0.  This holds in any
    memory, for a [uint] of two bits or more. *)
Theorem payload_from_bytes_round_trip (bits : N) (enc : payload.value → option payload.Buffer)
    (m : payload.memory) (buf : payload.Buffer) :
  buf ≠ [] →
  2 ≤ bits →
  let m1 := (payload.NewPayloadFromBytes m buf).1 in
  let p := (payload.NewPayloadFromBytes m buf).2 in
  let m2 := (payload.Clone bits m1 p).1 in
  let q := (payload.Clone bits m1 p).2 in
  let m3 := payload.Close bits m2 p in
  payload.Bytes enc m1 p = (m1, commandamqp.Returned buf)
  ∧ payload.Bytes enc m2 p = (m2, commandamqp.Returned buf)
  ∧ payload.Bytes enc m2 q = (m2, commandamqp.Returned buf)
  ∧ payload.Bytes enc m3 q = (m3, commandamqp.Returned buf)
  ∧ payload.pool m3 = payload.pool m
  ∧ payload.Bytes enc m3 p = (m3, commandamqp.Returned [])
  ∧ payload.Len enc m3 p = (m3, commandamqp.Returned 0%nat).
Proof.
  intros Hbuf Hbits m1 p m2 q m3.
  destruct (NewPayloadFromBytes_live m buf Hbuf) as (m1' & l & d & Hnew & Hl1 & Hd1 & Hpool1).
  assert (Hm1 : m1 = m1') by (subst m1; by rewrite Hnew).
  assert (Hp : p = Some l) by (subst p; by rewrite Hnew).
  clearbody m1 p. subst m1' p. clear Hnew.
  assert (Hpow : 4 ≤ 2 ^ bits).
  { change 4 with (2 ^ 2). apply N.pow_le_mono_r; lia. }
  assert (Hclone := Clone_live bits m1 l d _ Hl1 Hd1).
  cbn [payload.refCount] in Hclone. rewrite uint_incr_small in Hclone by lia.
  set (l' := fresh (dom (payload.payloads m1))) in *.
  assert (Hne : l' ≠ l).
  { intros Heq. apply (is_fresh (dom (payload.payloads m1))). fold l'. rewrite Heq.
    apply elem_of_dom. eauto. }
  assert (Hq : q = Some l') by (subst q; by rewrite Hclone).
  assert (Hl2 : payload.payloads m2 !! l = Some (Some d)).
  { subst m2. rewrite Hclone. simpl. by rewrite lookup_insert_ne. }
  assert (Hl2' : payload.payloads m2 !! l' = Some (Some d)).
  { subst m2. rewrite Hclone. simpl. by rewrite lookup_insert_eq. }
  assert (Hd2 : payload.datas m2 !! d
                = Some {| payload.buffer := Some buf; payload.value_ := payload.nilValue;
                          payload.hasValue := false; payload.refCount := 2 |}).
  { subst m2. rewrite Hclone. simpl. by rewrite lookup_insert_eq. }
  assert (Hpool2 : payload.pool m2 = payload.pool m).
  { subst m2. rewrite Hclone. simpl. done. }
  assert (Hclose := Close_live bits m2 l d _ Hl2 Hd2). fold m3 in Hclose.
  cbn [payload.refCount payload.buffer] in Hclose.
  rewrite uint_decr_small in Hclose by lia.
  change (2 - 1) with 1 in Hclose.
  rewrite decide_False in Hclose by done.
  clearbody m2 q m3. subst q.
  assert (Hl3 : payload.payloads m3 !! l = Some None).
  { rewrite Hclose. simpl. by rewrite lookup_insert_eq. }
  assert (Hl3' : payload.payloads m3 !! l' = Some (Some d)).
  { rewrite Hclose. simpl. by rewrite lookup_insert_ne. }
  assert (Hd3 : payload.datas m3 !! d
                = Some (payload.with_refCount
                          {| payload.buffer := Some buf; payload.value_ := payload.nilValue;
                             payload.hasValue := false; payload.refCount := 2 |} 1)).
  { rewrite Hclose. simpl. by rewrite lookup_insert_eq. }
  assert (Hpool3 : payload.pool m3 = payload.pool m).
  { rewrite Hclose. simpl. done. }
  split; [by eapply Bytes_buffered|].
  split; [by eapply Bytes_buffered|].
  split; [by eapply Bytes_buffered|].
  split; [by eapply Bytes_buffered|].
  split; [done|].
  assert (Hnil : payload.Bytes enc m3 (Some l) = (m3, commandamqp.Returned [])).
  { unfold payload.Bytes, payload.data_of. by rewrite Hl3. }
  split; [exact Hnil|]. unfold payload.Len. by rewrite Hnil.
Qed.

Lemma payload_from_bytes_round_trip_witness :
  let enc (_ : payload.value) : option payload.Buffer := None in
  let m1 := (payload.NewPayloadFromBytes payload.empty_memory [Byte.x2a]).1 in
  let p := (payload.NewPayloadFromBytes payload.empty_memory [Byte.x2a]).2 in
  payload.Bytes enc m1 p = (m1, commandamqp.Returned [Byte.x2a]).
Proof.
  intros enc m1 p.
  refine (proj1 (payload_from_bytes_round_trip 64 enc payload.empty_memory [Byte.x2a] _ _)).
  - intros H. discriminate H.
  - lia.
Defined.

(** A payload made from a value gives back that value with no decoding;
    its bytes are the encoding of the value, made at the first call of
    Bytes and kept: the second call returns them from the memory as it is,
    and the value is still the one put in. *)
Theorem payload_from_value_round_trip (enc : payload.value → option payload.Buffer)
    (dec : payload.Buffer → option payload.value)
    (m : payload.memory) (v : string) (b : payload.Buffer) :
  enc (payload.someValue v) = Some b →
  let m1 := (payload.NewPayload m (payload.someValue v)).1 in
  let p := (payload.NewPayload m (payload.someValue v)).2 in
  let m2 := (payload.Bytes enc m1 p).1 in
  payload.Value dec m1 p = (m1, commandamqp.Returned (payload.someValue v))
  ∧ (payload.Bytes enc m1 p).2 = commandamqp.Returned b
  ∧ payload.Bytes enc m2 p = (m2, commandamqp.Returned b)
  ∧ payload.Value dec m2 p = (m2, commandamqp.Returned (payload.someValue v)).
Proof.
  intros Henc m1 p m2.
  destruct (NewPayload_live m v) as (m1' & l & d & Hnew & Hl1 & Hd1).
  assert (Hm1 : m1 = m1') by (subst m1; by rewrite Hnew).
  assert (Hp : p = Some l) by (subst p; by rewrite Hnew).
  clearbody m1 p. subst m1' p. clear Hnew.
  set (pd := {| payload.buffer := None; payload.value_ := payload.someValue v;
                payload.hasValue := true; payload.refCount := 1 |}) in *.
  assert (HBytes : payload.Bytes enc m1 (Some l)
    = ({| payload.payloads := payload.payloads m1;
          payload.datas := <[d := payload.with_buffer pd b]> (payload.datas m1);
          payload.pool := payload.pool m1 |}, commandamqp.Returned b)).
  { unfold payload.Bytes, payload.data_of. rewrite Hl1. simpl. rewrite Hd1.
    simpl. by rewrite Henc. }
  subst m2. rewrite HBytes. cbn [fst snd].
  split; [by apply (Value_held dec m1 l d pd)|]. split; [done|]. split.
  - eapply Bytes_buffered; [exact Hl1|apply lookup_insert_eq|done].
  - by apply (Value_held dec _ l d (payload.with_buffer pd b));
      [exact Hl1|apply lookup_insert_eq|].
Qed.

Lemma payload_from_value_round_trip_witness :
  let enc (v : payload.value) : option payload.Buffer := Some [Byte.x61] in
  let dec (_ : payload.Buffer) : option payload.value := None in
  let m1 := (payload.NewPayload payload.empty_memory (payload.someValue "a")).1 in
  let p := (payload.NewPayload payload.empty_memory (payload.someValue "a")).2 in
  payload.Value dec m1 p = (m1, commandamqp.Returned (payload.someValue "a"))
  ∧ (payload.Bytes enc m1 p).2 = commandamqp.Returned [Byte.x61].
Proof.
  intros enc dec m1 p.
  destruct (payload_from_value_round_trip enc dec payload.empty_memory "a" [Byte.x61] eq_refl)
    as (HValue & HBytes & _).
  split; [exact HValue|exact HBytes].
Defined.
